(** * The middleware runtime of next-api-glue: [withMiddleware] and
      [middlewareFactory]

    A shallow embedding of the chain execution engine, followed by the
    properties of its control flow.

    What is modelled and how.

    - A middleware (and the terminal handler) is a callback the runtime
      knows nothing about.  Here a callback body is a finite sequence of
      [action]s: the calls a callback can make on the objects the runtime
      hands to it ([context.runtime.next], [context.runtime.done], a read
      of [context.runtime.error], [res.status], [res.write], [res.end], a
      write to [context.options], a [throw]).  A control function is
      called either through the context, which yields the closure bound
      right now, or through a reference captured at an earlier pull step (a
      stale closure).  Every [next()] a body makes is awaited, and a body
      has no [try]/[catch]: a failure raised in a body, or in something it
      awaits, leaves the body.  Execution is therefore sequential, as it is
      for awaited calls on the single event loop of the host.
    - The response is what the runtime reads and calls of it:
      [writableEnded], [headersSent], the status code and [end].  The
      host's [end] sets both flags; a write sends the headers and leaves
      the body stream open.
    - The run state of [startPullingChain] (its three [let] variables and
      the chain iterator) is one [run_state] per run; there are at most two
      runs per request, the primary one and the error handling one.  The
      variable [chainWasPulled] is local to one call of [pullChain]: the
      run keeps one cell per call, and a [runtime.next] closure is known by
      the run and the cell it captured.
    - [res.end] is a mutable field of the response.  Each run that sees a
      truthy [options.callDoneOnEnd] replaces it by a wrapper around the
      previous value, so the field is the list of the runs whose wrappers
      sit around the host's own [end], outermost first.
    - Every message the source hands to [debug] is an [event] of the
      [trace]; some events carry data the message does not print (the run,
      the position of the middleware, the value of [runtime.error]).
    - [pullChain] calls itself through the closures it hands out.  It is
      defined with a fuel argument that bounds the depth of these calls;
      [run_total] shows that a fuel a little above the number of entries
      of the two chains is always enough, and [withMiddleware_fuel] that
      more fuel changes nothing.
    - The argument checks [withMiddleware] makes before it returns the
      handler ([use] and [useOnError] must be arrays) are carried by the
      types of [config]: a chain is a list.  The checks themselves, on
      arguments that need not be arrays, are [withMiddleware_checked].
    - Two middleware of next-adhesive, [limit-request] and
      [auth-request], come last, each as the calls it makes on what it
      imports. *)

From stdpp Require Import gmap strings list fin_maps.
From Stdlib Require Import Sorted.

Local Open Scope string_scope.
Local Open Scope list_scope.
Local Open Scope nat_scope.

(** ** Values, callbacks and configuration *)

(** The JavaScript values the model needs: thrown values, option values and
    the content of [runtime.error]. *)
Inductive jsval : Type :=
| JUndefined
| JBool (b : bool)
| JStr (s : string)
| JError (message : string).

#[global] Instance jsval_eq_dec : EqDecision jsval.
Proof. solve_decision. Defined.

(** Truthiness, as [if (v)] decides it. *)
Definition truthy (v : jsval) : bool :=
  match v with
  | JUndefined => false
  | JBool b => b
  | JStr s => negb (String.eqb s "")
  | JError _ => true
  end.

(** The two chain runs of one request. *)
Inductive run_id : Type := Primary | ErrorChain.

#[global] Instance run_id_eq_dec : EqDecision run_id.
Proof. solve_decision. Defined.

(** How a callback names the control function it calls: the one bound on
    the context right now, or one it captured when cell [cell] of run [r]
    was the current pull step. *)
Inductive closure_ref : Type :=
| Current
| Captured (r : run_id) (cell : nat).

(** What a callback can do. *)
Inductive action : Type :=
| ACallNext (c : closure_ref)            (* await next() *)
| ACallDone (c : closure_ref)            (* done() *)
| AReadError                             (* read context.runtime.error *)
| AStatus (code : nat)                   (* res.status(code) *)
| AWrite                                 (* res.write(chunk): headers go out *)
| AEnd                                   (* res.end() *)
| ASetOption (key : string) (v : jsval)  (* context.options[key] = v *)
| ADeleteOption (key : string)           (* delete context.options[key] *)
| AThrow (e : jsval).                    (* throw e *)

(** An item of a chain, or the [pagesHandler] argument: a function, or
    something for which [typeof x === 'function'] is false. *)
Inductive entry : Type :=
| Fn (body : list action)
| NotFn.

(** The second argument of [withMiddleware].  A [useOnError] or [options]
    that was left out is [None]. *)
Record config : Type := {
  descriptor : option string;
  use : list entry;
  useOnError : option (list entry);
  options : option (gmap string jsval)
}.

(** ** State *)

(** The variables of one call of [startPullingChain]. *)
Record run_state : Type := {
  executionWasAborted : bool;
  executionCompleted : bool;
  ranAtLeastOneMiddleware : bool;
  chain : list entry;          (* what the iterator has not yielded yet *)
  yielded : nat;               (* how many items it has yielded *)
  chainWasPulled : list bool   (* one cell per call of pullChain *)
}.

(** Where a callback body runs. *)
Inductive site : Type :=
| InMiddleware (r : run_id) (position : nat)
| InHandler.

(** The messages of the debug log.  [r] is the run that speaks. *)
Inductive event : Type :=
| LBegin
| LSelectingFirstPrimary
| LWillCallDoneOnEnd (r : run_id)
| LWillNotCallDoneOnEnd (r : run_id)
| LCallingDoneAfterEnd (r : run_id)
| LSkippedDoneAfterEnd (r : run_id)
| LNextManual (r : run_id)
| LWarnNextAborted (r : run_id)
| LWarnNextFinished (r : run_id)
| LDoneAborting (r : run_id)
| LWarnDoneAborted (r : run_id)
| LWarnDoneFinished (r : run_id)
| LExecuting (r : run_id) (position : nat) (error : jsval)
| LWarnSkippingNonFunction (r : run_id)
| LAbortedManually (r : run_id)
| LSelectingNext (r : run_id)
| LNoMore (r : run_id)
| LDeactivated (r : run_id)
| LStopped (r : run_id)
| LRanAtLeastOne (r : run_id) (yes : bool)
| LWarnAbortedDueToError (r : run_id)
| LErrorInPrimary
| LNotExecutingHandler
| LExecutingHandler
| LFinishedHandler
| LNoHandler
| LSendingNotImplemented
| LDone
| LAttemptingToHandle (e : jsval)
| LSelectingFirstError
| LErrorInErrorChain (e : jsval)
| LThrowingUnhandled
| LNoErrorHandlers
| LDoneWithErrors
| LReadError (w : site) (v : jsval).

(** Everything one request can change: the response, the context, the two
    runs and the log. *)
Record state : Type := {
  writableEnded : bool;
  headersSent : bool;
  statusCode : nat;
  res_end : list run_id;                 (* wrappers around the host's end *)
  ctx_descriptor : option string;        (* runtime.endpoint.descriptor *)
  ctx_next : option (run_id * nat);      (* runtime.next; None: the stub *)
  ctx_done : option (run_id * nat);      (* runtime.done; None: the stub *)
  ctx_error : jsval;                     (* runtime.error *)
  ctx_options : gmap string jsval;       (* context.options *)
  primaryRun : run_state;
  errorRun : run_state;
  trace : list event                     (* oldest message first *)
}.

Definition run (r : run_id) (st : state) : run_state :=
  match r with Primary => primaryRun st | ErrorChain => errorRun st end.

Definition set_run (r : run_id) (rs : run_state) (st : state) : state :=
  match r with
  | Primary =>
      {| writableEnded := writableEnded st; headersSent := headersSent st;
         statusCode := statusCode st; res_end := res_end st;
         ctx_descriptor := ctx_descriptor st; ctx_next := ctx_next st;
         ctx_done := ctx_done st; ctx_error := ctx_error st;
         ctx_options := ctx_options st;
         primaryRun := rs; errorRun := errorRun st; trace := trace st |}
  | ErrorChain =>
      {| writableEnded := writableEnded st; headersSent := headersSent st;
         statusCode := statusCode st; res_end := res_end st;
         ctx_descriptor := ctx_descriptor st; ctx_next := ctx_next st;
         ctx_done := ctx_done st; ctx_error := ctx_error st;
         ctx_options := ctx_options st;
         primaryRun := primaryRun st; errorRun := rs; trace := trace st |}
  end.

Definition say (ev : event) (st : state) : state :=
  {| writableEnded := writableEnded st; headersSent := headersSent st;
     statusCode := statusCode st; res_end := res_end st;
     ctx_descriptor := ctx_descriptor st; ctx_next := ctx_next st;
     ctx_done := ctx_done st; ctx_error := ctx_error st;
     ctx_options := ctx_options st;
     primaryRun := primaryRun st; errorRun := errorRun st;
     trace := trace st ++ [ev] |}.

Definition set_sent (ended sent : bool) (st : state) : state :=
  {| writableEnded := ended; headersSent := sent;
     statusCode := statusCode st; res_end := res_end st;
     ctx_descriptor := ctx_descriptor st; ctx_next := ctx_next st;
     ctx_done := ctx_done st; ctx_error := ctx_error st;
     ctx_options := ctx_options st;
     primaryRun := primaryRun st; errorRun := errorRun st;
     trace := trace st |}.

Definition set_status (code : nat) (st : state) : state :=
  {| writableEnded := writableEnded st; headersSent := headersSent st;
     statusCode := code; res_end := res_end st;
     ctx_descriptor := ctx_descriptor st; ctx_next := ctx_next st;
     ctx_done := ctx_done st; ctx_error := ctx_error st;
     ctx_options := ctx_options st;
     primaryRun := primaryRun st; errorRun := errorRun st;
     trace := trace st |}.

Definition set_res_end (ws : list run_id) (st : state) : state :=
  {| writableEnded := writableEnded st; headersSent := headersSent st;
     statusCode := statusCode st; res_end := ws;
     ctx_descriptor := ctx_descriptor st; ctx_next := ctx_next st;
     ctx_done := ctx_done st; ctx_error := ctx_error st;
     ctx_options := ctx_options st;
     primaryRun := primaryRun st; errorRun := errorRun st;
     trace := trace st |}.

Definition bind_controls (c : run_id * nat) (st : state) : state :=
  {| writableEnded := writableEnded st; headersSent := headersSent st;
     statusCode := statusCode st; res_end := res_end st;
     ctx_descriptor := ctx_descriptor st; ctx_next := Some c;
     ctx_done := Some c; ctx_error := ctx_error st;
     ctx_options := ctx_options st;
     primaryRun := primaryRun st; errorRun := errorRun st;
     trace := trace st |}.

Definition set_error (e : jsval) (st : state) : state :=
  {| writableEnded := writableEnded st; headersSent := headersSent st;
     statusCode := statusCode st; res_end := res_end st;
     ctx_descriptor := ctx_descriptor st; ctx_next := ctx_next st;
     ctx_done := ctx_done st; ctx_error := e;
     ctx_options := ctx_options st;
     primaryRun := primaryRun st; errorRun := errorRun st;
     trace := trace st |}.

Definition set_options (o : gmap string jsval) (st : state) : state :=
  {| writableEnded := writableEnded st; headersSent := headersSent st;
     statusCode := statusCode st; res_end := res_end st;
     ctx_descriptor := ctx_descriptor st; ctx_next := ctx_next st;
     ctx_done := ctx_done st; ctx_error := ctx_error st;
     ctx_options := o;
     primaryRun := primaryRun st; errorRun := errorRun st;
     trace := trace st |}.

(** Updates of single variables of a run. *)
Definition with_aborted (b : bool) (rs : run_state) : run_state :=
  {| executionWasAborted := b; executionCompleted := executionCompleted rs;
     ranAtLeastOneMiddleware := ranAtLeastOneMiddleware rs;
     chain := chain rs; yielded := yielded rs;
     chainWasPulled := chainWasPulled rs |}.

Definition with_completed (b : bool) (rs : run_state) : run_state :=
  {| executionWasAborted := executionWasAborted rs; executionCompleted := b;
     ranAtLeastOneMiddleware := ranAtLeastOneMiddleware rs;
     chain := chain rs; yielded := yielded rs;
     chainWasPulled := chainWasPulled rs |}.

Definition with_ran (b : bool) (rs : run_state) : run_state :=
  {| executionWasAborted := executionWasAborted rs;
     executionCompleted := executionCompleted rs;
     ranAtLeastOneMiddleware := b;
     chain := chain rs; yielded := yielded rs;
     chainWasPulled := chainWasPulled rs |}.

Definition with_iterator (rest : list entry) (n : nat) (rs : run_state)
  : run_state :=
  {| executionWasAborted := executionWasAborted rs;
     executionCompleted := executionCompleted rs;
     ranAtLeastOneMiddleware := ranAtLeastOneMiddleware rs;
     chain := rest; yielded := n;
     chainWasPulled := chainWasPulled rs |}.

Definition with_cells (cells : list bool) (rs : run_state) : run_state :=
  {| executionWasAborted := executionWasAborted rs;
     executionCompleted := executionCompleted rs;
     ranAtLeastOneMiddleware := ranAtLeastOneMiddleware rs;
     chain := chain rs; yielded := yielded rs;
     chainWasPulled := cells |}.

Definition upd_run (r : run_id) (f : run_state -> run_state) (st : state)
  : state :=
  set_run r (f (run r st)) st.

(** The variables of a run as [startPullingChain] declares them. *)
Definition fresh_run (c : list entry) : run_state :=
  {| executionWasAborted := false; executionCompleted := false;
     ranAtLeastOneMiddleware := false;
     chain := c; yielded := 0; chainWasPulled := [] |}.

Definition aborted (r : run_id) (st : state) : bool :=
  executionWasAborted (run r st).
Definition completed (r : run_id) (st : state) : bool :=
  executionCompleted (run r st).

(** [res.writableEnded || res.headersSent] *)
Definition response_sent (st : state) : bool :=
  writableEnded st || headersSent st.

(** ** Results *)

(** A computation returns, throws, or (in the model only) runs out of
    fuel.  The state a throw leaves behind is kept. *)
Inductive result (A : Type) : Type :=
| Ok (a : A) (st : state)
| Threw (e : jsval) (st : state)
| OutOfFuel.

Arguments Ok {A} a st.
Arguments Threw {A} e st.
Arguments OutOfFuel {A}.

Definition bind {A B : Type} (m : result A) (k : A -> state -> result B)
  : result B :=
  match m with
  | Ok a st => k a st
  | Threw e st => Threw e st
  | OutOfFuel => OutOfFuel
  end.

Notation "'let!' x , st ':=' m 'in' k" := (bind m (fun x st => k))
  (at level 10, x name, st name, m at level 100, k at level 200).

(** [try m catch (e) handler]. *)
Definition try_catch {A : Type} (m : result A)
    (handler : jsval -> state -> result A) : result A :=
  match m with
  | Ok a st => Ok a st
  | Threw e st => handler e st
  | OutOfFuel => OutOfFuel
  end.

(** [try m finally st := f st]. *)
Definition finally {A : Type} (m : result A) (f : state -> state)
  : result A :=
  match m with
  | Ok a st => Ok a (f st)
  | Threw e st => Threw e (f st)
  | OutOfFuel => OutOfFuel
  end.

Definition final_state {A : Type} (m : result A) : option state :=
  match m with
  | Ok _ st => Some st
  | Threw _ st => Some st
  | OutOfFuel => None
  end.

(** ** The control functions and [res.end] *)

(** The closure [startPullingChain] binds to [runtime.done] at every pull
    step of run [r].  It reads and writes only the variables of the run, so
    all the [done] closures of one run behave alike. *)
Definition runtime_done (r : run_id) (st : state) : state :=
  if negb (completed r st) then
    if negb (aborted r st) then
      upd_run r (with_aborted true) (say (LDoneAborting r) st)
    else say (LWarnDoneAborted r) st
  else say (LWarnDoneFinished r) st.

(** What a reference to a control function stands for when it is called. *)
Inductive callee : Type :=
| Stub                                (* the function the context starts with *)
| Closure (r : run_id) (cell : nat)
| NotCallable.                        (* nothing was captured yet *)

Definition resolve (c : closure_ref) (bound : option (run_id * nat))
    (st : state) : callee :=
  match c with
  | Current =>
      match bound with
      | Some (r, cell) => Closure r cell
      | None => Stub
      end
  | Captured r cell =>
      if cell <? length (chainWasPulled (run r st)) then Closure r cell
      else NotCallable
  end.

Definition not_a_function : jsval := JError "TypeError: not a function".

(** [done()] through a reference. *)
Definition call_done (c : closure_ref) (st : state) : result unit :=
  match resolve c (ctx_done st) st with
  | Stub => Threw (JError "runtime.done was called unexpectedly") st
  | Closure r _ => Ok tt (runtime_done r st)
  | NotCallable => Threw not_a_function st
  end.

(** The host's own [end]: the body stream ends and the headers are out. *)
Definition host_end (st : state) : state := set_sent true true st.

(** A call of the function [wrappers] stands for: the wrapper of the first
    run around the rest. *)
Fixpoint wrapped_end (wrappers : list run_id) (st : state) : result unit :=
  match wrappers with
  | [] => Ok tt (host_end st)
  | r :: send =>
      let sent := response_sent st in
      let! _, st := wrapped_end send st in
      if negb sent then
        if negb (aborted r st) && negb (completed r st) then
          call_done Current (say (LCallingDoneAfterEnd r) st)
        else Ok tt (say (LSkippedDoneAfterEnd r) st)
      else Ok tt st
  end.

(** [res.end()] *)
Definition call_res_end (st : state) : result unit :=
  wrapped_end (res_end st) st.

(** Modelled from the spec: [sendNotImplemented] of the package
    [@-xun/next-api-respond], which is not part of the sources at hand.  It
    issues the fixed "not implemented" status (HTTP 501, as the comment on
    [withMiddleware] has it) and finalizes the response through
    [res.end]. *)
Definition sendNotImplemented (st : state) : result unit :=
  call_res_end (set_status 501 st).

Section Callbacks.

(** [pullChain] of a run, as the closures see it. *)
Variable pull : run_id -> state -> result unit.

(** The closure bound to [runtime.next] at the pull step of run [r] that
    owns cell [cell]. *)
Definition runtime_next (r : run_id) (cell : nat) (st : state)
  : result unit :=
  if negb (completed r st) then
    if aborted r st then Ok tt (say (LWarnNextAborted r) st)
    else
      let st := upd_run r
        (fun rs => with_cells (<[cell := true]> (chainWasPulled rs)) rs) st in
      pull r (say (LNextManual r) st)
  else Ok tt (say (LWarnNextFinished r) st).

(** [await next()] through a reference. *)
Definition call_next (c : closure_ref) (st : state) : result unit :=
  match resolve c (ctx_next st) st with
  | Stub => Threw (JError "runtime.next was called unexpectedly") st
  | Closure r cell => runtime_next r cell st
  | NotCallable => Threw not_a_function st
  end.

Definition do_action (w : site) (a : action) (st : state) : result unit :=
  match a with
  | ACallNext c => call_next c st
  | ACallDone c => call_done c st
  | AReadError => Ok tt (say (LReadError w (ctx_error st)) st)
  | AStatus code => Ok tt (set_status code st)
  | AWrite => Ok tt (set_sent (writableEnded st) true st)
  | AEnd => call_res_end st
  | ASetOption k v => Ok tt (set_options (<[k := v]> (ctx_options st)) st)
  | ADeleteOption k => Ok tt (set_options (delete k (ctx_options st)) st)
  | AThrow e => Threw e st
  end.

(** One call of a callback. *)
Fixpoint run_body (w : site) (body : list action) (st : state)
  : result unit :=
  match body with
  | [] => Ok tt st
  | a :: rest =>
      let! _, st := do_action w a st in
      run_body w rest st
  end.

End Callbacks.

(** ** The chain driver *)

(** [chain.next()] on the iterator of run [r]. *)
Definition chain_next (r : run_id) (st : state) : option entry * state :=
  match chain (run r st) with
  | [] => (None, st)
  | e :: rest =>
      (Some e,
       upd_run r (fun rs => with_iterator rest (S (yielded rs)) rs) st)
  end.

Fixpoint pullChain (fuel : nat) (r : run_id) (st : state) : result unit :=
  match fuel with
  | 0 => OutOfFuel
  | S fuel =>
      (* let chainWasPulled = false *)
      let cell := length (chainWasPulled (run r st)) in
      let st := upd_run r
        (fun rs => with_cells (chainWasPulled rs ++ [false]) rs) st in
      let position := yielded (run r st) in
      let (currentMiddleware, st) := chain_next r st in
      let st := bind_controls (r, cell) st in
      match currentMiddleware with
      | Some item =>
          let! _, st :=
            match item with
            | Fn body =>
                let st := say (LExecuting r position (ctx_error st)) st in
                let! _, st :=
                  run_body (pullChain fuel) (InMiddleware r position) body st in
                Ok tt (upd_run r (with_ran true) st)
            | NotFn => Ok tt (say (LWarnSkippingNonFunction r) st)
            end in
          if aborted r st then Ok tt (say (LAbortedManually r) st)
          else if negb (nth cell (chainWasPulled (run r st)) false) then
            pullChain fuel r (say (LSelectingNext r) st)
          else Ok tt st
      | None =>
          let st := say (LNoMore r) st in
          let st :=
            if negb (completed r st) then say (LDeactivated r) st else st in
          Ok tt (upd_run r (with_completed true) st)
      end
  end.

(** Async middleware chain iteration; the value returned says whether the
    run was aborted. *)
Definition startPullingChain (fuel : nat) (r : run_id) (c : list entry)
    (st : state) : result bool :=
  let st := set_run r (fresh_run c) st in
  try_catch
    (let st :=
       match ctx_options st !! "callDoneOnEnd" with
       | Some v =>
           if truthy v then
             say (LWillCallDoneOnEnd r) (set_res_end (r :: res_end st) st)
           else say (LWillNotCallDoneOnEnd r) st
       | None => say (LWillNotCallDoneOnEnd r) st
       end in
     let! _, st := pullChain fuel r st in
     let st := say (LStopped r) st in
     let st :=
       say (LRanAtLeastOne r (ranAtLeastOneMiddleware (run r st))) st in
     Ok (aborted r st) st)
    (fun error st =>
       let st := upd_run r (with_aborted true) st in
       Threw error (say (LWarnAbortedDueToError r) st)).

(** ** The request handler *)

(** [{ callDoneOnEnd: true, ...options }] *)
Definition spread (o : option (gmap string jsval)) : gmap string jsval :=
  default ∅ o.

Definition context_options (o : option (gmap string jsval))
  : gmap string jsval :=
  spread o ∪ {[ "callDoneOnEnd" := JBool true ]}.

(** The response and the context at the moment the handler is entered. *)
Definition initial (cfg : config) : state :=
  {| writableEnded := false; headersSent := false; statusCode := 200;
     res_end := [];
     ctx_descriptor := descriptor cfg;
     ctx_next := None; ctx_done := None; ctx_error := JUndefined;
     ctx_options := context_options (options cfg);
     primaryRun := fresh_run []; errorRun := fresh_run [];
     trace := [] |}.

(** The guarded block of the handler: primary chain, terminal handler,
    default response. *)
Definition primaryPhase (fuel : nat) (pagesHandler : entry) (cfg : config)
    (st : state) : result unit :=
  let st := say LBegin st in
  let! primaryChainWasAborted, st :=
    try_catch
      (startPullingChain fuel Primary (use cfg) (say LSelectingFirstPrimary st))
      (fun error st => Threw error (say LErrorInPrimary st)) in
  let! _, st :=
    match pagesHandler with
    | Fn body =>
        if primaryChainWasAborted then Ok tt (say LNotExecutingHandler st)
        else
          let! _, st :=
            run_body (pullChain fuel) InHandler body (say LExecutingHandler st) in
          Ok tt (say LFinishedHandler st)
    | NotFn => Ok tt (say LNoHandler st)
    end in
  let! _, st :=
    if negb (writableEnded st) && negb (headersSent st) then
      sendNotImplemented (say LSendingNotImplemented st)
    else Ok tt st in
  Ok tt (say LDone st).

(** The [catch] block of the handler. *)
Definition errorPhase (fuel : nat) (cfg : config) (error : jsval)
    (st : state) : result unit :=
  finally
    (let st := say (LAttemptingToHandle error) st in
     let st := set_error error st in
     let! _, st :=
       match useOnError cfg with
       | Some onError =>
           try_catch
             (let! _, st :=
                startPullingChain fuel ErrorChain onError
                  (say LSelectingFirstError st) in
              Ok tt st)
             (fun subError st =>
                Threw subError
                  (say LThrowingUnhandled (say (LErrorInErrorChain subError) st)))
       | None => Threw error (say LThrowingUnhandled (say LNoErrorHandlers st))
       end in
     if negb (writableEnded st) && negb (headersSent st) then
       Threw error (say LThrowingUnhandled st)
     else Ok tt st)
    (say LDoneWithErrors).

(** Generic middleware runner: the handler [withMiddleware] returns,
    applied to one request. *)
Definition withMiddleware (pagesHandler : entry) (cfg : config) (fuel : nat)
  : result unit :=
  try_catch (primaryPhase fuel pagesHandler cfg (initial cfg))
            (errorPhase fuel cfg).

(** ** The factory *)

(** The preset of [middlewareFactory]. *)
Record preset : Type := {
  defaultUse : list entry;
  defaultUseOnError : option (list entry);
  defaultOptions : option (gmap string jsval)
}.

(** The parameters of the function the factory returns. *)
Record params : Type := {
  p_descriptor : option string;
  prependUse : option (list entry);
  appendUse : option (list entry);
  prependUseOnError : option (list entry);
  appendUseOnError : option (list entry);
  passedOptions : option (gmap string jsval)
}.

(** [x || []] *)
Definition or_empty (x : option (list entry)) : list entry := default [] x.

(** The configuration the factory hands to [withMiddleware]. *)
Definition factory_config (d : preset) (p : params) : config :=
  {| descriptor := p_descriptor p;
     use := or_empty (prependUse p) ++ defaultUse d ++ or_empty (appendUse p);
     useOnError :=
       Some (or_empty (prependUseOnError p)
             ++ or_empty (defaultUseOnError d)
             ++ or_empty (appendUseOnError p));
     options := Some (spread (passedOptions p) ∪ spread (defaultOptions d)) |}.

Definition middlewareFactory (d : preset) (pagesHandler : entry) (p : params)
  : nat -> result unit :=
  withMiddleware pagesHandler (factory_config d p).

(** ** Reasoning principles *)

(** A predicate on the state a computation ends in, whether it returned
    or threw. *)
Definition holds {A : Type} (J : state -> Prop) (m : result A) : Prop :=
  match m with
  | Ok _ st => J st
  | Threw _ st => J st
  | OutOfFuel => True
  end.

Lemma holds_bind {A B : Type} (J : state -> Prop) (m : result A)
    (k : A -> state -> result B) :
  holds J m -> (forall a st, J st -> holds J (k a st)) -> holds J (bind m k).
Proof. destruct m; simpl; auto. Qed.

Lemma holds_impl {A : Type} (J K : state -> Prop) (m : result A) :
  (forall st, J st -> K st) -> holds J m -> holds K m.
Proof. destruct m; simpl; auto. Qed.

Lemma pullChain_S fuel r st :
  pullChain (S fuel) r st =
    let cell := length (chainWasPulled (run r st)) in
    let st := upd_run r
      (fun rs => with_cells (chainWasPulled rs ++ [false]) rs) st in
    let position := yielded (run r st) in
    let (currentMiddleware, st) := chain_next r st in
    let st := bind_controls (r, cell) st in
    match currentMiddleware with
    | Some item =>
        let! _, st :=
          match item with
          | Fn body =>
              let st := say (LExecuting r position (ctx_error st)) st in
              let! _, st :=
                run_body (pullChain fuel) (InMiddleware r position) body st in
              Ok tt (upd_run r (with_ran true) st)
          | NotFn => Ok tt (say (LWarnSkippingNonFunction r) st)
          end in
        if aborted r st then Ok tt (say (LAbortedManually r) st)
        else if negb (nth cell (chainWasPulled (run r st)) false) then
          pullChain fuel r (say (LSelectingNext r) st)
        else Ok tt st
    | None =>
        let st := say (LNoMore r) st in
        let st :=
          if negb (completed r st) then say (LDeactivated r) st else st in
        Ok tt (upd_run r (with_completed true) st)
    end.
Proof. reflexivity. Qed.

(** Projections through the state updates. *)
Lemma run_set_run r r' rs st :
  run r (set_run r' rs st) = if decide (r = r') then rs else run r st.
Proof. destruct r, r'; reflexivity. Qed.

Lemma run_upd_run_same r f st : run r (upd_run r f st) = f (run r st).
Proof. destruct r; reflexivity. Qed.

Lemma run_upd_run_other r r' f st :
  r <> r' -> run r (upd_run r' f st) = run r st.
Proof. destruct r, r'; congruence || reflexivity. Qed.

Lemma run_say r ev st : run r (say ev st) = run r st.
Proof. destruct r; reflexivity. Qed.

Lemma run_bind_controls r c st : run r (bind_controls c st) = run r st.
Proof. destruct r; reflexivity. Qed.

(** The messages the driver and the control functions emit besides the
    ones that report an invocation, an abort or a read. *)
Definition chatter (ev : event) : bool :=
  match ev with
  | LCallingDoneAfterEnd _ | LSkippedDoneAfterEnd _ | LNextManual _
  | LWarnNextAborted _ | LWarnNextFinished _ | LWarnDoneAborted _
  | LWarnDoneFinished _ | LWarnSkippingNonFunction _ | LAbortedManually _
  | LSelectingNext _ | LNoMore _ | LDeactivated _ => true
  | _ => false
  end.

Definition is_next (a : action) : bool :=
  match a with ACallNext _ => true | _ => false end.

(** Preservation of a state predicate by the actions that do not pull the
    chain, from its preservation by the elementary updates. *)
Section Atomic.

Variable J : state -> Prop.
Variable allowed : action -> Prop.

Hypothesis J_say : forall ev st, chatter ev = true -> J st -> J (say ev st).
Hypothesis J_abort : forall r st,
  completed r st = false -> aborted r st = false -> J st ->
  J (upd_run r (with_aborted true) (say (LDoneAborting r) st)).
Hypothesis J_host_end : forall st, J st -> J (host_end st).
Hypothesis J_write : forall st, J st -> J (set_sent (writableEnded st) true st).
Hypothesis J_status : forall code st, J st -> J (set_status code st).
Hypothesis J_read : forall w st,
  J st -> J (say (LReadError w (ctx_error st)) st).
Hypothesis J_set_option : forall k v st,
  allowed (ASetOption k v) -> J st ->
  J (set_options (<[k := v]> (ctx_options st)) st).
Hypothesis J_delete_option : forall k st,
  allowed (ADeleteOption k) -> J st ->
  J (set_options (delete k (ctx_options st)) st).

Lemma atomic_runtime_done r st : J st -> J (runtime_done r st).
Proof.
  intros HJ. unfold runtime_done.
  destruct (completed r st) eqn:Hc; simpl.
  - apply J_say; auto.
  - destruct (aborted r st) eqn:Ha; simpl.
    + apply J_say; auto.
    + apply J_abort; auto.
Qed.

Lemma atomic_call_done c st : J st -> holds J (call_done c st).
Proof.
  intros HJ. unfold call_done.
  destruct (resolve c (ctx_done st) st); simpl; auto.
  apply atomic_runtime_done; auto.
Qed.

Lemma atomic_wrapped_end ws st : J st -> holds J (wrapped_end ws st).
Proof.
  revert st. induction ws as [|r send IH]; intros st HJ; simpl.
  - apply J_host_end; auto.
  - apply holds_bind; [apply IH; auto|].
    intros _ st1 HJ1.
    destruct (response_sent st); simpl; auto.
    destruct (negb (aborted r st1) && negb (completed r st1)); simpl.
    + apply atomic_call_done. apply J_say; auto.
    + apply J_say; auto.
Qed.

Lemma atomic_call_res_end st : J st -> holds J (call_res_end st).
Proof. apply atomic_wrapped_end. Qed.

Lemma atomic_sendNotImplemented st : J st -> holds J (sendNotImplemented st).
Proof. intros HJ. apply atomic_call_res_end, J_status, HJ. Qed.

Lemma atomic_action pull w a st :
  allowed a -> is_next a = false -> J st -> holds J (do_action pull w a st).
Proof.
  intros Hal Hn HJ. destruct a; simpl in *; try discriminate; auto.
  - apply atomic_call_done; auto.
  - apply atomic_call_res_end; auto.
Qed.

End Atomic.

(** Preservation of a state predicate by a whole run of the driver. *)
Definition entry_allowed (allowed : action -> Prop) (e : entry) : Prop :=
  match e with
  | Fn body => Forall allowed body
  | NotFn => True
  end.

Definition chains_allowed (allowed : action -> Prop) (st : state) : Prop :=
  forall r, Forall (entry_allowed allowed) (chain (run r st)).

Section Driver.

Variable J : state -> Prop.
Variable allowed : action -> Prop.

Hypothesis J_action : forall pull w a st,
  allowed a -> is_next a = false -> J st -> holds J (do_action pull w a st).
Hypothesis J_say : forall ev st, chatter ev = true -> J st -> J (say ev st).
Hypothesis J_executing : forall r i st,
  aborted r st = false -> yielded (run r st) = S i -> J st ->
  J (say (LExecuting r i (ctx_error st)) st).
Hypothesis J_cells : forall r cells st,
  J st -> J (upd_run r (with_cells cells) st).
Hypothesis J_iterator : forall r e rest st,
  chain (run r st) = e :: rest -> J st ->
  J (upd_run r (fun rs => with_iterator rest (S (yielded rs)) rs) st).
Hypothesis J_bind : forall c st, J st -> J (bind_controls c st).
Hypothesis J_ran : forall r st, J st -> J (upd_run r (with_ran true) st).
Hypothesis J_completed : forall r st,
  chain (run r st) = [] -> J st -> J (upd_run r (with_completed true) st).

(** The predicate together with the fact that only allowed actions are
    left in the chains. *)
Definition driver_inv (st : state) : Prop :=
  J st /\ chains_allowed allowed st.

(** What preservation asks of the function the closures pull with. *)
Definition preserving (pull : run_id -> state -> result unit) : Prop :=
  forall r st, driver_inv st -> aborted r st = false ->
    holds driver_inv (pull r st).

Lemma chains_allowed_same st st' :
  (forall r, chain (run r st') = chain (run r st)) ->
  chains_allowed allowed st -> chains_allowed allowed st'.
Proof. intros H Hc r. rewrite H. apply Hc. Qed.

Lemma chains_allowed_action pull w a st :
  is_next a = false -> chains_allowed allowed st ->
  holds (chains_allowed allowed) (do_action pull w a st).
Proof.
  intros Hn Hc.
  apply (atomic_action (chains_allowed allowed) (fun _ => True));
    auto; clear; intros;
    try (eapply chains_allowed_same; [|eassumption];
         intros r'; destruct r'; reflexivity).
  eapply chains_allowed_same; [|eassumption].
  intros r'; destruct r', r; reflexivity.
Qed.

Lemma driver_runtime_next pull r cell st :
  preserving pull -> driver_inv st ->
  holds driver_inv (runtime_next pull r cell st).
Proof.
  intros Hp [HJ Hc]. unfold runtime_next.
  destruct (completed r st) eqn:Hcomp; simpl.
  - split; [apply J_say; auto|].
    eapply chains_allowed_same; [|eassumption]. intros r'. apply f_equal, run_say.
  - destruct (aborted r st) eqn:Hab; simpl.
    + split; [apply J_say; auto|].
      eapply chains_allowed_same; [|eassumption].
      intros r'. apply f_equal, run_say.
    + apply Hp.
      * split; [apply J_say, J_cells; auto|].
        eapply chains_allowed_same; [|eassumption].
        intros r'. destruct r', r; reflexivity.
      * destruct r; simpl; exact Hab.
Qed.

Lemma driver_action pull w a st :
  preserving pull -> allowed a -> driver_inv st ->
  holds driver_inv (do_action pull w a st).
Proof.
  intros Hp Hal [HJ Hc].
  destruct (is_next a) eqn:Hn.
  - destruct a; try discriminate. simpl. unfold call_next.
    destruct (resolve c (ctx_next st) st); simpl; try (split; assumption).
    apply driver_runtime_next; auto. split; assumption.
  - pose proof (J_action pull w a st Hal Hn HJ) as H1.
    pose proof (chains_allowed_action pull w a st Hn Hc) as H2.
    destruct (do_action pull w a st); simpl in *; try split; auto.
Qed.

Lemma driver_run_body pull w body st :
  preserving pull -> Forall allowed body -> driver_inv st ->
  holds driver_inv (run_body pull w body st).
Proof.
  intros Hp Hb. revert st.
  induction Hb as [|a rest Ha Hrest IH]; intros st Hinv; simpl; auto.
  apply holds_bind; [apply driver_action; auto|].
  intros _ st1 H1. apply IH; auto.
Qed.

Theorem driver_pullChain fuel : preserving (pullChain fuel).
Proof.
  induction fuel as [|fuel IH]; intros r st [HJ Hc] Hab; [exact I|].
  rewrite pullChain_S. cbv zeta.
  set (cell := length (chainWasPulled (run r st))).
  set (st1 := upd_run r _ st).
  assert (HJ1 : J st1) by (apply J_cells; auto).
  assert (Hc1 : chains_allowed allowed st1).
  { eapply chains_allowed_same; [|exact Hc].
    intros r'. destruct r', r; reflexivity. }
  assert (Hab1 : aborted r st1 = false).
  { unfold st1. destruct r; exact Hab. }
  clearbody st1. unfold chain_next.
  destruct (chain (run r st1)) as [|item rest] eqn:Hchain.
  - (* the iterator is exhausted *)
    simpl. split.
    + apply J_completed.
      { destruct (negb (completed r (say (LNoMore r) (bind_controls (r, cell) st1))));
          rewrite ?run_say, run_bind_controls; exact Hchain. }
      destruct (negb (completed r (say (LNoMore r) (bind_controls (r, cell) st1))));
        repeat apply J_say; auto.
    + eapply chains_allowed_same; [|exact Hc1].
      intros r'.
      destruct (negb (completed r (say (LNoMore r) (bind_controls (r, cell) st1))));
        destruct r', r; reflexivity.
  - (* an item was pulled *)
    set (st2 := bind_controls (r, cell) (upd_run r _ st1)).
    assert (Hitem : entry_allowed allowed item /\ Forall (entry_allowed allowed) rest).
    { specialize (Hc1 r). rewrite Hchain in Hc1.
      inversion Hc1; auto. }
    destruct Hitem as [Hitem Hrest].
    assert (HJ2 : J st2).
    { apply J_bind. eapply J_iterator; eauto. }
    assert (Hc2 : chains_allowed allowed st2).
    { intros r'. unfold st2. rewrite run_bind_controls.
      destruct (decide (r' = r)) as [->|Hne].
      - rewrite run_upd_run_same. simpl. exact Hrest.
      - rewrite run_upd_run_other by exact Hne. apply Hc1. }
    assert (Hab2 : aborted r st2 = false).
    { unfold st2, aborted. rewrite run_bind_controls, run_upd_run_same.
      simpl. exact Hab1. }
    assert (Hy2 : yielded (run r st2) = S (yielded (run r st1))).
    { unfold st2. rewrite run_bind_controls, run_upd_run_same. reflexivity. }
    clearbody st2.
    apply holds_bind.
    + destruct item as [body|].
      * apply holds_bind.
        -- apply driver_run_body; auto.
           split.
           ++ assert (ctx_error st2 = ctx_error st2) by reflexivity.
              apply J_executing; auto.
           ++ eapply chains_allowed_same; [|exact Hc2].
              intros r'. apply f_equal, run_say.
        -- intros _ st3 [HJ3 Hc3]. simpl. split.
           ++ apply J_ran; auto.
           ++ eapply chains_allowed_same; [|exact Hc3].
              intros r'. destruct r', r; reflexivity.
      * simpl. split.
        -- apply J_say; auto.
        -- eapply chains_allowed_same; [|exact Hc2].
           intros r'. apply f_equal, run_say.
    + intros _ st3 [HJ3 Hc3].
      destruct (aborted r st3) eqn:Hab3.
      * simpl. split; [apply J_say; auto|].
        eapply chains_allowed_same; [|exact Hc3].
        intros r'. apply f_equal, run_say.
      * destruct (negb (nth cell (chainWasPulled (run r st3)) false)).
        -- apply IH.
           ++ split; [apply J_say; auto|].
              eapply chains_allowed_same; [|exact Hc3].
              intros r'. apply f_equal, run_say.
           ++ unfold aborted. rewrite run_say. exact Hab3.
        -- simpl. split; assumption.
Qed.

End Driver.

(** The messages of [startPullingChain] itself, of the guarded block of the
    handler, and of its [catch] block. *)
Definition run_chatter (ev : event) : bool :=
  match ev with
  | LWillCallDoneOnEnd _ | LWillNotCallDoneOnEnd _ | LStopped _
  | LRanAtLeastOne _ _ | LWarnAbortedDueToError _ => true
  | _ => false
  end.

Definition primary_chatter (ev : event) : bool :=
  match ev with
  | LBegin | LSelectingFirstPrimary | LErrorInPrimary | LNotExecutingHandler
  | LExecutingHandler | LFinishedHandler | LNoHandler
  | LSendingNotImplemented | LDone => true
  | _ => false
  end.

Definition error_chatter (ev : event) : bool :=
  match ev with
  | LAttemptingToHandle _ | LSelectingFirstError | LErrorInErrorChain _
  | LThrowingUnhandled | LNoErrorHandlers | LDoneWithErrors => true
  | _ => false
  end.

Lemma chains_allowed_keep allowed st st' :
  (forall r, chain (run r st') = chain (run r st)) ->
  chains_allowed allowed st -> chains_allowed allowed st'.
Proof. intros H Hc r. rewrite H. apply Hc. Qed.

Lemma chains_allowed_fresh allowed r c st :
  Forall (entry_allowed allowed) c -> chains_allowed allowed st ->
  chains_allowed allowed (set_run r (fresh_run c) st).
Proof.
  intros Hc Hst r'. rewrite run_set_run.
  destruct (decide (r' = r)); [exact Hc|apply Hst].
Qed.

Ltac same_chains :=
  let r' := fresh "r" in
  intros r';
  repeat match goal with
  | |- context [match ?b with _ => _ end] => destruct b
  end;
  repeat match goal with r : run_id |- _ => destruct r end;
  reflexivity.

(** Preservation by the pieces of the request handler. *)
Section Handler.

Variable J : state -> Prop.
Variable allowed : action -> Prop.

Hypothesis J_pull : forall fuel, preserving J allowed (pullChain fuel).
Hypothesis J_body : forall fuel w body st,
  Forall allowed body -> driver_inv J allowed st ->
  holds (driver_inv J allowed) (run_body (pullChain fuel) w body st).
Hypothesis J_run_say : forall ev st,
  run_chatter ev = true -> J st -> J (say ev st).
Hypothesis J_wrap : forall r st, J st -> J (set_res_end (r :: res_end st) st).
Hypothesis J_catch : forall r st, J st -> J (upd_run r (with_aborted true) st).

Lemma handler_startPullingChain fuel r c st :
  Forall (entry_allowed allowed) c -> chains_allowed allowed st ->
  J (set_run r (fresh_run c) st) ->
  holds (driver_inv J allowed) (startPullingChain fuel r c st).
Proof.
  intros Hc Hst HJ. unfold startPullingChain.
  set (st0 := set_run r (fresh_run c) st) in *.
  assert (Hc0 : chains_allowed allowed st0)
    by (apply chains_allowed_fresh; assumption).
  assert (Hab0 : aborted r st0 = false)
    by (unfold st0, aborted; rewrite run_set_run, decide_True; reflexivity).
  clearbody st0.
  set (st1 := match ctx_options st0 !! "callDoneOnEnd" with
              | Some v => _ | None => _ end).
  assert (H1 : driver_inv J allowed st1 /\ aborted r st1 = false).
  { unfold st1. destruct (ctx_options st0 !! "callDoneOnEnd") as [v|];
      [destruct (truthy v)|]; (split; [split|]);
      try (apply J_run_say; [reflexivity|]); try apply J_wrap; auto;
      try (eapply chains_allowed_keep; [|exact Hc0]; same_chains);
      destruct r; exact Hab0. }
  clearbody st1. destruct H1 as [H1 Hab1].
  pose proof (J_pull fuel r st1 H1 Hab1) as Hp.
  destruct (pullChain fuel r st1) as [[] st2|e st2|]; simpl in *; auto.
  - destruct Hp as [HJ2 Hc2]. split.
    + repeat (apply J_run_say; [reflexivity|]). exact HJ2.
    + eapply chains_allowed_keep; [|exact Hc2]. same_chains.
  - destruct Hp as [HJ2 Hc2]. split.
    + apply J_run_say; [reflexivity|]. apply J_catch, HJ2.
    + eapply chains_allowed_keep; [|exact Hc2]. same_chains.
Qed.

Hypothesis J_primary_say : forall ev st,
  primary_chatter ev = true -> J st -> J (say ev st).
Hypothesis J_send : forall st, J st -> holds J (sendNotImplemented st).

Lemma chains_allowed_send st :
  chains_allowed allowed st ->
  holds (chains_allowed allowed) (sendNotImplemented st).
Proof.
  intros Hc.
  apply (atomic_sendNotImplemented (chains_allowed allowed));
    intros; eapply chains_allowed_keep; try eassumption; same_chains.
Qed.

Lemma handler_primaryPhase fuel pagesHandler cfg st :
  Forall (entry_allowed allowed) (use cfg) ->
  entry_allowed allowed pagesHandler ->
  chains_allowed allowed st ->
  J (set_run Primary (fresh_run (use cfg))
       (say LSelectingFirstPrimary (say LBegin st))) ->
  holds (driver_inv J allowed) (primaryPhase fuel pagesHandler cfg st).
Proof.
  intros Hu Hh Hc HJ. unfold primaryPhase.
  apply holds_bind.
  { assert (H : holds (driver_inv J allowed)
      (startPullingChain fuel Primary (use cfg)
         (say LSelectingFirstPrimary (say LBegin st)))).
    { apply handler_startPullingChain; auto;
        try (eapply chains_allowed_keep; [|exact Hc]; same_chains). }
    destruct (startPullingChain fuel Primary (use cfg) _)
      as [b st1|e st1|]; simpl in H |- *; auto.
    destruct H as [HJ1 Hc1].
    split; [apply J_primary_say; auto|].
    eapply chains_allowed_keep; [|exact Hc1]. same_chains. }
  intros b st1 [HJ1 Hc1].
  apply holds_bind.
  { destruct pagesHandler as [body|]; [destruct b|]; simpl.
    - split; [apply J_primary_say; auto|].
      eapply chains_allowed_keep; [|exact Hc1]. same_chains.
    - apply holds_bind.
      + apply J_body; auto. split; [apply J_primary_say; auto|].
        eapply chains_allowed_keep; [|exact Hc1]. same_chains.
      + intros _ st2 [HJ2 Hc2]. simpl.
        split; [apply J_primary_say; auto|].
        eapply chains_allowed_keep; [|exact Hc2]. same_chains.
    - split; [apply J_primary_say; auto|].
      eapply chains_allowed_keep; [|exact Hc1]. same_chains. }
  intros _ st2 [HJ2 Hc2].
  apply holds_bind.
  { destruct (negb (writableEnded st2) && negb (headersSent st2)); simpl.
    - assert (H1 : holds J (sendNotImplemented (say LSendingNotImplemented st2)))
        by (apply J_send, J_primary_say; auto).
      assert (H2 : holds (chains_allowed allowed)
                     (sendNotImplemented (say LSendingNotImplemented st2))).
      { apply chains_allowed_send.
        eapply chains_allowed_keep; [|exact Hc2]. same_chains. }
      destruct (sendNotImplemented _); simpl in H1, H2 |- *; auto;
        split; assumption.
    - split; assumption. }
  intros _ st3 [HJ3 Hc3]. simpl.
  split; [apply J_primary_say; auto|].
  eapply chains_allowed_keep; [|exact Hc3]. same_chains.
Qed.

Hypothesis J_error_say : forall ev st,
  error_chatter ev = true -> J st -> J (say ev st).
Hypothesis J_fresh_error : forall c st,
  J st -> J (set_run ErrorChain (fresh_run c) st).

Lemma handler_errorPhase fuel cfg error st :
  (forall onError, useOnError cfg = Some onError ->
     Forall (entry_allowed allowed) onError) ->
  chains_allowed allowed st ->
  J (set_error error (say (LAttemptingToHandle error) st)) ->
  holds (driver_inv J allowed) (errorPhase fuel cfg error st).
Proof.
  intros Hu Hc HJ. unfold errorPhase.
  set (st0 := set_error error (say (LAttemptingToHandle error) st)) in *.
  assert (Hc0 : chains_allowed allowed st0).
  { eapply chains_allowed_keep; [|exact Hc]. same_chains. }
  clearbody st0.
  assert (Hfin : forall m : result unit,
    holds (driver_inv J allowed) m ->
    holds (driver_inv J allowed) (finally m (say LDoneWithErrors))).
  { intros [a s|e s|]; simpl; auto; intros [H1 H2];
      (split; [apply J_error_say; auto|]);
      (eapply chains_allowed_keep; [|exact H2]); same_chains. }
  apply Hfin. apply holds_bind.
  - destruct (useOnError cfg) as [onError|] eqn:Hue.
    + assert (H : holds (driver_inv J allowed)
        (startPullingChain fuel ErrorChain onError
           (say LSelectingFirstError st0))).
      { apply handler_startPullingChain; auto;
          try (eapply chains_allowed_keep; [|exact Hc0]; same_chains). }
      destruct (startPullingChain fuel ErrorChain onError _)
        as [b st1|e st1|]; simpl in H |- *; auto.
      destruct H as [HJ1 Hc1].
      split; [repeat (apply J_error_say; [reflexivity|]); exact HJ1|].
      eapply chains_allowed_keep; [|exact Hc1]. same_chains.
    + simpl. split; [repeat (apply J_error_say; [reflexivity|]); exact HJ|].
      eapply chains_allowed_keep; [|exact Hc0]. same_chains.
  - intros _ st1 [HJ1 Hc1].
    destruct (negb (writableEnded st1) && negb (headersSent st1)); simpl.
    + split; [apply J_error_say; auto|].
      eapply chains_allowed_keep; [|exact Hc1]. same_chains.
    + split; assumption.
Qed.

Hypothesis J_set_error : forall e st, J st -> J (set_error e st).

Theorem handler_withMiddleware fuel pagesHandler cfg :
  Forall (entry_allowed allowed) (use cfg) ->
  entry_allowed allowed pagesHandler ->
  (forall onError, useOnError cfg = Some onError ->
     Forall (entry_allowed allowed) onError) ->
  J (set_run Primary (fresh_run (use cfg))
       (say LSelectingFirstPrimary (say LBegin (initial cfg)))) ->
  holds J (withMiddleware pagesHandler cfg fuel).
Proof.
  intros Hu Hh Hue HJ. unfold withMiddleware.
  assert (Hc : chains_allowed allowed (initial cfg)).
  { intros r; destruct r; constructor. }
  pose proof (handler_primaryPhase fuel pagesHandler cfg (initial cfg)
                Hu Hh Hc HJ) as H.
  destruct (primaryPhase fuel pagesHandler cfg (initial cfg))
    as [a st1|e st1|]; simpl in H |- *; auto.
  - apply H.
  - destruct H as [HJ1 Hc1].
    eapply holds_impl; [|apply handler_errorPhase; auto].
    intros s Hs; apply Hs.
Qed.

End Handler.

(** The same, from the elementary updates alone. *)
Section Elementary.

Variable J : state -> Prop.
Variable allowed : action -> Prop.

Hypothesis E_say : forall ev st, chatter ev = true -> J st -> J (say ev st).
Hypothesis E_abort : forall r st,
  completed r st = false -> aborted r st = false -> J st ->
  J (upd_run r (with_aborted true) (say (LDoneAborting r) st)).
Hypothesis E_host_end : forall st, J st -> J (host_end st).
Hypothesis E_write : forall st, J st -> J (set_sent (writableEnded st) true st).
Hypothesis E_status : forall code st, J st -> J (set_status code st).
Hypothesis E_read : forall w st,
  J st -> J (say (LReadError w (ctx_error st)) st).
Hypothesis E_set_option : forall k v st,
  allowed (ASetOption k v) -> J st ->
  J (set_options (<[k := v]> (ctx_options st)) st).
Hypothesis E_delete_option : forall k st,
  allowed (ADeleteOption k) -> J st ->
  J (set_options (delete k (ctx_options st)) st).
Hypothesis E_executing : forall r i st,
  aborted r st = false -> yielded (run r st) = S i -> J st ->
  J (say (LExecuting r i (ctx_error st)) st).
Hypothesis E_cells : forall r cells st,
  J st -> J (upd_run r (with_cells cells) st).
Hypothesis E_iterator : forall r e rest st,
  chain (run r st) = e :: rest -> J st ->
  J (upd_run r (fun rs => with_iterator rest (S (yielded rs)) rs) st).
Hypothesis E_bind : forall c st, J st -> J (bind_controls c st).
Hypothesis E_ran : forall r st, J st -> J (upd_run r (with_ran true) st).
Hypothesis E_completed : forall r st,
  chain (run r st) = [] -> J st -> J (upd_run r (with_completed true) st).

Lemma elem_action pull w a st :
  allowed a -> is_next a = false -> J st -> holds J (do_action pull w a st).
Proof. apply atomic_action; assumption. Qed.

Lemma elem_send st : J st -> holds J (sendNotImplemented st).
Proof. apply atomic_sendNotImplemented; assumption. Qed.

Lemma elem_pull fuel : preserving J allowed (pullChain fuel).
Proof. apply driver_pullChain; try assumption. apply elem_action. Qed.

Lemma elem_body fuel w body st :
  Forall allowed body -> driver_inv J allowed st ->
  holds (driver_inv J allowed) (run_body (pullChain fuel) w body st).
Proof.
  apply driver_run_body; try assumption.
  - apply elem_action.
  - apply elem_pull.
Qed.

Hypothesis E_run_say : forall ev st,
  run_chatter ev = true -> J st -> J (say ev st).
Hypothesis E_wrap : forall r st, J st -> J (set_res_end (r :: res_end st) st).
Hypothesis E_catch : forall r st, J st -> J (upd_run r (with_aborted true) st).

Lemma elem_startPullingChain fuel r c st :
  Forall (entry_allowed allowed) c -> chains_allowed allowed st ->
  J (set_run r (fresh_run c) st) ->
  holds (driver_inv J allowed) (startPullingChain fuel r c st).
Proof.
  apply handler_startPullingChain; try assumption. apply elem_pull.
Qed.

Hypothesis E_primary_say : forall ev st,
  primary_chatter ev = true -> J st -> J (say ev st).

Lemma elem_primaryPhase fuel pagesHandler cfg st :
  Forall (entry_allowed allowed) (use cfg) ->
  entry_allowed allowed pagesHandler ->
  chains_allowed allowed st ->
  J (set_run Primary (fresh_run (use cfg))
       (say LSelectingFirstPrimary (say LBegin st))) ->
  holds (driver_inv J allowed) (primaryPhase fuel pagesHandler cfg st).
Proof.
  apply handler_primaryPhase; try assumption.
  - apply elem_pull.
  - apply elem_body.
  - apply elem_send.
Qed.

Hypothesis E_error_say : forall ev st,
  error_chatter ev = true -> J st -> J (say ev st).
Hypothesis E_fresh_error : forall c st,
  J st -> J (set_run ErrorChain (fresh_run c) st).

Lemma elem_errorPhase fuel cfg error st :
  (forall onError, useOnError cfg = Some onError ->
     Forall (entry_allowed allowed) onError) ->
  chains_allowed allowed st ->
  J (set_error error (say (LAttemptingToHandle error) st)) ->
  holds (driver_inv J allowed) (errorPhase fuel cfg error st).
Proof.
  apply handler_errorPhase; try assumption. apply elem_pull.
Qed.

Hypothesis E_set_error : forall e st, J st -> J (set_error e st).

Lemma elem_withMiddleware fuel pagesHandler cfg :
  Forall (entry_allowed allowed) (use cfg) ->
  entry_allowed allowed pagesHandler ->
  (forall onError, useOnError cfg = Some onError ->
     Forall (entry_allowed allowed) onError) ->
  J (set_run Primary (fresh_run (use cfg))
       (say LSelectingFirstPrimary (say LBegin (initial cfg)))) ->
  holds J (withMiddleware pagesHandler cfg fuel).
Proof.
  apply handler_withMiddleware with (allowed := allowed); try assumption.
  - apply elem_pull.
  - apply elem_body.
  - apply elem_send.
Qed.

End Elementary.

Lemma holds_driver_inv {A : Type} J allowed (m : result A) :
  holds (driver_inv J allowed) m -> holds J m.
Proof. apply holds_impl. intros st H; apply H. Qed.

(** Every action is allowed. *)
Definition any_action (a : action) : Prop := True.

Lemma any_body body : Forall any_action body.
Proof. induction body; constructor; auto; exact I. Qed.

Lemma any_entry e : entry_allowed any_action e.
Proof. destruct e; simpl; auto using any_body. Qed.

Lemma any_chain c : Forall (entry_allowed any_action) c.
Proof. induction c; constructor; auto using any_entry. Qed.

Lemma any_chains st : chains_allowed any_action st.
Proof. intros r. apply any_chain. Qed.

Ltac elementary :=
  intros;
  repeat match goal with r : run_id |- _ => destruct r end;
  simpl in *; auto.

(** ** Facts about chain runs *)

(** *** What a run leaves alone *)

(** Nothing the driver or a callback does assigns [runtime.error], the
    descriptor or [res.end]. *)
Definition untouched (st0 st : state) : Prop :=
  ctx_error st = ctx_error st0 /\ ctx_descriptor st = ctx_descriptor st0 /\
  res_end st = res_end st0.

Lemma untouched_refl st : untouched st st.
Proof. repeat split. Qed.

Lemma pullChain_untouched fuel r st :
  aborted r st = false -> holds (untouched st) (pullChain fuel r st).
Proof.
  intros Hab.
  apply holds_driver_inv with (allowed := any_action).
  apply (elem_pull (untouched st) any_action); unfold untouched;
    try solve [elementary].
  split; [apply untouched_refl|apply any_chains].
Qed.

Lemma run_body_untouched fuel w body st :
  holds (untouched st) (run_body (pullChain fuel) w body st).
Proof.
  apply holds_driver_inv with (allowed := any_action).
  apply (elem_body (untouched st) any_action); unfold untouched;
    try solve [elementary].
  - apply any_body.
  - split; [apply untouched_refl|apply any_chains].
Qed.

(** *** The two flags never go back *)

Definition finished (r : run_id) (st : state) : bool :=
  aborted r st || completed r st.

(** Once set, [executionWasAborted] and [executionCompleted] stay set. *)
Definition flags_kept (st0 st : state) : Prop :=
  forall r, (aborted r st0 = true -> aborted r st = true) /\
            (completed r st0 = true -> completed r st = true).

Lemma flags_kept_refl st : flags_kept st st.
Proof. intros r; split; auto. Qed.

Lemma flags_kept_finished st0 st r :
  flags_kept st0 st -> finished r st0 = true -> finished r st = true.
Proof.
  unfold finished. intros H Hf. destruct (H r) as [Ha Hc].
  apply orb_true_iff in Hf. apply orb_true_iff.
  destruct Hf; [left|right]; auto.
Qed.

Ltac flags_step :=
  unfold flags_kept; intros; unfold flags_kept in *;
  match goal with
  | H : forall r : run_id, _ /\ _ |- (_ -> _) /\ _ =>
      match goal with
      | r0 : run_id |- _ =>
          destruct (H r0); clear H; split; intros;
          repeat match goal with r : run_id |- _ => destruct r end;
          simpl in *; solve [auto | congruence]
      end
  end.

Lemma pullChain_flags_kept fuel r st :
  aborted r st = false -> holds (flags_kept st) (pullChain fuel r st).
Proof.
  intros Hab.
  apply holds_driver_inv with (allowed := any_action).
  apply (elem_pull (flags_kept st) any_action);
    try solve [flags_step]; try assumption.
  split; [apply flags_kept_refl|apply any_chains].
Qed.

Lemma run_body_flags_kept fuel w body st :
  holds (flags_kept st) (run_body (pullChain fuel) w body st).
Proof.
  apply holds_driver_inv with (allowed := any_action).
  apply (elem_body (flags_kept st) any_action); try solve [flags_step].
  - apply any_body.
  - split; [apply flags_kept_refl|apply any_chains].
Qed.

(** *** A run that returns has completed or was aborted *)

Definition cell_set (r : run_id) (c : nat) (st : state) : Prop :=
  nth c (chainWasPulled (run r st)) false = true.

(** Between [st0] and [st] no flag went back, and every [chainWasPulled]
    that was set in between belongs to a run that is over. *)
Definition settled (st0 st : state) : Prop :=
  flags_kept st0 st /\
  forall r c, cell_set r c st -> cell_set r c st0 \/ finished r st = true.

Lemma settled_refl st : settled st st.
Proof. split; [apply flags_kept_refl|auto]. Qed.

Lemma settled_trans st0 st1 st2 :
  settled st0 st1 -> settled st1 st2 -> settled st0 st2.
Proof.
  intros [F1 C1] [F2 C2]. split.
  - intros r. destruct (F1 r), (F2 r). split; auto.
  - intros r c H. destruct (C2 r c H) as [H1|H1]; [|auto].
    destruct (C1 r c H1) as [H0|H0]; [auto|].
    right. eapply flags_kept_finished; eauto.
Qed.

Lemma settled_same st0 st :
  (forall r, chainWasPulled (run r st) = chainWasPulled (run r st0)) ->
  flags_kept st0 st -> settled st0 st.
Proof.
  intros Hc Hf. split; [exact Hf|].
  intros r c H. left. unfold cell_set in *. rewrite <- Hc. exact H.
Qed.

Definition same_cells (st0 st : state) : Prop :=
  forall r, chainWasPulled (run r st) = chainWasPulled (run r st0).

Ltac cells_step :=
  unfold same_cells; intros; unfold same_cells in *;
  match goal with
  | H : forall r : run_id, _ = _ |- _ = _ =>
      match goal with
      | r0 : run_id |- _ =>
          rewrite <- (H r0); clear H;
          repeat match goal with r : run_id |- _ => destruct r end;
          reflexivity
      end
  end.

Lemma action_settled_plain pull w a st :
  is_next a = false -> holds (settled st) (do_action pull w a st).
Proof.
  intros Hn.
  assert (H1 : holds (same_cells st) (do_action pull w a st)).
  { apply (atomic_action (same_cells st) any_action);
      try solve [cells_step]; auto; try exact I.
    intros r; reflexivity. }
  assert (H2 : holds (flags_kept st) (do_action pull w a st)).
  { apply (atomic_action (flags_kept st) any_action);
      try solve [flags_step]; auto; try exact I.
    apply flags_kept_refl. }
  destruct (do_action pull w a st); simpl in *; auto;
    apply settled_same; auto.
Qed.

Lemma nth_snoc_false (l : list bool) c :
  nth c (l ++ [false]) false = true -> nth c l false = true.
Proof.
  revert c. induction l as [|b l IH]; intros [|c]; simpl; auto;
    try discriminate.
  destruct c; discriminate.
Qed.

Lemma nth_snoc_length (l : list bool) : nth (length l) (l ++ [false]) false = false.
Proof. induction l; simpl; auto. Qed.

Lemma nth_insert_true (l : list bool) c c' :
  nth c' (<[c := true]> l) false = true -> c' = c \/ nth c' l false = true.
Proof.
  revert c c'. induction l as [|b l IH]; intros [|c] [|c']; simpl; auto.
  intros H. destruct (IH c c' H); auto.
Qed.

Lemma settled_say ev st : settled st (say ev st).
Proof.
  apply settled_same; [intros []; reflexivity|].
  intros []; split; auto.
Qed.

Section Settled.

Variable pull : run_id -> state -> result unit.
Hypothesis pull_post : forall r st st',
  pull r st = Ok tt st' -> finished r st' = true /\ settled st st'.

Lemma runtime_next_settled r c st st' :
  runtime_next pull r c st = Ok tt st' -> settled st st'.
Proof.
  unfold runtime_next.
  destruct (completed r st) eqn:Hc; simpl.
  { intros [= <-]. apply settled_say. }
  destruct (aborted r st) eqn:Ha.
  { intros [= <-]. apply settled_say. }
  intros H. apply pull_post in H. destruct H as [Hf [F C]].
  split.
  - intros r0. destruct (F r0) as [F1 F2].
    split; intros; [apply F1|apply F2]; destruct r0, r; simpl in *; auto.
  - intros r0 c0 H0. destruct (C r0 c0 H0) as [H1|H1]; [|auto].
    unfold cell_set in H1.
    destruct (decide (r0 = r)) as [->|Hne].
    + rewrite run_say, run_upd_run_same in H1. simpl in H1.
      apply nth_insert_true in H1. destruct H1 as [->|H1]; [|left; exact H1].
      right. exact Hf.
    + rewrite run_say, run_upd_run_other in H1 by exact Hne.
      left. exact H1.
Qed.

Lemma action_settled w a st st' :
  do_action pull w a st = Ok tt st' -> settled st st'.
Proof.
  destruct (is_next a) eqn:Hn.
  - destruct a; try discriminate. simpl. unfold call_next.
    destruct (resolve c (ctx_next st) st); try discriminate.
    apply runtime_next_settled.
  - intros H. pose proof (action_settled_plain pull w a st Hn) as Hs.
    rewrite H in Hs. exact Hs.
Qed.

Lemma run_body_settled w body st st' :
  run_body pull w body st = Ok tt st' -> settled st st'.
Proof.
  revert st. induction body as [|a rest IH]; intros st; simpl.
  - intros [= <-]. apply settled_refl.
  - destruct (do_action pull w a st) as [[] st1|e st1|] eqn:Ha;
      simpl; try discriminate.
    intros H. eapply settled_trans; [eapply action_settled; eauto|].
    apply IH; exact H.
Qed.

End Settled.

Lemma finished_completed r st :
  finished r (upd_run r (with_completed true) st) = true.
Proof. unfold finished, completed, aborted. destruct r; simpl; apply orb_true_r. Qed.

Theorem pullChain_post fuel : forall r st st',
  pullChain fuel r st = Ok tt st' -> finished r st' = true /\ settled st st'.
Proof.
  induction fuel as [|fuel IH]; intros r st st'; [discriminate|].
  rewrite pullChain_S. cbv zeta.
  set (cell := length (chainWasPulled (run r st))).
  set (st1 := upd_run r _ st).
  assert (S1 : settled st st1).
  { split; [intros r0; split; intros; destruct r0, r; simpl in *; auto|].
    intros r0 c H. left. unfold cell_set in *.
    destruct (decide (r0 = r)) as [->|Hne].
    - unfold st1 in H. rewrite run_upd_run_same in H. simpl in H.
      apply nth_snoc_false in H. exact H.
    - unfold st1 in H. rewrite run_upd_run_other in H by exact Hne. exact H. }
  assert (Hcell : nth cell (chainWasPulled (run r st1)) false = false).
  { unfold st1. rewrite run_upd_run_same. simpl. apply nth_snoc_length. }
  clearbody st1. unfold chain_next.
  destruct (chain (run r st1)) as [|item rest] eqn:Hchain.
  - (* exhausted *)
    intros [= <-]. split; [apply finished_completed|].
    eapply settled_trans; [exact S1|].
    apply settled_same.
    + intros r0.
      destruct (negb (completed r (say (LNoMore r) (bind_controls (r, cell) st1))));
        destruct r0, r; reflexivity.
    + intros r0.
      destruct (negb (completed r (say (LNoMore r) (bind_controls (r, cell) st1))));
        split; intros; destruct r0, r; simpl in *; auto.
  - set (st2 := bind_controls (r, cell) (upd_run r _ st1)).
    assert (S2 : settled st1 st2).
    { apply settled_same; [intros r0; destruct r0, r; reflexivity|].
      intros r0; split; intros; destruct r0, r; simpl in *; auto. }
    assert (Hcell2 : nth cell (chainWasPulled (run r st2)) false = false).
    { unfold st2. rewrite run_bind_controls, run_upd_run_same. exact Hcell. }
    clearbody st2.
    (* the call of the item *)
    assert (Hitem : forall st3,
      (let! _, st :=
         match item with
         | Fn body =>
             let st := say (LExecuting r (yielded (run r st1)) (ctx_error st2)) st2 in
             let! _, st := run_body (pullChain fuel)
                             (InMiddleware r (yielded (run r st1))) body st in
             Ok tt (upd_run r (with_ran true) st)
         | NotFn => Ok tt (say (LWarnSkippingNonFunction r) st2)
         end in Ok tt st) = Ok tt st3 ->
      settled st2 st3).
    { intros st3. destruct item as [body|]; simpl.
      - destruct (run_body (pullChain fuel) _ body _) as [[] st4|e st4|] eqn:Hb;
          simpl; try discriminate.
        intros [= <-].
        apply run_body_settled in Hb; [|exact IH].
        eapply settled_trans; [apply settled_say|].
        eapply settled_trans; [exact Hb|].
        apply settled_same; [intros r0; destruct r0, r; reflexivity|].
        intros r0; split; intros; destruct r0, r; simpl in *; auto.
      - intros [= <-]. apply settled_say. }
    match goal with
    | |- bind ?m _ = _ -> _ => destruct m as [[] st3|e st3|] eqn:Hm
    end; simpl; try discriminate.
    assert (S3 : settled st2 st3).
    { apply Hitem. reflexivity. }
    assert (S03 : settled st st3).
    { eapply settled_trans; [exact S1|].
      eapply settled_trans; [exact S2|exact S3]. }
    destruct (aborted r st3) eqn:Hab.
    + intros [= <-]. split.
      * unfold finished, aborted. rewrite run_say.
        unfold aborted in Hab. rewrite Hab. reflexivity.
      * eapply settled_trans; [exact S03|apply settled_say].
    + destruct (nth cell (chainWasPulled (run r st3)) false) eqn:Hc3; simpl.
      * intros [= <-]. split; [|exact S03].
        destruct S3 as [_ C3]. destruct (C3 r cell Hc3) as [H|H]; [|exact H].
        unfold cell_set in H. congruence.
      * intros H. apply IH in H. destruct H as [Hf S4].
        split; [exact Hf|].
        eapply settled_trans; [exact S03|].
        eapply settled_trans; [apply settled_say|exact S4].
Qed.

(** A run of [startPullingChain] that returns leaves the run aborted or
    completed, and returns the abort flag. *)
Lemma startPullingChain_Ok fuel r c st b st' :
  startPullingChain fuel r c st = Ok b st' ->
  finished r st' = true /\ b = aborted r st'.
Proof.
  unfold startPullingChain.
  match goal with
  | |- try_catch (bind ?m _) _ = _ -> _ => destruct m as [[] st1|e st1|] eqn:Hm
  end; simpl; try discriminate.
  intros [= <- <-].
  apply pullChain_post in Hm. destruct Hm as [Hf _].
  split; [|destruct r; reflexivity].
  unfold finished, aborted, completed in *. rewrite !run_say. exact Hf.
Qed.

(** A run of [startPullingChain] that throws leaves the run aborted. *)
Lemma startPullingChain_Threw fuel r c st e st' :
  startPullingChain fuel r c st = Threw e st' -> aborted r st' = true.
Proof.
  unfold startPullingChain.
  match goal with
  | |- try_catch (bind ?m _) _ = _ -> _ => destruct m as [[] st1|e1 st1|] eqn:Hm
  end; simpl; try discriminate.
  intros [= <- <-]. destruct r; reflexivity.
Qed.

(** *** What a run writes to the log *)

Lemma trace_say ev st : trace (say ev st) = trace st ++ [ev].
Proof. reflexivity. Qed.

(** The log of [st] is [t0] followed by messages that satisfy [P]. *)
Definition emitted_since (t0 : list event) (P : event -> Prop) (st : state)
  : Prop :=
  exists t, trace st = t0 ++ t /\ Forall P t.

Lemma emitted_since_refl P st : emitted_since (trace st) P st.
Proof. exists []. split; [symmetry; apply app_nil_r|constructor]. Qed.

Lemma emitted_since_say t0 (P : event -> Prop) ev st :
  P ev -> emitted_since t0 P st -> emitted_since t0 P (say ev st).
Proof.
  intros Hev (t & Ht & HP). exists (t ++ [ev]). split.
  - rewrite trace_say, Ht, app_assoc. reflexivity.
  - apply Forall_app. split; [exact HP|repeat constructor; exact Hev].
Qed.

Lemma emitted_since_same t0 P st st' :
  trace st' = trace st -> emitted_since t0 P st -> emitted_since t0 P st'.
Proof. intros H (t & Ht & HP). exists t. rewrite H. auto. Qed.

Lemma emitted_since_weaken t0 (P Q : event -> Prop) st :
  (forall ev, P ev -> Q ev) -> emitted_since t0 P st -> emitted_since t0 Q st.
Proof.
  intros H (t & Ht & HP). exists t. split; [exact Ht|].
  eapply Forall_impl; eauto.
Qed.

Lemma emitted_since_trans t0 P st0 st :
  emitted_since t0 P st0 -> emitted_since (trace st0) P st ->
  emitted_since t0 P st.
Proof.
  intros (t1 & H1 & P1) (t2 & H2 & P2). exists (t1 ++ t2). split.
  - rewrite H2, H1, app_assoc. reflexivity.
  - apply Forall_app; auto.
Qed.

Lemma emitted_since_In t0 P st ev :
  emitted_since t0 P st -> In ev (trace st) -> In ev t0 \/ P ev.
Proof.
  intros (t & Ht & HP) Hin. rewrite Ht in Hin.
  apply in_app_or in Hin. destruct Hin as [H|H]; [left; exact H|right].
  rewrite List.Forall_forall in HP. apply HP, H.
Qed.

Lemma emitted_since_prefix t0 P st ev :
  emitted_since t0 P st -> In ev t0 -> In ev (trace st).
Proof. intros (t & Ht & _) Hin. rewrite Ht. apply in_or_app. auto. Qed.

(** The messages of a chain run. *)
Definition run_event (ev : event) : bool :=
  chatter ev || run_chatter ev ||
  match ev with
  | LDoneAborting _ | LReadError _ _ | LExecuting _ _ _ => true
  | _ => false
  end.

Definition primary_event (ev : event) : bool :=
  run_event ev || primary_chatter ev.

Definition error_event (ev : event) : bool :=
  run_event ev || error_chatter ev.

Section Emits.

Variable t0 : list event.
Variable P : event -> bool.
Hypothesis P_run : forall ev, run_event ev = true -> P ev = true.

Let J (st : state) : Prop := emitted_since t0 (fun ev => P ev = true) st.

Local Ltac class_step :=
  intros; apply P_run;
  match goal with
  | H : _ ?ev = true |- _ =>
      destruct ev; simpl in H |- *; solve [reflexivity | discriminate H]
  | |- _ => reflexivity
  end.

Local Ltac same_step :=
  eapply emitted_since_same; [|eassumption];
  repeat match goal with r : run_id |- _ => destruct r end;
  reflexivity.

Local Ltac step :=
  intros; subst J; cbv beta in *;
  first
    [ same_step
    | apply emitted_since_say; [class_step|]; first [assumption|same_step]
    | match goal with
      | |- emitted_since _ _ (upd_run ?r ?f (say ?ev ?st)) =>
          apply (emitted_since_same _ _ (say ev st));
          [destruct r; reflexivity
          |apply emitted_since_say; [class_step|assumption]]
      end ].

Lemma emits_pull fuel : preserving J any_action (pullChain fuel).
Proof. apply elem_pull; step. Qed.

Lemma emits_body fuel w body st :
  J st -> holds J (run_body (pullChain fuel) w body st).
Proof.
  intros HJ. apply holds_driver_inv with (allowed := any_action).
  apply elem_body; try solve [step].
  - apply any_body.
  - split; [exact HJ|apply any_chains].
Qed.

Lemma emits_send st : J st -> holds J (sendNotImplemented st).
Proof. apply elem_send; step. Qed.

Lemma emits_startPullingChain fuel r c st :
  J st -> holds J (startPullingChain fuel r c st).
Proof.
  intros HJ. apply holds_driver_inv with (allowed := any_action).
  apply elem_startPullingChain; try solve [step];
    try apply any_chain; try apply any_chains.
Qed.

End Emits.

(** ** The phases of one request *)

(** The run of the primary chain of a request. *)
Definition primary_chain_run (fuel : nat) (cfg : config) : result bool :=
  startPullingChain fuel Primary (use cfg)
    (say LSelectingFirstPrimary (say LBegin (initial cfg))).

(** The state in which the [catch] block starts its work: the failure is
    logged and stored in [runtime.error]. *)
Definition caught (error : jsval) (st : state) : state :=
  set_error error (say (LAttemptingToHandle error) st).

(** The run of the error handling chain after [error] was caught in
    [st]. *)
Definition error_chain_run (fuel : nat) (onError : list entry)
    (error : jsval) (st : state) : result bool :=
  startPullingChain fuel ErrorChain onError
    (say LSelectingFirstError (caught error st)).

(** The call of the terminal handler after the primary chain returned in
    [st]. *)
Definition handler_call (fuel : nat) (body : list action) (st : state)
  : result unit :=
  run_body (pullChain fuel) InHandler body (say LExecutingHandler st).

(** [options.callDoneOnEnd], as the [if] of [startPullingChain] reads it. *)
Definition callDoneOnEnd (st : state) : bool :=
  match ctx_options st !! "callDoneOnEnd" with
  | Some v => truthy v
  | None => false
  end.

(** The state in which [startPullingChain] makes its first call of
    [pullChain]. *)
Definition run_start (r : run_id) (c : list entry) (st : state) : state :=
  let st := set_run r (fresh_run c) st in
  if callDoneOnEnd st then
    say (LWillCallDoneOnEnd r) (set_res_end (r :: res_end st) st)
  else say (LWillNotCallDoneOnEnd r) st.

Lemma startPullingChain_unfold fuel r c st :
  startPullingChain fuel r c st =
    try_catch
      (let! _, st := pullChain fuel r (run_start r c st) in
       let st := say (LStopped r) st in
       let st :=
         say (LRanAtLeastOne r (ranAtLeastOneMiddleware (run r st))) st in
       Ok (aborted r st) st)
      (fun error st =>
         let st := upd_run r (with_aborted true) st in
         Threw error (say (LWarnAbortedDueToError r) st)).
Proof.
  unfold startPullingChain, run_start, callDoneOnEnd.
  destruct (ctx_options (set_run r (fresh_run c) st) !! "callDoneOnEnd")
    as [v|]; [destruct (truthy v)|]; reflexivity.
Qed.

(** The guarded block of the handler up to the check of the response: the
    primary chain and the terminal handler. *)
Definition chain_and_handler (fuel : nat) (pagesHandler : entry)
    (cfg : config) : result unit :=
  let! primaryChainWasAborted, st :=
    try_catch (primary_chain_run fuel cfg)
      (fun error st => Threw error (say LErrorInPrimary st)) in
  match pagesHandler with
  | Fn body =>
      if primaryChainWasAborted then Ok tt (say LNotExecutingHandler st)
      else
        let! _, st := handler_call fuel body st in
        Ok tt (say LFinishedHandler st)
  | NotFn => Ok tt (say LNoHandler st)
  end.

Lemma primaryPhase_unfold fuel pagesHandler cfg :
  primaryPhase fuel pagesHandler cfg (initial cfg) =
    let! _, st := chain_and_handler fuel pagesHandler cfg in
    let! _, st :=
      if negb (writableEnded st) && negb (headersSent st) then
        sendNotImplemented (say LSendingNotImplemented st)
      else Ok tt st in
    Ok tt (say LDone st).
Proof.
  unfold primaryPhase, chain_and_handler, primary_chain_run, handler_call.
  destruct (startPullingChain fuel Primary (use cfg) _) as [b st|e st|];
    simpl; try reflexivity.
Qed.

(** A failure of the primary chain or of the terminal handler: the value
    thrown and the state the [catch] block finds. *)
Definition primary_failure (fuel : nat) (pagesHandler : entry) (cfg : config)
    (e : jsval) (st : state) : Prop :=
  (exists st0, primary_chain_run fuel cfg = Threw e st0 /\
               st = say LErrorInPrimary st0) \/
  (exists st0 body, primary_chain_run fuel cfg = Ok false st0 /\
                    pagesHandler = Fn body /\
                    handler_call fuel body st0 = Threw e st).

Lemma primary_failure_phase fuel pagesHandler cfg e st :
  primary_failure fuel pagesHandler cfg e st ->
  primaryPhase fuel pagesHandler cfg (initial cfg) = Threw e st.
Proof.
  unfold primary_failure, primaryPhase, primary_chain_run, handler_call.
  intros [(st0 & H & ->)|(st0 & body & H & -> & Hb)]; rewrite H; simpl.
  - reflexivity.
  - rewrite Hb. reflexivity.
Qed.

Lemma withMiddleware_after_failure fuel pagesHandler cfg e st :
  primaryPhase fuel pagesHandler cfg (initial cfg) = Threw e st ->
  withMiddleware pagesHandler cfg fuel = errorPhase fuel cfg e st.
Proof. unfold withMiddleware. intros ->. reflexivity. Qed.

(** The [catch] block, case by case. *)
Lemma errorPhase_no_chain fuel cfg e st :
  useOnError cfg = None ->
  errorPhase fuel cfg e st =
    Threw e (say LDoneWithErrors
               (say LThrowingUnhandled (say LNoErrorHandlers (caught e st)))).
Proof. unfold errorPhase. intros ->. reflexivity. Qed.

Lemma errorPhase_chain_threw fuel cfg e st onError e' st' :
  useOnError cfg = Some onError ->
  error_chain_run fuel onError e st = Threw e' st' ->
  errorPhase fuel cfg e st =
    Threw e' (say LDoneWithErrors
                (say LThrowingUnhandled (say (LErrorInErrorChain e') st'))).
Proof.
  unfold errorPhase, error_chain_run, caught. intros -> H.
  rewrite H. reflexivity.
Qed.

Lemma errorPhase_chain_returned fuel cfg e st onError b st' :
  useOnError cfg = Some onError ->
  error_chain_run fuel onError e st = Ok b st' ->
  errorPhase fuel cfg e st =
    if negb (writableEnded st') && negb (headersSent st')
    then Threw e (say LDoneWithErrors (say LThrowingUnhandled st'))
    else Ok tt (say LDoneWithErrors st').
Proof.
  unfold errorPhase, error_chain_run, caught. intros -> H.
  rewrite H. simpl.
  destruct (negb (writableEnded st') && negb (headersSent st')); reflexivity.
Qed.

(** The log of the guarded block holds nothing but the messages of the
    primary run and of the block itself. *)
Lemma primaryPhase_emits fuel pagesHandler cfg st :
  holds (emitted_since (trace st) (fun ev => primary_event ev = true))
        (primaryPhase fuel pagesHandler cfg st).
Proof.
  set (P := fun ev => primary_event ev = true).
  assert (Hrun : forall ev, run_event ev = true -> primary_event ev = true).
  { intros ev H. unfold primary_event. rewrite H. reflexivity. }
  assert (Hsay : forall ev s, primary_chatter ev = true ->
            emitted_since (trace st) P s -> emitted_since (trace st) P (say ev s)).
  { intros ev s H. apply emitted_since_say. unfold P, primary_event.
    rewrite H. apply orb_true_r. }
  unfold primaryPhase. apply holds_bind.
  { pose proof (emits_startPullingChain (trace st) primary_event Hrun fuel
      Primary (use cfg) (say LSelectingFirstPrimary (say LBegin st))) as H.
    destruct (startPullingChain fuel Primary (use cfg) _) as [b s|e s|];
      simpl in H |- *; auto.
    - apply H. do 2 (apply Hsay; [reflexivity|]). apply emitted_since_refl.
    - apply Hsay; [reflexivity|]. apply H.
      do 2 (apply Hsay; [reflexivity|]). apply emitted_since_refl. }
  intros b s1 H1. apply holds_bind.
  { destruct pagesHandler as [body|]; [destruct b|]; simpl.
    - apply Hsay; auto.
    - apply holds_bind.
      + apply (emits_body (trace st) primary_event Hrun).
        apply Hsay; auto.
      + intros _ s2 H2. apply Hsay; auto.
    - apply Hsay; auto. }
  intros _ s2 H2. apply holds_bind.
  { destruct (negb (writableEnded s2) && negb (headersSent s2)); simpl; auto.
    apply (emits_send (trace st) primary_event Hrun). apply Hsay; auto. }
  intros _ s3 H3. apply Hsay; auto.
Qed.

(** ** Termination *)

(** What is left of a run: the items the iterator has not yielded, and the
    step that finds it exhausted. *)
Definition pending (rs : run_state) : nat :=
  length (chain rs) + (if executionCompleted rs then 0 else 1).

Definition work (st : state) : nat :=
  pending (primaryRun st) + pending (errorRun st).

Definition work_within (n : nat) (st : state) : Prop := work st <= n.

Ltac work_step :=
  unfold work_within; intros;
  match goal with
  | H : work _ <= _ |- work _ <= _ =>
      revert H; unfold work, pending;
      repeat match goal with r : run_id |- _ => destruct r end;
      simpl in *;
      repeat match goal with
      | H : chain _ = _ |- _ => rewrite H
      end;
      repeat match goal with
      | |- context [if ?b then _ else _] => destruct b
      end;
      simpl; lia
  end.

Lemma work_within_pull n fuel :
  preserving (work_within n) any_action (pullChain fuel).
Proof. apply elem_pull; work_step. Qed.

Lemma work_within_action n pull w a st :
  is_next a = false -> work_within n st ->
  holds (work_within n) (do_action pull w a st).
Proof. intros Hn. apply elem_action with (allowed := any_action); try work_step; auto; exact I. Qed.

Definition returns {A : Type} (m : result A) : Prop := m <> OutOfFuel.

Lemma wrapped_end_returns ws st : returns (wrapped_end ws st).
Proof.
  revert st. induction ws as [|r ws IH]; intros st; simpl; [discriminate|].
  specialize (IH st).
  destruct (wrapped_end ws st) as [[] s|e s|]; simpl;
    [|discriminate|contradiction].
  destruct (negb (response_sent st)); [|discriminate].
  destruct (negb (aborted r s) && negb (completed r s)); [|discriminate].
  unfold call_done. destruct (resolve _ _ _); discriminate.
Qed.

Section Total.

Variable fuel : nat.
Hypothesis pull_returns : forall r st,
  work st < fuel -> returns (pullChain fuel r st).

Lemma action_returns w a st :
  work st < fuel -> returns (do_action (pullChain fuel) w a st).
Proof.
  intros Hw. destruct a; simpl; try discriminate.
  - unfold call_next. destruct (resolve c (ctx_next st) st); try discriminate.
    unfold runtime_next.
    destruct (negb (completed r st)); [|discriminate].
    destruct (aborted r st); [discriminate|].
    apply pull_returns.
    replace (work (say (LNextManual r) _)) with (work st);
      [exact Hw|destruct r; reflexivity].
  - unfold call_done. destruct (resolve _ _ _); discriminate.
  - apply wrapped_end_returns.
Qed.

Lemma action_work w a st :
  holds (work_within (work st)) (do_action (pullChain fuel) w a st).
Proof.
  destruct (is_next a) eqn:Hn.
  - destruct a; try discriminate. simpl. unfold call_next.
    destruct (resolve c (ctx_next st) st); simpl; try apply Nat.le_refl.
    unfold runtime_next.
    destruct (negb (completed r st)); [|apply Nat.le_refl].
    destruct (aborted r st) eqn:Ha; [apply Nat.le_refl|].
    apply holds_driver_inv with (allowed := any_action).
    apply work_within_pull.
    + split; [|apply any_chains].
      unfold work_within. destruct r; apply Nat.le_refl.
    + destruct r; exact Ha.
  - apply work_within_action; [exact Hn|apply Nat.le_refl].
Qed.

Lemma run_body_returns w body st :
  work st < fuel -> returns (run_body (pullChain fuel) w body st).
Proof.
  revert st. induction body as [|a rest IH]; intros st Hw; simpl;
    [discriminate|].
  pose proof (action_returns w a st Hw) as Hr.
  pose proof (action_work w a st) as Hk.
  destruct (do_action (pullChain fuel) w a st) as [[] s|e s|]; simpl in *;
    [|discriminate|contradiction].
  apply IH. unfold work_within in Hk. lia.
Qed.

Lemma run_body_work w body st :
  holds (work_within (work st)) (run_body (pullChain fuel) w body st).
Proof.
  apply holds_driver_inv with (allowed := any_action).
  apply elem_body; try work_step.
  - apply any_body.
  - split; [apply Nat.le_refl|apply any_chains].
Qed.

End Total.

Theorem pullChain_returns fuel : forall r st,
  work st < fuel -> returns (pullChain fuel r st).
Proof.
  induction fuel as [|fuel IH]; intros r st Hw; [lia|].
  rewrite pullChain_S. cbv zeta.
  set (st1 := upd_run r _ st).
  assert (Hw1 : work st1 = work st) by (destruct r; reflexivity).
  clearbody st1. unfold chain_next.
  destruct (chain (run r st1)) as [|item rest] eqn:Hchain; [discriminate|].
  set (st2 := bind_controls _ (upd_run r _ st1)).
  assert (Hw2 : work st2 < fuel).
  { assert (S (work st2) = work st1); [|lia].
    unfold st2, work, pending. destruct r; simpl in *; rewrite Hchain;
      simpl; lia. }
  clearbody st2.
  assert (Hitem : forall m : result unit,
    m = (let! _, st :=
           match item with
           | Fn body =>
               let! _, st := run_body (pullChain fuel)
                               (InMiddleware r (yielded (run r st1))) body
                               (say (LExecuting r (yielded (run r st1))
                                       (ctx_error st2)) st2) in
               Ok tt (upd_run r (with_ran true) st)
           | NotFn => Ok tt (say (LWarnSkippingNonFunction r) st2)
           end in Ok tt st) ->
    returns m /\ holds (fun s => work s < fuel) m).
  { intros m ->. destruct item as [body|]; simpl.
    - pose proof (run_body_returns fuel IH (InMiddleware r (yielded (run r st1)))
                    body (say (LExecuting r (yielded (run r st1))
                                 (ctx_error st2)) st2)) as Hr.
      pose proof (run_body_work fuel (InMiddleware r (yielded (run r st1)))
                    body (say (LExecuting r (yielded (run r st1))
                                 (ctx_error st2)) st2)) as Hk.
      assert (Hws : work (say (LExecuting r (yielded (run r st1))
                                 (ctx_error st2)) st2) = work st2)
        by reflexivity.
      rewrite Hws in Hr, Hk. specialize (Hr Hw2).
      destruct (run_body (pullChain fuel) _ body _) as [[] s|e s|];
        simpl in *; unfold work_within in *.
      + split; [discriminate|].
        replace (work (upd_run r (with_ran true) s)) with (work s);
          [lia|destruct r; reflexivity].
      + split; [discriminate|lia].
      + contradiction.
    - split; [discriminate|exact Hw2]. }
  match goal with
  | |- returns (bind ?m _) =>
      destruct (Hitem (bind m (fun _ s => Ok tt s))) as [Hr Hk];
      [reflexivity|]; destruct m as [[] st3|e st3|]
  end; simpl in *; try discriminate; [|contradiction].
  destruct (aborted r st3); [discriminate|].
  destruct (negb (nth _ _ false)); [|discriminate].
  apply IH. exact Hk.
Qed.

Lemma startPullingChain_returns fuel r c st :
  work (set_run r (fresh_run c) st) < fuel ->
  returns (startPullingChain fuel r c st).
Proof.
  intros Hw. rewrite startPullingChain_unfold.
  assert (Hs : work (run_start r c st) = work (set_run r (fresh_run c) st)).
  { unfold run_start. destruct (callDoneOnEnd _); destruct r; reflexivity. }
  pose proof (pullChain_returns fuel r (run_start r c st)) as H.
  rewrite Hs in H. specialize (H Hw).
  destruct (pullChain fuel r (run_start r c st)) as [[] s|e s|]; simpl;
    [discriminate|discriminate|contradiction].
Qed.

Lemma startPullingChain_work n fuel r c st :
  work_within n (set_run r (fresh_run c) st) ->
  holds (work_within n) (startPullingChain fuel r c st).
Proof.
  intros Hw. apply holds_driver_inv with (allowed := any_action).
  apply elem_startPullingChain; try work_step;
    try apply any_chain; try apply any_chains.
  exact Hw.
Qed.

(** A fuel that is enough for every request with configuration [cfg]. *)
Definition enough (cfg : config) : nat :=
  length (use cfg) + length (default [] (useOnError cfg)) + 4.

Lemma primaryPhase_returns fuel pagesHandler cfg :
  length (use cfg) + 2 < fuel ->
  returns (primaryPhase fuel pagesHandler cfg (initial cfg)) /\
  holds (work_within (length (use cfg) + 2))
        (primaryPhase fuel pagesHandler cfg (initial cfg)).
Proof.
  intros Hf.
  set (n := length (use cfg) + 2).
  assert (H0 : work (set_run Primary (fresh_run (use cfg))
                       (say LSelectingFirstPrimary (say LBegin (initial cfg))))
               = n).
  { unfold work, pending, n. simpl. lia. }
  split.
  - rewrite primaryPhase_unfold. unfold chain_and_handler, primary_chain_run.
    pose proof (startPullingChain_returns fuel Primary (use cfg)
                  (say LSelectingFirstPrimary (say LBegin (initial cfg)))) as Hr.
    pose proof (startPullingChain_work n fuel Primary (use cfg)
                  (say LSelectingFirstPrimary (say LBegin (initial cfg)))) as Hk.
    rewrite H0 in Hr. specialize (Hr Hf).
    unfold work_within at 1 in Hk. rewrite H0 in Hk.
    specialize (Hk (Nat.le_refl _)).
    destruct (startPullingChain fuel Primary (use cfg) _) as [b st1|e st1|];
      cbn [bind try_catch holds] in *; [|discriminate|contradiction].
    assert (Htail : forall st, returns
              (let! _, st :=
                 if negb (writableEnded st) && negb (headersSent st) then
                   sendNotImplemented (say LSendingNotImplemented st)
                 else Ok tt st in
               Ok tt (say LDone st))).
    { intros st. destruct (negb (writableEnded st) && negb (headersSent st));
        [|discriminate].
      pose proof (wrapped_end_returns
                    (res_end (set_status 501 (say LSendingNotImplemented st)))
                    (set_status 501 (say LSendingNotImplemented st))) as Hs.
      unfold sendNotImplemented, call_res_end.
      destruct (wrapped_end _ _) as [[] s|e s|]; simpl;
        [discriminate|discriminate|contradiction]. }
    destruct pagesHandler as [body|]; [destruct b|];
      cbn [bind]; try apply Htail.
    unfold handler_call.
    pose proof (run_body_returns fuel (pullChain_returns fuel)
                  InHandler body (say LExecutingHandler st1)) as Hb.
    assert (Hw1 : work (say LExecutingHandler st1) < fuel).
    { unfold work_within in Hk.
      replace (work (say LExecutingHandler st1)) with (work st1)
        by reflexivity. unfold n in Hk. lia. }
    specialize (Hb Hw1).
    destruct (run_body (pullChain fuel) InHandler body _) as [[] s|e s|];
      cbn [bind]; [apply Htail|discriminate|contradiction].
  - apply holds_driver_inv with (allowed := any_action).
    apply elem_primaryPhase; try work_step;
      try apply any_chain; try apply any_chains; try apply any_entry.
    unfold work_within. rewrite H0. apply Nat.le_refl.
Qed.

Lemma errorPhase_returns fuel cfg e st :
  work st + length (default [] (useOnError cfg)) + 1 < fuel ->
  returns (errorPhase fuel cfg e st).
Proof.
  intros Hf. destruct (useOnError cfg) as [onError|] eqn:Hue.
  - pose proof (startPullingChain_returns fuel ErrorChain onError
                  (say LSelectingFirstError (caught e st))) as Hr.
    assert (Hw : work (set_run ErrorChain (fresh_run onError)
                         (say LSelectingFirstError (caught e st))) < fuel).
    { simpl in Hf. unfold work, pending in *. simpl.
      destruct (executionCompleted (errorRun st)); lia. }
    specialize (Hr Hw). fold (error_chain_run fuel onError e st) in Hr.
    destruct (error_chain_run fuel onError e st) as [b s|e' s|] eqn:Hrun.
    + rewrite (errorPhase_chain_returned _ _ _ _ _ _ _ Hue Hrun).
      destruct (negb (writableEnded s) && negb (headersSent s)); discriminate.
    + rewrite (errorPhase_chain_threw _ _ _ _ _ _ _ Hue Hrun). discriminate.
    + contradiction.
  - rewrite (errorPhase_no_chain _ _ _ _ Hue). discriminate.
Qed.

(** With enough fuel a request always comes to an end: the handler
    returns or throws. *)
Theorem run_total pagesHandler cfg fuel :
  enough cfg <= fuel -> returns (withMiddleware pagesHandler cfg fuel).
Proof.
  unfold enough. intros Hf.
  destruct (primaryPhase_returns fuel pagesHandler cfg) as [Hr Hk]; [lia|].
  unfold withMiddleware.
  destruct (primaryPhase fuel pagesHandler cfg (initial cfg))
    as [[] s|e s|]; simpl in *; [discriminate| |contradiction].
  apply errorPhase_returns. unfold work_within in Hk. lia.
Qed.

Lemma primary_chain_run_returns fuel cfg :
  length (use cfg) + 2 < fuel -> returns (primary_chain_run fuel cfg).
Proof.
  intros Hf. apply startPullingChain_returns.
  unfold work, pending. simpl. lia.
Qed.

(** *** More fuel changes nothing *)

Lemma returns_bind {A B : Type} (m : result A) (k : A -> state -> result B) :
  returns (bind m k) -> returns m.
Proof.
  unfold returns. destruct m; simpl; intros H;
    [discriminate|discriminate|contradiction H; reflexivity].
Qed.

Section FuelStep.

Variable fuel : nat.
Hypothesis IH : forall r st,
  returns (pullChain fuel r st) -> pullChain (S fuel) r st = pullChain fuel r st.

Lemma action_fuel w a st :
  returns (do_action (pullChain fuel) w a st) ->
  do_action (pullChain (S fuel)) w a st = do_action (pullChain fuel) w a st.
Proof.
  destruct a; try reflexivity.
  cbn [do_action]. unfold call_next.
  destruct (resolve c (ctx_next st) st); try reflexivity.
  unfold runtime_next.
  destruct (negb (completed r st)); [|reflexivity].
  destruct (aborted r st); [reflexivity|].
  apply IH.
Qed.

Lemma run_body_fuel w body st :
  returns (run_body (pullChain fuel) w body st) ->
  run_body (pullChain (S fuel)) w body st = run_body (pullChain fuel) w body st.
Proof.
  revert st. induction body as [|a rest IHb]; intros st Hr; [reflexivity|].
  cbn [run_body] in *.
  rewrite (action_fuel w a st (returns_bind _ _ Hr)).
  destruct (do_action (pullChain fuel) w a st) as [[] s|e s|];
    cbn [bind] in *; try reflexivity.
  apply IHb, Hr.
Qed.

End FuelStep.

Theorem pullChain_fuel fuel : forall r st,
  returns (pullChain fuel r st) -> pullChain (S fuel) r st = pullChain fuel r st.
Proof.
  induction fuel as [|fuel IH]; intros r st Hr; [contradiction Hr; reflexivity|].
  rewrite (pullChain_S (S fuel)). rewrite (pullChain_S fuel) in Hr |- *.
  cbv zeta in *.
  destruct (chain_next r _) as [[item|] st1]; [|reflexivity].
  set (st2 := bind_controls _ st1) in *. clearbody st2.
  set (i := yielded _) in *. clearbody i.
  set (cell := length _) in *. clearbody cell.
  assert (Hitem :
    match item with
    | Fn body =>
        let! _, st := run_body (pullChain (S fuel)) (InMiddleware r i) body
                        (say (LExecuting r i (ctx_error st2)) st2) in
        Ok tt (upd_run r (with_ran true) st)
    | NotFn => Ok tt (say (LWarnSkippingNonFunction r) st2)
    end =
    match item with
    | Fn body =>
        let! _, st := run_body (pullChain fuel) (InMiddleware r i) body
                        (say (LExecuting r i (ctx_error st2)) st2) in
        Ok tt (upd_run r (with_ran true) st)
    | NotFn => Ok tt (say (LWarnSkippingNonFunction r) st2)
    end).
  { destruct item as [body|]; [|reflexivity].
    rewrite (run_body_fuel fuel IH); [reflexivity|].
    apply returns_bind in Hr. cbn [bind] in Hr.
    apply returns_bind in Hr. exact Hr. }
  rewrite Hitem.
  match goal with
  | |- bind ?m _ = _ => destruct m as [[] st3|e st3|]
  end; cbn [bind] in *; try reflexivity.
  destruct (aborted r st3); [reflexivity|].
  destruct (negb (nth cell (chainWasPulled (run r st3)) false));
    [|reflexivity].
  apply IH, Hr.
Qed.

Lemma startPullingChain_fuel fuel r c st :
  returns (startPullingChain fuel r c st) ->
  startPullingChain (S fuel) r c st = startPullingChain fuel r c st.
Proof.
  rewrite !startPullingChain_unfold. intros Hr.
  rewrite pullChain_fuel; [reflexivity|].
  destruct (pullChain fuel r (run_start r c st)); try discriminate.
  contradiction Hr; reflexivity.
Qed.

Lemma errorPhase_fuel fuel cfg e st :
  returns (errorPhase fuel cfg e st) ->
  errorPhase (S fuel) cfg e st = errorPhase fuel cfg e st.
Proof.
  unfold errorPhase. intros Hr.
  destruct (useOnError cfg) as [onError|]; [|reflexivity].
  rewrite startPullingChain_fuel; [reflexivity|].
  destruct (startPullingChain fuel ErrorChain onError _); try discriminate.
  contradiction Hr; reflexivity.
Qed.

(** The outcome of a request does not depend on the fuel, once there is
    enough of it for the request to end. *)
Theorem withMiddleware_fuel pagesHandler cfg fuel :
  returns (withMiddleware pagesHandler cfg fuel) ->
  withMiddleware pagesHandler cfg (S fuel) = withMiddleware pagesHandler cfg fuel.
Proof.
  unfold withMiddleware, primaryPhase. intros Hr.
  assert (H1 : returns (startPullingChain fuel Primary (use cfg)
                          (say LSelectingFirstPrimary (say LBegin (initial cfg))))).
  { destruct (startPullingChain fuel Primary (use cfg) _); try discriminate.
    contradiction Hr; reflexivity. }
  rewrite (startPullingChain_fuel _ _ _ _ H1).
  destruct (startPullingChain fuel Primary (use cfg) _) as [b st1|e st1|];
    cbn [bind try_catch] in *.
  - assert (Htail : forall m m' : result unit,
      m' = m ->
      returns (try_catch
                 (let! _, st := m in
                  let! _, st :=
                    if negb (writableEnded st) && negb (headersSent st) then
                      sendNotImplemented (say LSendingNotImplemented st)
                    else Ok tt st in
                  Ok tt (say LDone st))
                 (errorPhase fuel cfg)) ->
      try_catch
        (let! _, st := m' in
         let! _, st :=
           if negb (writableEnded st) && negb (headersSent st) then
             sendNotImplemented (say LSendingNotImplemented st)
           else Ok tt st in
         Ok tt (say LDone st))
        (errorPhase (S fuel) cfg) =
      try_catch
        (let! _, st := m in
         let! _, st :=
           if negb (writableEnded st) && negb (headersSent st) then
             sendNotImplemented (say LSendingNotImplemented st)
           else Ok tt st in
         Ok tt (say LDone st))
        (errorPhase fuel cfg)).
    { intros m m' -> Hm.
      destruct m as [[] s|e s|]; cbn [bind try_catch] in *;
        [|apply errorPhase_fuel, Hm|reflexivity].
      destruct (let! _, st :=
                  if negb (writableEnded s) && negb (headersSent s) then
                    sendNotImplemented (say LSendingNotImplemented s)
                  else Ok tt s in
                Ok tt (say LDone st)) as [[] s'|e s'|];
        cbn [try_catch] in *; try reflexivity.
      apply errorPhase_fuel, Hm. }
    apply Htail; [|exact Hr].
    destruct pagesHandler as [body|]; [destruct b|]; try reflexivity.
    rewrite (run_body_fuel fuel (pullChain_fuel fuel)); [reflexivity|].
    destruct (run_body (pullChain fuel) InHandler body _); try discriminate.
    contradiction Hr; reflexivity.
  - apply errorPhase_fuel, Hr.
  - reflexivity.
Qed.

Corollary withMiddleware_enough pagesHandler cfg extra :
  withMiddleware pagesHandler cfg (enough cfg + extra) =
  withMiddleware pagesHandler cfg (enough cfg).
Proof.
  induction extra as [|extra IH]; [rewrite Nat.add_0_r; reflexivity|].
  rewrite Nat.add_succ_r, withMiddleware_fuel; [exact IH|].
  apply run_total. lia.
Qed.

(** *** Claims about the propagation of failures *)


Definition bad : jsval := JError "bad".
Definition worse : jsval := JError "worse".

Definition cfg_of (u : list entry) (onError : option (list entry)) : config :=
  {| descriptor := Some "/fake"; use := u; useOnError := onError;
     options := None |}.

(** The state a computation ends in ([d] when the fuel ran out). *)
Definition state_of {A : Type} (m : result A) (d : state) : state :=
  match m with
  | Ok _ st => st
  | Threw _ st => st
  | OutOfFuel => d
  end.

(** A primary chain whose only middleware throws [bad]. *)
Definition throwing : list entry := [Fn [AThrow bad]].

Definition throwing_thrown : state :=
  Eval vm_compute in
    state_of (primary_chain_run 2 (cfg_of throwing None))
             (initial (cfg_of throwing None)).

Lemma throwing_fails pagesHandler onError :
  primary_failure 2 pagesHandler (cfg_of throwing onError) bad
    (say LErrorInPrimary throwing_thrown).
Proof. left. exists throwing_thrown. split; [|reflexivity]. vm_compute. reflexivity. Qed.



Definition worse_thrown : state :=
  Eval vm_compute in
    state_of (error_chain_run 2 [Fn [AThrow worse]] bad
                (say LErrorInPrimary throwing_thrown))
             throwing_thrown.


(** C5.  When a failure [e] of the primary chain or of the terminal handler
    sends execution to a supplied [useOnError] chain and that chain runs to
    its end without the response being finalized (headers not sent, body
    stream not ended), the handler built by [withMiddleware] throws the
    original [e] to its caller. *)
Theorem C5_unhandled_failure_propagates
    fuel pagesHandler cfg onError e st b st' :
  primary_failure fuel pagesHandler cfg e st ->
  useOnError cfg = Some onError ->
  error_chain_run fuel onError e st = Ok b st' ->
  writableEnded st' = false ->
  headersSent st' = false ->
  withMiddleware pagesHandler cfg fuel =
    Threw e (say LDoneWithErrors (say LThrowingUnhandled st')).
Proof.
  intros Hfail Hue Hrun Hw Hh. apply primary_failure_phase in Hfail.
  rewrite (withMiddleware_after_failure _ _ _ _ _ Hfail).
  rewrite (errorPhase_chain_returned _ _ _ _ _ _ _ Hue Hrun), Hw, Hh.
  reflexivity.
Qed.

Definition idle_returned : state :=
  Eval vm_compute in
    state_of (error_chain_run 2 [Fn []] bad
                (say LErrorInPrimary throwing_thrown))
             throwing_thrown.

(** The primary chain throws [bad], the only error handling middleware
    does nothing: the caller gets [bad]. *)
Lemma C5_witness :
  withMiddleware NotFn (cfg_of throwing (Some [Fn []])) 2 =
  Threw bad (say LDoneWithErrors (say LThrowingUnhandled idle_returned)).
Proof.
  apply (C5_unhandled_failure_propagates 2 NotFn
           (cfg_of throwing (Some [Fn []])) [Fn []] bad
           (say LErrorInPrimary throwing_thrown) false idle_returned).
  - apply throwing_fails.
  - reflexivity.
  - vm_compute. reflexivity.
  - reflexivity.
  - reflexivity.
Defined.

(** *** Claims about the control functions *)

Lemma runtime_done_finished r st : finished r (runtime_done r st) = true.
Proof.
  unfold runtime_done, finished.
  destruct (completed r st) eqn:Hc; simpl.
  - unfold completed in *. rewrite run_say, Hc. apply orb_true_r.
  - destruct (aborted r st) eqn:Ha; simpl.
    + unfold aborted in *. rewrite run_say, Ha. reflexivity.
    + unfold aborted. rewrite run_upd_run_same. reflexivity.
Qed.

Lemma runtime_done_when_over r st :
  finished r st = true ->
  runtime_done r st =
    say (if completed r st then LWarnDoneFinished r else LWarnDoneAborted r) st.
Proof.
  unfold finished, runtime_done. intros H.
  destruct (completed r st); simpl; [reflexivity|].
  rewrite orb_false_r in H. rewrite H. reflexivity.
Qed.


(** A run that has completed: the primary run of an empty chain. *)
Definition completed_state : state :=
  Eval vm_compute in
    state_of (primary_chain_run 1 (cfg_of [] None)) (initial (cfg_of [] None)).


(** The same calls made through the context: the call does not throw. *)
Lemma controls_after_completion_return pull w r cell st :
  completed r st = true ->
  ctx_next st = Some (r, cell) -> ctx_done st = Some (r, cell) ->
  do_action pull w (ACallDone Current) st =
    Ok tt (say (LWarnDoneFinished r) st) /\
  do_action pull w (ACallNext Current) st =
    Ok tt (say (LWarnNextFinished r) st).
Proof.
  intros Hc Hn Hd. simpl. unfold call_done, call_next. simpl.
  rewrite Hn, Hd. unfold runtime_done, runtime_next. rewrite Hc.
  split; reflexivity.
Qed.

(** *** The factory *)

(** Messages that no chain run and no guarded block emits. *)
Lemma primaryPhase_silent fuel pagesHandler cfg ev :
  primary_event ev = false ->
  holds (fun st => ~ In ev (trace st))
        (primaryPhase fuel pagesHandler cfg (initial cfg)).
Proof.
  intros Hev.
  eapply holds_impl; [|apply primaryPhase_emits].
  intros st Hem Hin. simpl in Hem.
  destruct (emitted_since_In _ _ _ _ Hem Hin) as [[]|H]. congruence.
Qed.

Lemma In_say ev ev' st :
  In ev (trace (say ev' st)) <-> In ev (trace st) \/ ev = ev'.
Proof.
  rewrite trace_say, in_app_iff. simpl. intuition congruence.
Qed.

(** The messages of the error handling run and of what precedes it in the
    [catch] block. *)
Definition error_run_event (ev : event) : bool :=
  run_event ev ||
  match ev with
  | LAttemptingToHandle _ | LSelectingFirstError => true
  | _ => false
  end.

Lemma error_chain_run_log fuel onError e st :
  holds (fun st' =>
           emitted_since (trace st) (fun ev => error_run_event ev = true) st' /\
           In LSelectingFirstError (trace st'))
        (error_chain_run fuel onError e st).
Proof.
  unfold error_chain_run, caught.
  set (st0 := say LSelectingFirstError _).
  assert (H0 : emitted_since (trace st) (fun ev => error_run_event ev = true) st0).
  { apply emitted_since_say; [reflexivity|].
    eapply emitted_since_same with (st := say (LAttemptingToHandle e) st);
      [reflexivity|].
    apply emitted_since_say; [reflexivity|]. apply emitted_since_refl. }
  assert (H1 : holds (emitted_since (trace st)
                        (fun ev => error_run_event ev = true))
                 (startPullingChain fuel ErrorChain onError st0)).
  { apply (emits_startPullingChain (trace st) error_run_event); [|exact H0].
    intros ev H. unfold error_run_event. rewrite H. reflexivity. }
  assert (H2 : holds (emitted_since (trace st0) (fun ev => run_event ev = true))
                 (startPullingChain fuel ErrorChain onError st0)).
  { apply (emits_startPullingChain (trace st0) run_event); auto.
    apply emitted_since_refl. }
  assert (Hin : In LSelectingFirstError (trace st0)).
  { apply In_say. auto. }
  clearbody st0.
  destruct (startPullingChain fuel ErrorChain onError st0);
    simpl in H1, H2 |- *; auto;
    (split; [assumption|]);
    eapply emitted_since_prefix; eauto.
Qed.

Lemma errorPhase_chain_fuel fuel cfg e st onError :
  useOnError cfg = Some onError ->
  error_chain_run fuel onError e st = OutOfFuel ->
  errorPhase fuel cfg e st = OutOfFuel.
Proof.
  unfold errorPhase, error_chain_run, caught. intros -> H.
  rewrite H. reflexivity.
Qed.


(** A preset without [useOnError], parameters without additions: the
    error handling chain is the empty array, and a failure of the primary
    chain is thrown by the branch for unhandled failures. *)
Definition throwing_preset : preset :=
  {| defaultUse := throwing; defaultUseOnError := None;
     defaultOptions := None |}.

Definition plain_params : params :=
  {| p_descriptor := Some "/fake"; prependUse := None; appendUse := None;
     prependUseOnError := None; appendUseOnError := None;
     passedOptions := None |}.

Definition factory_thrown : state :=
  Eval vm_compute in
    state_of (primary_chain_run 2 (factory_config throwing_preset plain_params))
             (initial (factory_config throwing_preset plain_params)).

Definition factory_returned : state :=
  Eval vm_compute in
    state_of (error_chain_run 2 [] bad (say LErrorInPrimary factory_thrown))
             factory_thrown.


(** *** The options of the context *)

(** The actions that leave [context.options] as it is. *)
Definition reads_options_only (a : action) : bool :=
  match a with
  | ASetOption _ _ | ADeleteOption _ => false
  | _ => true
  end.

Definition read_only (e : entry) : Prop :=
  entry_allowed (fun a => reads_options_only a = true) e.

(** A middleware that writes to the options, then fails; the error
    handling chain ends the response in its first middleware. *)
Definition cfg_writing : config :=
  cfg_of [Fn [ASetOption "callDoneOnEnd" (JBool false);
              ASetOption "extra" (JStr "added");
              AThrow bad]]
         (Some [Fn [AEnd]; Fn []]).

Definition writing_final : state :=
  Eval vm_compute in
    state_of (withMiddleware NotFn cfg_writing 3) (initial cfg_writing).

(** C9, as stated, fails: [context.options] is an ordinary object literal
    and nothing freezes it.  The first middleware below changes
    [callDoneOnEnd] from [true] to [false] and adds a property while the
    chain is executing; both writes are there at the end of the request,
    and the error handling run, which reads [options.callDoneOnEnd] when it
    starts, sees the new value: it does not wrap [res.end], and its second
    middleware runs although the first one ended the response. *)
Lemma C9_counterexample :
  ctx_options (initial cfg_writing) !! "callDoneOnEnd" = Some (JBool true) /\
  ctx_options (initial cfg_writing) !! "extra" = None /\
  withMiddleware NotFn cfg_writing 3 = Ok tt writing_final /\
  ctx_options writing_final !! "callDoneOnEnd" = Some (JBool false) /\
  ctx_options writing_final !! "extra" = Some (JStr "added") /\
  In (LWillNotCallDoneOnEnd ErrorChain) (trace writing_final) /\
  In (LExecuting ErrorChain 1 bad) (trace writing_final).
Proof.
  repeat split; try (vm_compute; reflexivity);
    vm_compute; repeat (try (left; reflexivity); right).
Qed.

(** C9, amended.  The options of the context are built once per request as
    [{ callDoneOnEnd: true, ...options }], and the runtime itself never
    adds, removes or changes a property: when no middleware and no handler
    writes to [context.options], the object holds that same value when the
    request is over, however the request went.  (With [enough] fuel the
    request does come to its end.) *)
Theorem C9_options_change_only_by_callback_writes fuel pagesHandler cfg :
  Forall read_only (use cfg) ->
  read_only pagesHandler ->
  (forall onError, useOnError cfg = Some onError -> Forall read_only onError) ->
  holds (fun st => ctx_options st = context_options (options cfg))
        (withMiddleware pagesHandler cfg fuel) /\
  (enough cfg <= fuel -> returns (withMiddleware pagesHandler cfg fuel)).
Proof.
  intros Hu Hh Hue. split; [|apply run_total].
  apply elem_withMiddleware
    with (allowed := fun a => reads_options_only a = true);
    try assumption; try solve [elementary]; try discriminate.
Qed.

(** A request whose callbacks only read: the first middleware pulls the
    second one, which reads [runtime.error]; the handler sends the
    response. *)
Definition cfg_reading : config :=
  cfg_of [Fn [ACallNext Current]; Fn [AReadError]] None.

Definition reading_final : state :=
  Eval vm_compute in
    state_of (withMiddleware (Fn [AStatus 200; AEnd]) cfg_reading 4)
             (initial cfg_reading).

Lemma C9_witness :
  withMiddleware (Fn [AStatus 200; AEnd]) cfg_reading 4 = Ok tt reading_final /\
  ctx_options reading_final = context_options None.
Proof.
  assert (Hrun : withMiddleware (Fn [AStatus 200; AEnd]) cfg_reading 4
                 = Ok tt reading_final) by (vm_compute; reflexivity).
  split; [exact Hrun|].
  assert (H : holds (fun st => ctx_options st = context_options None)
                (withMiddleware (Fn [AStatus 200; AEnd]) cfg_reading 4)).
  { apply (C9_options_change_only_by_callback_writes 4
             (Fn [AStatus 200; AEnd]) cfg_reading).
    - repeat constructor.
    - repeat constructor.
    - discriminate. }
  rewrite Hrun in H. exact H.
Defined.

(** *** [res.end] and [runtime.done] *)

(** What a call of the wrapped [end] amounts to when no wrapper calls
    [done]: the host's [end], and one notice per wrapper if the response
    was not sent before. *)
Fixpoint skipped_end (wrappers : list run_id) (st : state) : state :=
  match wrappers with
  | [] => host_end st
  | r :: send =>
      if negb (response_sent st)
      then say (LSkippedDoneAfterEnd r) (skipped_end send st)
      else skipped_end send st
  end.

Lemma skipped_end_run ws st r : run r (skipped_end ws st) = run r st.
Proof.
  induction ws as [|r0 ws IH]; simpl.
  - destruct r; reflexivity.
  - destruct (negb (response_sent st)); rewrite ?run_say; exact IH.
Qed.

Lemma skipped_end_fields ws st :
  writableEnded (skipped_end ws st) = true /\
  headersSent (skipped_end ws st) = true /\
  statusCode (skipped_end ws st) = statusCode st /\
  res_end (skipped_end ws st) = res_end st /\
  ctx_options (skipped_end ws st) = ctx_options st /\
  ctx_error (skipped_end ws st) = ctx_error st /\
  ctx_done (skipped_end ws st) = ctx_done st.
Proof.
  induction ws as [|r0 ws IH]; simpl.
  - repeat split.
  - destruct (negb (response_sent st)); simpl; exact IH.
Qed.

Lemma wrapped_end_when_over ws st :
  Forall (fun r => finished r st = true) ws ->
  wrapped_end ws st = Ok tt (skipped_end ws st).
Proof.
  induction 1 as [|r ws Hr Hws IH]; simpl; [reflexivity|].
  rewrite IH. simpl.
  destruct (response_sent st); simpl; [reflexivity|].
  unfold finished, aborted, completed in *.
  rewrite !skipped_end_run.
  destruct (executionWasAborted (run r st)),
           (executionCompleted (run r st)); simpl in *;
    try discriminate; reflexivity.
Qed.

(** When the response was sent already, no wrapper calls [done] either. *)
Lemma wrapped_end_when_sent ws st :
  response_sent st = true ->
  wrapped_end ws st = Ok tt (skipped_end ws st).
Proof.
  intros Hs. induction ws as [|r ws IH]; simpl; [reflexivity|].
  rewrite IH, Hs. reflexivity.
Qed.

Lemma runtime_done_running r st :
  completed r st = false ->
  aborted r (runtime_done r st) = true /\
  completed r (runtime_done r st) = false /\
  writableEnded (runtime_done r st) = writableEnded st /\
  ctx_done (runtime_done r st) = ctx_done st /\
  (forall ev, In ev (trace st) -> In ev (trace (runtime_done r st))) /\
  (aborted r st = false -> In (LDoneAborting r) (trace (runtime_done r st))).
Proof.
  intros Hc. unfold runtime_done. rewrite Hc. simpl.
  destruct (aborted r st) eqn:Ha; simpl.
  - repeat split; try (destruct r; assumption); try discriminate.
    intros ev H. rewrite in_app_iff. auto.
  - repeat split; try (destruct r; assumption || reflexivity).
    + intros ev H. destruct r; simpl; rewrite in_app_iff; auto.
    + intros _. destruct r; simpl; rewrite in_app_iff; simpl; auto.
Qed.

(** A wrapper whose run is still going calls [done]: the run is aborted. *)
Lemma wrapped_end_aborts ws st r cell :
  In r ws -> ctx_done st = Some (r, cell) -> response_sent st = false ->
  finished r st = false ->
  exists st',
    wrapped_end ws st = Ok tt st' /\ aborted r st' = true /\
    writableEnded st' = true /\ In (LDoneAborting r) (trace st').
Proof.
  intros Hin Hd Hs Hf.
  apply orb_false_iff in Hf. destruct Hf as [Ha Hc].
  assert (Hgen : forall ws,
    exists st', wrapped_end ws st = Ok tt st' /\
      writableEnded st' = true /\ ctx_done st' = Some (r, cell) /\
      completed r st' = false /\
      (aborted r st' = true -> In (LDoneAborting r) (trace st')) /\
      (In r ws -> aborted r st' = true)).
  { clear ws Hin. induction ws as [|r0 ws IH]; simpl.
    - eexists. split; [reflexivity|].
      repeat split; try (destruct r; assumption).
      + intros H. unfold aborted in *. destruct r; simpl in *; congruence.
      + intros [].
    - destruct IH as (st1 & -> & Hw & Hd1 & Hc1 & Hlog & Hin).
      simpl. rewrite Hs. simpl.
      destruct (negb (aborted r0 st1) && negb (completed r0 st1)) eqn:Hrun.
      + unfold call_done. simpl. rewrite Hd1.
        eexists. split; [reflexivity|].
        set (st2 := say (LCallingDoneAfterEnd r0) st1).
        assert (Hc2 : completed r st2 = false) by (destruct r; exact Hc1).
        destruct (runtime_done_running r st2 Hc2)
          as (R1 & R2 & R3 & R4 & R5 & R6).
        repeat split; auto.
        * rewrite R3. exact Hw.
        * rewrite R4. exact Hd1.
        * intros _. destruct (aborted r st2) eqn:Ha2; [|auto].
          apply R5. unfold st2. apply In_say. left. apply Hlog.
          destruct r; exact Ha2.
      + eexists. split; [reflexivity|].
        repeat split; try (destruct r; assumption).
        * intros H. apply In_say. left. apply Hlog. destruct r; exact H.
        * intros [->|H]; [|apply Hin in H; destruct r; exact H].
          rewrite Hc1 in Hrun. simpl in Hrun. rewrite andb_true_r in Hrun.
          apply negb_false_iff in Hrun. destruct r; exact Hrun. }
  destruct (Hgen ws) as (st' & H1 & H2 & H3 & H4 & H5 & H6).
  exists st'. repeat split; auto.
Qed.

Lemma callDoneOnEnd_set_run r rs st :
  callDoneOnEnd (set_run r rs st) = callDoneOnEnd st.
Proof. destruct r; reflexivity. Qed.

Lemma res_end_run_start r c st :
  res_end (run_start r c st) =
    if callDoneOnEnd st then r :: res_end st else res_end st.
Proof.
  unfold run_start. rewrite callDoneOnEnd_set_run.
  destruct (callDoneOnEnd st); destruct r; reflexivity.
Qed.

(** The actions that are not a call of [done]. *)
Definition no_done (a : action) : Prop :=
  match a with ACallDone _ => False | _ => True end.

(** Run [r] is not aborted, and the runs whose wrappers sit around
    [res.end] are over. *)
Definition unwrapped (r : run_id) (st : state) : Prop :=
  aborted r st = false /\ Forall (fun r' => finished r' st = true) (res_end st).

Lemma unwrapped_keep r st st' :
  aborted r st' = aborted r st ->
  res_end st' = res_end st ->
  (forall r', finished r' st = true -> finished r' st' = true) ->
  unwrapped r st -> unwrapped r st'.
Proof.
  intros Ha Hr Hf [H1 H2]. split; [congruence|].
  rewrite Hr. eapply List.Forall_impl; [|exact H2]. exact Hf.
Qed.

Ltac unwrapped_step :=
  intros;
  match goal with
  | H : unwrapped _ _ |- unwrapped _ _ =>
      revert H; apply unwrapped_keep;
      [ repeat match goal with r : run_id |- _ => destruct r end; reflexivity
      | repeat match goal with r : run_id |- _ => destruct r end; reflexivity
      | let r' := fresh "r" in
        intros r'; unfold finished, aborted, completed;
        repeat match goal with r : run_id |- _ => destruct r end;
        simpl; rewrite ?orb_true_r; auto ]
  end.

Lemma unwrapped_action r pull w a st :
  no_done a -> is_next a = false -> unwrapped r st ->
  holds (unwrapped r) (do_action pull w a st).
Proof.
  intros Hnd Hn HJ.
  destruct a; simpl in *; try discriminate; try contradiction;
    try solve [unwrapped_step].
  unfold call_res_end. destruct HJ as [H1 H2].
  rewrite (wrapped_end_when_over _ _ H2). simpl. split.
  - unfold aborted. rewrite skipped_end_run. exact H1.
  - destruct (skipped_end_fields (res_end st) st) as (_ & _ & _ & -> & _).
    eapply List.Forall_impl; [|exact H2].
    intros r'. unfold finished, aborted, completed.
    rewrite skipped_end_run. auto.
Qed.

Lemma unwrapped_pull r fuel : preserving (unwrapped r) no_done (pullChain fuel).
Proof.
  apply driver_pullChain; try solve [unwrapped_step].
  apply unwrapped_action.
Qed.

(** A run that does not wrap [res.end] and whose middleware never call
    [done] is not aborted when it returns: it has completed. *)
Lemma unwrapped_run_completes fuel r c st b st' :
  callDoneOnEnd st = false ->
  Forall (fun r' => finished r' st = true /\ r' <> r) (res_end st) ->
  Forall (entry_allowed no_done) c ->
  chains_allowed no_done st ->
  startPullingChain fuel r c st = Ok b st' ->
  b = false /\ completed r st' = true /\ res_end st' = res_end st.
Proof.
  intros Hopt Hws Hc Hst Hrun.
  rewrite startPullingChain_unfold in Hrun.
  assert (H0 : driver_inv (unwrapped r) no_done (run_start r c st)).
  { unfold run_start. rewrite callDoneOnEnd_set_run, Hopt. split.
    - split.
      + unfold aborted. rewrite run_say, run_set_run, decide_True; reflexivity.
      + assert (E : res_end (say (LWillNotCallDoneOnEnd r)
                               (set_run r (fresh_run c) st)) = res_end st)
          by (destruct r; reflexivity).
        rewrite E. eapply List.Forall_impl; [|exact Hws].
        intros r' [H1 H2]. unfold finished, aborted, completed in *.
        rewrite run_say, run_set_run, decide_False by exact H2. exact H1.
    - eapply chains_allowed_keep with (st := set_run r (fresh_run c) st);
        [intros r'; apply f_equal, run_say|].
      apply chains_allowed_fresh; assumption. }
  assert (Hab0 : aborted r (run_start r c st) = false) by apply H0.
  assert (Hre : res_end (run_start r c st) = res_end st).
  { rewrite res_end_run_start, Hopt. reflexivity. }
  pose proof (unwrapped_pull r fuel r _ H0 Hab0) as HJ.
  pose proof (pullChain_untouched fuel r _ Hab0) as HU.
  destruct (pullChain fuel r (run_start r c st)) as [[] st1|e st1|] eqn:Hp;
    simpl in Hrun, HJ, HU; try discriminate.
  injection Hrun as Hb Hst'. subst b st'.
  apply pullChain_post in Hp. destruct Hp as [Hfin _].
  destruct HJ as [[Ha1 _] _]. destruct HU as (_ & _ & Hr1).
  unfold finished, aborted, completed in *. rewrite !run_say.
  rewrite Ha1 in Hfin. simpl in Hfin.
  repeat split; try assumption. simpl. congruence.
Qed.

(** A middleware that streams: it writes a chunk, then ends the body. *)
Definition cfg_streaming : config := cfg_of [Fn [AWrite; AEnd]; Fn []] None.

Definition streaming_final : state :=
  Eval vm_compute in
    state_of (withMiddleware (Fn []) cfg_streaming 3) (initial cfg_streaming).

(** A middleware that ends the response and then throws, and an error
    handling chain whose first middleware calls [res.end] again. *)
Definition cfg_ending_twice : config :=
  cfg_of [Fn [AEnd; AThrow bad]] (Some [Fn [AEnd]; Fn []]).

Definition ending_twice_final : state :=
  Eval vm_compute in
    state_of (withMiddleware (Fn []) cfg_ending_twice 3)
             (initial cfg_ending_twice).



(** The state in which the first middleware of a chain is about to run,
    with [callDoneOnEnd] at its default: the run has started, the first
    item was pulled and the control functions were bound. *)
Definition before_first_action : state :=
  Eval vm_compute in
    let st := run_start Primary [Fn [AEnd]]
                (say LSelectingFirstPrimary
                   (say LBegin (initial (cfg_of [Fn [AEnd]] None)))) in
    let st := upd_run Primary
                (fun rs => with_cells (chainWasPulled rs ++ [false]) rs) st in
    let st := bind_controls (Primary, 0) (snd (chain_next Primary st)) in
    say (LExecuting Primary 0 (ctx_error st)) st.

(** A request with [callDoneOnEnd: false] whose first middleware ends the
    response. *)
Definition cfg_unwrapped : config :=
  {| descriptor := Some "/fake";
     use := [Fn [AStatus 404; AEnd]; Fn []];
     useOnError := None;
     options := Some {[ "callDoneOnEnd" := JBool false ]} |}.

Definition unwrapped_returned : state :=
  Eval vm_compute in
    state_of (primary_chain_run 3 cfg_unwrapped) (initial cfg_unwrapped).


(** *** The default response *)

(** After the primary chain has returned, the only wrapper around
    [res.end] is the one of the primary run, and that run is over. *)
Definition primary_over (st : state) : Prop :=
  finished Primary st = true /\
  Forall (fun r => r = Primary) (res_end st).

Lemma primary_chain_run_over fuel cfg b st :
  primary_chain_run fuel cfg = Ok b st -> primary_over st.
Proof.
  unfold primary_chain_run. intros Hrun.
  destruct (startPullingChain_Ok _ _ _ _ _ _ Hrun) as [Hfin _].
  split; [exact Hfin|].
  rewrite startPullingChain_unfold in Hrun.
  set (st0 := run_start Primary (use cfg)
                (say LSelectingFirstPrimary (say LBegin (initial cfg)))) in *.
  assert (Hab : aborted Primary st0 = false).
  { unfold st0, run_start. rewrite callDoneOnEnd_set_run.
    destruct (callDoneOnEnd _); reflexivity. }
  assert (Hre : Forall (fun r => r = Primary) (res_end st0)).
  { unfold st0. rewrite res_end_run_start.
    destruct (callDoneOnEnd _); simpl; repeat constructor. }
  pose proof (pullChain_untouched fuel Primary st0 Hab) as HU.
  destruct (pullChain fuel Primary st0) as [[] st1|e st1|];
    simpl in Hrun, HU; try discriminate.
  injection Hrun as _ <-. destruct HU as (_ & _ & Hr).
  simpl. rewrite Hr. exact Hre.
Qed.

Lemma chain_and_handler_over fuel pagesHandler cfg st :
  chain_and_handler fuel pagesHandler cfg = Ok tt st -> primary_over st.
Proof.
  unfold chain_and_handler.
  destruct (primary_chain_run fuel cfg) as [b st1|e st1|] eqn:Hrun;
    simpl; try discriminate.
  apply primary_chain_run_over in Hrun. destruct Hrun as [Hfin Hre].
  assert (Hsay : forall ev, primary_over (say ev st1)).
  { intros ev. split; [|exact Hre].
    unfold finished, aborted, completed in *. rewrite run_say. exact Hfin. }
  destruct pagesHandler as [body|]; [destruct b|]; simpl;
    try (intros [= <-]; apply Hsay).
  unfold handler_call.
  pose proof (run_body_untouched fuel InHandler body
                (say LExecutingHandler st1)) as HU.
  pose proof (run_body_flags_kept fuel InHandler body
                (say LExecutingHandler st1)) as HF.
  destruct (run_body (pullChain fuel) InHandler body _) as [[] st2|e st2|];
    simpl in HU, HF |- *; try discriminate.
  intros [= <-]. destruct HU as (_ & _ & Hr). split.
  - unfold finished, aborted, completed. rewrite run_say.
    apply (flags_kept_finished _ _ _ HF).
    unfold finished, aborted, completed in *. rewrite run_say. exact Hfin.
  - simpl. rewrite Hr. exact Hre.
Qed.

Lemma sendNotImplemented_when_over st :
  primary_over st ->
  sendNotImplemented st = Ok tt (skipped_end (res_end st) (set_status 501 st)).
Proof.
  intros [Hfin Hre]. unfold sendNotImplemented, call_res_end.
  apply wrapped_end_when_over. simpl.
  eapply List.Forall_impl; [|exact Hre].
  intros r ->. exact Hfin.
Qed.

(** The guarded block fails only through the primary chain or the terminal
    handler. *)
Lemma primaryPhase_Threw fuel pagesHandler cfg e st :
  primaryPhase fuel pagesHandler cfg (initial cfg) = Threw e st ->
  primary_failure fuel pagesHandler cfg e st.
Proof.
  rewrite primaryPhase_unfold.
  destruct (chain_and_handler fuel pagesHandler cfg) as [[] st1|e1 st1|]
    eqn:Hch; simpl; try discriminate.
  - pose proof (chain_and_handler_over _ _ _ _ Hch) as Hover.
    destruct (negb (writableEnded st1) && negb (headersSent st1)); simpl;
      try discriminate.
    rewrite sendNotImplemented_when_over; simpl; try discriminate.
    destruct Hover as [Hf Hr]. split; [|exact Hr].
    unfold finished, aborted, completed in *. rewrite run_say. exact Hf.
  - intros [= <- <-]. unfold chain_and_handler in Hch.
    destruct (primary_chain_run fuel cfg) as [b st0|e0 st0|] eqn:Hrun;
      simpl in Hch; try discriminate.
    + right. destruct pagesHandler as [body|]; [destruct b|];
        simpl in Hch; try discriminate.
      destruct (handler_call fuel body st0) as [[] st2|e2 st2|] eqn:Hh;
        simpl in Hch; try discriminate.
      injection Hch as <- <-. exists st0, body. auto.
    + left. injection Hch as <- <-. exists st0. auto.
Qed.

(** What the log holds when the primary chain or the handler fails. *)
Definition failure_event (ev : event) : bool :=
  run_event ev ||
  match ev with
  | LBegin | LSelectingFirstPrimary | LErrorInPrimary | LExecutingHandler =>
      true
  | _ => false
  end.

Lemma primary_failure_log fuel pagesHandler cfg e st :
  primary_failure fuel pagesHandler cfg e st ->
  emitted_since [] (fun ev => failure_event ev = true) st.
Proof.
  assert (Hrun : forall ev, run_event ev = true -> failure_event ev = true).
  { intros ev H. unfold failure_event. rewrite H. reflexivity. }
  assert (H0 : emitted_since [] (fun ev => failure_event ev = true)
                 (say LSelectingFirstPrimary (say LBegin (initial cfg)))).
  { do 2 (apply emitted_since_say; [reflexivity|]).
    exists []. split; [reflexivity|constructor]. }
  pose proof (emits_startPullingChain [] failure_event Hrun fuel Primary
                (use cfg) _ H0) as Hchain.
  fold (primary_chain_run fuel cfg) in Hchain.
  intros [(st0 & H & ->)|(st0 & body & H & -> & Hb)];
    rewrite H in Hchain; simpl in Hchain.
  - apply emitted_since_say; [reflexivity|exact Hchain].
  - unfold handler_call in Hb.
    pose proof (emits_body [] failure_event Hrun fuel InHandler body
                  (say LExecutingHandler st0)) as Hbody.
    rewrite Hb in Hbody. apply Hbody.
    apply emitted_since_say; [reflexivity|exact Hchain].
Qed.

Definition throwing_final : state :=
  Eval vm_compute in
    state_of (withMiddleware NotFn (cfg_of throwing None) 2)
             (initial (cfg_of throwing None)).

Definition throwing_idle_final : state :=
  Eval vm_compute in
    state_of (withMiddleware NotFn (cfg_of throwing (Some [Fn []])) 2)
             (initial (cfg_of throwing None)).



(** A stub endpoint: one middleware that does nothing, no handler. *)
Definition cfg_stub : config := cfg_of [Fn []] None.

Definition stub_handled : state :=
  Eval vm_compute in
    state_of (chain_and_handler 2 NotFn cfg_stub) (initial cfg_stub).


(** *** [runtime.error] *)

(** What the log of the primary run may hold about [runtime.error]: every
    invocation is one of a primary chain middleware and finds [undefined],
    every read finds [undefined], and the handler is not executed. *)
Definition primary_view (ev : event) : Prop :=
  match ev with
  | LExecuting r _ v => r = Primary /\ v = JUndefined
  | LReadError _ v => v = JUndefined
  | LExecutingHandler => False
  | _ => True
  end.

(** What the log of the error handling run may hold: every invocation is
    one of an error chain middleware and finds the failure [e], every read
    finds [e], and the handler is not executed. *)
Definition error_view (e : jsval) (ev : event) : Prop :=
  match ev with
  | LExecuting r _ v => r = ErrorChain /\ v = e
  | LReadError _ v => v = e
  | LExecutingHandler => False
  | _ => True
  end.

Definition during_primary (st : state) : Prop :=
  ctx_error st = JUndefined /\
  chain (errorRun st) = [] /\ yielded (errorRun st) = 0 /\
  emitted_since [] primary_view st.

Definition during_error (t0 : list event) (e : jsval) (st : state) : Prop :=
  ctx_error st = e /\ aborted Primary st = true /\
  emitted_since t0 (error_view e) st.

Ltac view_event :=
  match goal with
  | H : _ ?ev = true |- _ =>
      destruct ev; simpl in H |- *; solve [exact I | discriminate H]
  | |- _ => exact I
  end.

Ltac view_same :=
  eapply emitted_since_same; [|eassumption];
  repeat match goal with r : run_id |- _ => destruct r end;
  reflexivity.

Ltac view_frame :=
  repeat match goal with r : run_id |- _ => destruct r end;
  simpl in *; first [assumption | reflexivity | congruence | discriminate].

Ltac during_primary_step :=
  intros;
  match goal with
  | H : during_primary _ |- during_primary _ =>
      let He := fresh "He" in let Hc := fresh "Hc" in
      let Hy := fresh "Hy" in let Hem := fresh "Hem" in
      destruct H as (He & Hc & Hy & Hem);
      first
        [ split; [|split; [|split]];
          [ view_frame | view_frame | view_frame
          | first
              [ view_same
              | apply emitted_since_say; [view_event|];
                first [assumption | view_same]
              | match goal with
                | |- emitted_since _ _ (upd_run ?r ?f (say ?ev ?st)) =>
                    apply (emitted_since_same _ _ (say ev st));
                    [destruct r; reflexivity
                    |apply emitted_since_say; [view_event|assumption]]
                end ] ]
        | exfalso; view_frame ]
  end.

Lemma during_primary_pull fuel :
  preserving during_primary any_action (pullChain fuel).
Proof.
  apply elem_pull; try solve [during_primary_step].
  - (* a read finds undefined *)
    intros w st (He & Hc & Hy & Hem). repeat split; auto.
    apply emitted_since_say; [exact He|assumption].
  - (* an invocation is one of the primary chain and finds undefined *)
    intros r i st Hab Hyi (He & Hc & Hy & Hem).
    destruct r; [|simpl in Hyi; congruence].
    repeat split; auto.
    apply emitted_since_say; [split; [reflexivity|exact He]|assumption].
Qed.

Lemma primary_chain_run_view fuel cfg :
  holds during_primary (primary_chain_run fuel cfg).
Proof.
  unfold primary_chain_run.
  apply holds_driver_inv with (allowed := any_action).
  apply handler_startPullingChain; try solve [during_primary_step].
  - apply during_primary_pull.
  - apply any_chain.
  - apply any_chains.
  - repeat split.
    exists [LBegin; LSelectingFirstPrimary]. split; [reflexivity|].
    repeat constructor.
Qed.

Ltac during_error_step :=
  intros;
  match goal with
  | H : during_error _ _ _ |- during_error _ _ _ =>
      let He := fresh "He" in let Ha := fresh "Ha" in
      let Hem := fresh "Hem" in
      destruct H as (He & Ha & Hem); unfold aborted in *;
      first
        [ split; [|split];
          [ view_frame | view_frame
          | first
              [ view_same
              | apply emitted_since_say; [view_event|];
                first [assumption | view_same]
              | match goal with
                | |- emitted_since _ _ (upd_run ?r ?f (say ?ev ?st)) =>
                    apply (emitted_since_same _ _ (say ev st));
                    [destruct r; reflexivity
                    |apply emitted_since_say; [view_event|assumption]]
                end ] ]
        | exfalso; view_frame ]
  end.

Lemma during_error_pull t0 e fuel :
  preserving (during_error t0 e) any_action (pullChain fuel).
Proof.
  apply elem_pull; try solve [during_error_step].
  - intros w st (He & Ha & Hem). repeat split; auto.
    apply emitted_since_say; [exact He|assumption].
  - intros r i st Hab Hyi (He & Ha & Hem).
    destruct r; [congruence|].
    repeat split; auto.
    apply emitted_since_say; [split; [reflexivity|exact He]|assumption].
Qed.

Lemma error_chain_run_view fuel onError e st :
  aborted Primary st = true ->
  holds (during_error (trace st ++ [LAttemptingToHandle e]) e)
        (error_chain_run fuel onError e st).
Proof.
  intros Hab. unfold error_chain_run.
  apply holds_driver_inv with (allowed := any_action).
  apply handler_startPullingChain; try solve [during_error_step].
  - apply during_error_pull.
  - apply any_chain.
  - apply any_chains.
  - repeat split; [exact Hab|].
    exists [LSelectingFirstError]. split; [|repeat constructor].
    simpl. rewrite <- app_assoc. reflexivity.
Qed.


(** Two middleware that read [runtime.error] and a third that throws; two
    error handling middleware that read it as well. *)
Definition cfg_observing : config :=
  cfg_of [Fn [AReadError]; Fn [AReadError]; Fn [AThrow bad]]
         (Some [Fn [AReadError]; Fn [AReadError]]).

Definition observing_thrown : state :=
  Eval vm_compute in
    state_of (primary_chain_run 4 cfg_observing) (initial cfg_observing).

Definition observing_final : state :=
  Eval vm_compute in
    state_of (withMiddleware (Fn [AStatus 200; AEnd]) cfg_observing 4)
             (initial cfg_observing).


Example observing_log :
  trace observing_final =
    [LBegin; LSelectingFirstPrimary; LWillCallDoneOnEnd Primary;
     LExecuting Primary 0 JUndefined;
     LReadError (InMiddleware Primary 0) JUndefined;
     LSelectingNext Primary;
     LExecuting Primary 1 JUndefined;
     LReadError (InMiddleware Primary 1) JUndefined;
     LSelectingNext Primary;
     LExecuting Primary 2 JUndefined;
     LWarnAbortedDueToError Primary; LErrorInPrimary;
     LAttemptingToHandle bad; LSelectingFirstError;
     LWillCallDoneOnEnd ErrorChain;
     LExecuting ErrorChain 0 bad;
     LReadError (InMiddleware ErrorChain 0) bad;
     LSelectingNext ErrorChain;
     LExecuting ErrorChain 1 bad;
     LReadError (InMiddleware ErrorChain 1) bad;
     LSelectingNext ErrorChain;
     LNoMore ErrorChain; LDeactivated ErrorChain;
     LStopped ErrorChain; LRanAtLeastOne ErrorChain true;
     LThrowingUnhandled; LDoneWithErrors].
Proof. reflexivity. Qed.

(** *** [runtime.done] in the primary chain *)

(** The message of a call of [done] that aborts the primary run. *)
Definition primary_abort : event := LDoneAborting Primary.

(** No middleware of the primary chain is invoked after the primary run
    was aborted by [done]. *)
Definition no_invocation_after_abort (t : list event) : Prop :=
  forall t1 t2, t = t1 ++ primary_abort :: t2 ->
    forall i v, ~ In (LExecuting Primary i v) t2.

Definition is_primary_invocation (ev : event) : Prop :=
  exists i v, ev = LExecuting Primary i v.

Lemma no_invocation_after_abort_snoc t ev :
  no_invocation_after_abort t ->
  (is_primary_invocation ev -> ~ In primary_abort t) ->
  no_invocation_after_abort (t ++ [ev]).
Proof.
  intros Ht Hev t1 t2 Heq i v Hin.
  destruct (exists_last (l := primary_abort :: t2)) as (t2' & x & Hlast);
    [discriminate|].
  rewrite Hlast in Heq. rewrite app_assoc in Heq.
  apply app_inj_tail in Heq. destruct Heq as [Ht1 <-].
  destruct t2' as [|d t2'].
  - (* the abort is the last message *)
    simpl in Hlast. injection Hlast as _ ->. destruct Hin.
  - simpl in Hlast. injection Hlast as <- ->.
    apply in_app_or in Hin. destruct Hin as [Hin|[Hx|[]]].
    + exact (Ht t1 t2' Ht1 i v Hin).
    + apply Hev; [exists i, v; exact Hx|].
      rewrite Ht1. apply in_or_app. right. left. reflexivity.
Qed.

(** The primary run is aborted whenever the log holds the message of an
    aborting [done], and no invocation follows that message. *)
Definition abort_respected (st : state) : Prop :=
  (aborted Primary st = false -> ~ In primary_abort (trace st)) /\
  no_invocation_after_abort (trace st).

Lemma abort_respected_say ev st :
  ev <> primary_abort ->
  (is_primary_invocation ev -> aborted Primary st = false) ->
  abort_respected st -> abort_respected (say ev st).
Proof.
  intros Hne Hinv [H1 H2]. split.
  - intros Ha Hin. apply In_say in Hin. destruct Hin as [Hin|Hin].
    + exact (H1 Ha Hin).
    + congruence.
  - rewrite trace_say. apply no_invocation_after_abort_snoc; auto.
Qed.

Lemma abort_respected_same st st' :
  trace st' = trace st ->
  (aborted Primary st' = false -> aborted Primary st = false) ->
  abort_respected st -> abort_respected st'.
Proof.
  intros Ht Ha [H1 H2]. split; rewrite Ht; auto.
Qed.

Ltac not_invocation :=
  let H := fresh "H" in
  intros H; destruct H as (? & ? & H); discriminate H.

Ltac abort_step :=
  intros;
  match goal with
  | H : abort_respected _ |- abort_respected (say ?ev ?st) =>
      apply abort_respected_say;
      [ first [ discriminate
              | match goal with
                | Hc : _ ev = true |- _ =>
                    destruct ev; simpl in Hc; discriminate
                end ]
      | first [ not_invocation
              | match goal with
                | Hc : _ ev = true |- _ =>
                    destruct ev; simpl in Hc; try discriminate Hc;
                    not_invocation
                end ]
      | first [ assumption
              | revert H; apply abort_respected_same;
                [ repeat match goal with r : run_id |- _ => destruct r end;
                  reflexivity
                | repeat match goal with r : run_id |- _ => destruct r end;
                  simpl; auto ] ] ]
  | H : abort_respected _ |- abort_respected _ =>
      revert H; apply abort_respected_same;
      [ repeat match goal with r : run_id |- _ => destruct r end; reflexivity
      | repeat match goal with r : run_id |- _ => destruct r end;
        simpl; auto; discriminate ]
  end.

Lemma abort_respected_abort r st :
  abort_respected st ->
  abort_respected (upd_run r (with_aborted true) (say (LDoneAborting r) st)).
Proof.
  intros [H1 H2]. split.
  - destruct r; simpl; [discriminate|].
    intros Ha Hin. apply in_app_or in Hin.
    destruct Hin as [Hin|[Hin|[]]]; [exact (H1 Ha Hin)|discriminate Hin].
  - replace (trace (upd_run r (with_aborted true) (say (LDoneAborting r) st)))
      with (trace st ++ [LDoneAborting r]) by (destruct r; reflexivity).
    apply no_invocation_after_abort_snoc; [exact H2|not_invocation].
Qed.

Lemma abort_respected_executing r i st :
  aborted r st = false -> abort_respected st ->
  abort_respected (say (LExecuting r i (ctx_error st)) st).
Proof.
  intros Ha [H1 H2]. split.
  - intros Hab Hin. apply In_say in Hin. destruct Hin as [Hin|Hin];
      [exact (H1 Hab Hin)|discriminate Hin].
  - rewrite trace_say. apply no_invocation_after_abort_snoc; [exact H2|].
    intros (i' & v' & Heq). injection Heq as -> _ _. exact (H1 Ha).
Qed.

(** The whole request respects an abort of the primary run. *)
Lemma withMiddleware_abort_respected fuel pagesHandler cfg :
  holds abort_respected (withMiddleware pagesHandler cfg fuel).
Proof.
  apply elem_withMiddleware with (allowed := any_action);
    try solve [abort_step]; try apply any_chain; try apply any_entry.
  - intros r st _ _. apply abort_respected_abort.
  - intros r i st Ha _. apply abort_respected_executing, Ha.
  - intros onError _. apply any_chain.
  - split.
    + intros _ Hin. simpl in Hin. intuition discriminate.
    + intros t1 t2 Heq. simpl in Heq.
      destruct t1 as [|a [|b [|c t1]]]; simpl in Heq; discriminate.
Qed.

Lemma primary_chain_run_abort_respected fuel cfg :
  holds abort_respected (primary_chain_run fuel cfg).
Proof.
  unfold primary_chain_run.
  apply holds_driver_inv with (allowed := any_action).
  apply elem_startPullingChain;
    try solve [abort_step]; try apply any_chain; try apply any_chains.
  - intros r st _ _. apply abort_respected_abort.
  - intros r i st Ha _. apply abort_respected_executing, Ha.
  - split.
    + intros _ Hin. simpl in Hin. intuition discriminate.
    + intros t1 t2 Heq. simpl in Heq.
      destruct t1 as [|a [|b [|c t1]]]; simpl in Heq; discriminate.
Qed.

(** The primary run has completed and no [done] has aborted it. *)
Definition completed_unaborted (st : state) : Prop :=
  completed Primary st = true /\ ~ In primary_abort (trace st).

Lemma completed_unaborted_say ev st :
  ev <> primary_abort ->
  completed_unaborted st -> completed_unaborted (say ev st).
Proof.
  intros Hne [H1 H2]. split; [exact H1|].
  intros Hin. apply In_say in Hin. destruct Hin; [auto|congruence].
Qed.

Lemma completed_unaborted_same st st' :
  trace st' = trace st ->
  (completed Primary st = true -> completed Primary st' = true) ->
  completed_unaborted st -> completed_unaborted st'.
Proof. intros Ht Hc [H1 H2]. split; [auto|rewrite Ht; exact H2]. Qed.

Ltac completed_step :=
  intros;
  match goal with
  | H : completed_unaborted _ |- completed_unaborted (say ?ev ?st) =>
      apply completed_unaborted_say;
      [ first [ discriminate
              | match goal with
                | Hc : _ ev = true |- _ =>
                    destruct ev; simpl in Hc; discriminate
                end ]
      | first [ assumption
              | revert H; apply completed_unaborted_same;
                [ repeat match goal with r : run_id |- _ => destruct r end;
                  reflexivity
                | repeat match goal with r : run_id |- _ => destruct r end;
                  simpl; auto ] ] ]
  | H : completed_unaborted _ |- completed_unaborted _ =>
      revert H; apply completed_unaborted_same;
      [ repeat match goal with r : run_id |- _ => destruct r end; reflexivity
      | repeat match goal with r : run_id |- _ => destruct r end;
        simpl; auto ]
  end.

Lemma completed_unaborted_abort r st :
  completed r st = false -> completed_unaborted st ->
  completed_unaborted (upd_run r (with_aborted true) (say (LDoneAborting r) st)).
Proof.
  intros Hc [H1 H2]. destruct r; [unfold completed in *; congruence|].
  split; [exact H1|].
  simpl. intros Hin. apply in_app_or in Hin.
  destruct Hin as [Hin|[Hin|[]]]; [auto|discriminate Hin].
Qed.

(** Once the primary run has completed unaborted, nothing in the rest of
    the request aborts it. *)
Lemma completed_unaborted_body fuel w body st :
  completed_unaborted st ->
  holds completed_unaborted (run_body (pullChain fuel) w body st).
Proof.
  intros HJ. apply holds_driver_inv with (allowed := any_action).
  apply elem_body; try solve [completed_step].
  - intros r s Hc _. apply completed_unaborted_abort, Hc.
  - apply any_body.
  - split; [exact HJ|apply any_chains].
Qed.

Lemma completed_unaborted_send st :
  completed_unaborted st ->
  holds completed_unaborted (sendNotImplemented st).
Proof.
  apply elem_send; try solve [completed_step].
  intros r s Hc _. apply completed_unaborted_abort, Hc.
Qed.

Lemma completed_unaborted_errorPhase fuel cfg e st :
  completed_unaborted st ->
  holds completed_unaborted (errorPhase fuel cfg e st).
Proof.
  intros HJ. apply holds_driver_inv with (allowed := any_action).
  apply elem_errorPhase; try solve [completed_step].
  - intros r s Hc _. apply completed_unaborted_abort, Hc.
  - intros onError _. apply any_chain.
  - apply any_chains.
  - revert HJ. intros [H1 H2]. split; [exact H1|].
    simpl. intros Hin. apply in_app_or in Hin.
    destruct Hin as [Hin|[Hin|[]]]; [auto|discriminate Hin].
Qed.

Lemma errorPhase_emits fuel cfg e st :
  holds (emitted_since (trace st) (fun ev => error_event ev = true))
        (errorPhase fuel cfg e st).
Proof.
  set (P := fun ev => error_event ev = true).
  assert (Hsay : forall ev s, error_chatter ev = true ->
            emitted_since (trace st) P s -> emitted_since (trace st) P (say ev s)).
  { intros ev s H. apply emitted_since_say. unfold P, error_event.
    rewrite H. apply orb_true_r. }
  destruct (useOnError cfg) as [onError|] eqn:Hue.
  - pose proof (error_chain_run_log fuel onError e st) as Hlog.
    assert (Hweak : forall s,
              emitted_since (trace st) (fun ev => error_run_event ev = true) s ->
              emitted_since (trace st) P s).
    { intros s. apply emitted_since_weaken. intros ev H.
      unfold P, error_event. unfold error_run_event in H.
      apply orb_true_iff in H. destruct H as [->|H]; [reflexivity|].
      destruct ev; simpl in H; try discriminate; apply orb_true_r. }
    destruct (error_chain_run fuel onError e st) as [b st'|e' st'|] eqn:Hrun.
    + rewrite (errorPhase_chain_returned _ _ _ _ _ _ _ Hue Hrun).
      destruct Hlog as [Hem _]. apply Hweak in Hem.
      destruct (negb (writableEnded st') && negb (headersSent st')); simpl;
        repeat (apply Hsay; [reflexivity|]); exact Hem.
    + rewrite (errorPhase_chain_threw _ _ _ _ _ _ _ Hue Hrun).
      destruct Hlog as [Hem _]. apply Hweak in Hem. simpl.
      repeat (apply Hsay; [reflexivity|]); exact Hem.
    + rewrite (errorPhase_chain_fuel _ _ _ _ _ Hue Hrun). exact I.
  - rewrite (errorPhase_no_chain _ _ _ _ Hue). cbn [holds]. unfold caught.
    do 3 (apply Hsay; [reflexivity|]).
    apply emitted_since_same with (st := say (LAttemptingToHandle e) st);
      [reflexivity|].
    apply Hsay; [reflexivity|]. apply emitted_since_refl.
Qed.

(** The messages of the primary run and of what precedes it. *)
Definition chain_event (ev : event) : bool :=
  run_event ev ||
  match ev with
  | LBegin | LSelectingFirstPrimary => true
  | _ => false
  end.

Lemma primary_chain_run_emits fuel cfg :
  holds (emitted_since [] (fun ev => chain_event ev = true))
        (primary_chain_run fuel cfg).
Proof.
  apply (emits_startPullingChain [] chain_event).
  - intros ev H. unfold chain_event. rewrite H. reflexivity.
  - do 2 (apply emitted_since_say; [reflexivity|]).
    exists []. split; [reflexivity|constructor].
Qed.

Lemma primary_chain_run_Threw_log fuel cfg e st :
  primary_chain_run fuel cfg = Threw e st ->
  In (LWarnAbortedDueToError Primary) (trace st).
Proof.
  unfold primary_chain_run. rewrite startPullingChain_unfold.
  destruct (pullChain fuel Primary _) as [[] st1|e1 st1|];
    simpl; try discriminate.
  intros [= _ <-]. apply In_say. auto.
Qed.

(** The messages logged after a primary run that was aborted without a
    failure. *)
Definition skip_event (ev : event) : Prop :=
  match ev with
  | LNotExecutingHandler | LNoHandler | LSendingNotImplemented
  | LSkippedDoneAfterEnd _ | LDone => True
  | _ => False
  end.

Lemma skipped_end_emits ws st :
  emitted_since (trace st) skip_event (skipped_end ws st).
Proof.
  induction ws as [|r ws IH]; simpl.
  - apply emitted_since_same with (st := st); [reflexivity|].
    apply emitted_since_refl.
  - destruct (negb (response_sent st)); [|exact IH].
    apply emitted_since_say; [exact I|exact IH].
Qed.

(** When the primary chain returns (aborted or not) and the terminal
    handler is skipped or absent, the request ends without a failure. *)
Lemma handler_skipped_result fuel pagesHandler cfg b st1 :
  primary_chain_run fuel cfg = Ok b st1 ->
  b = true \/ pagesHandler = NotFn ->
  exists st',
    withMiddleware pagesHandler cfg fuel = Ok tt st' /\
    emitted_since (trace st1) skip_event st'.
Proof.
  intros Hrun Hskip.
  pose proof (primary_chain_run_over _ _ _ _ Hrun) as [Hfin Hre].
  unfold withMiddleware. rewrite primaryPhase_unfold.
  unfold chain_and_handler. rewrite Hrun. simpl.
  set (st2 := match pagesHandler with
              | Fn _ => say LNotExecutingHandler st1
              | NotFn => say LNoHandler st1
              end).
  assert (Hst2 : match pagesHandler with
                 | Fn body =>
                     if b then Ok tt (say LNotExecutingHandler st1)
                     else let! _, st := handler_call fuel body st1 in
                          Ok tt (say LFinishedHandler st)
                 | NotFn => Ok tt (say LNoHandler st1)
                 end = Ok tt st2).
  { unfold st2. destruct pagesHandler as [body|]; [|reflexivity].
    destruct Hskip as [->|Hn]; [reflexivity|discriminate Hn]. }
  rewrite Hst2. simpl.
  assert (Hem2 : emitted_since (trace st1) skip_event st2).
  { unfold st2. destruct pagesHandler;
      (apply emitted_since_say; [exact I|apply emitted_since_refl]). }
  assert (Hover2 : forall ev, primary_over (say ev st2)).
  { intros ev. split.
    - unfold finished, aborted, completed in *. unfold st2.
      destruct pagesHandler; rewrite !run_say; exact Hfin.
    - unfold st2. destruct pagesHandler; exact Hre. }
  clearbody st2.
  destruct (negb (writableEnded st2) && negb (headersSent st2)); simpl.
  - rewrite (sendNotImplemented_when_over _ (Hover2 LSendingNotImplemented)).
    simpl. eexists. split; [reflexivity|].
    apply emitted_since_say; [exact I|].
    eapply emitted_since_trans; [|apply skipped_end_emits].
    apply emitted_since_same with (st := say LSendingNotImplemented st2);
      [reflexivity|].
    apply emitted_since_say; [exact I|exact Hem2].
  - eexists. split; [reflexivity|].
    apply emitted_since_say; [exact I|exact Hem2].
Qed.

Lemma completed_unaborted_tail fuel cfg st :
  completed_unaborted st ->
  holds completed_unaborted
    (try_catch
       (let! _, st :=
          if negb (writableEnded st) && negb (headersSent st) then
            sendNotImplemented (say LSendingNotImplemented st)
          else Ok tt st in
        Ok tt (say LDone st))
       (errorPhase fuel cfg)).
Proof.
  intros HJ.
  destruct (negb (writableEnded st) && negb (headersSent st)); simpl.
  - pose proof (completed_unaborted_send (say LSendingNotImplemented st)) as H.
    destruct (sendNotImplemented (say LSendingNotImplemented st))
      as [[] s|e s|]; simpl in H |- *.
    + apply completed_unaborted_say; [discriminate|].
      apply H, completed_unaborted_say; [discriminate|exact HJ].
    + apply completed_unaborted_errorPhase.
      apply H, completed_unaborted_say; [discriminate|exact HJ].
    + exact I.
  - apply completed_unaborted_say; [discriminate|exact HJ].
Qed.

Lemma completed_unaborted_request fuel pagesHandler cfg st1 :
  primary_chain_run fuel cfg = Ok false st1 ->
  completed_unaborted st1 ->
  holds completed_unaborted (withMiddleware pagesHandler cfg fuel).
Proof.
  intros Hrun HJ.
  unfold withMiddleware. rewrite primaryPhase_unfold.
  unfold chain_and_handler. rewrite Hrun. cbn [bind try_catch].
  destruct pagesHandler as [body|]; cbn [bind try_catch].
  - unfold handler_call.
    pose proof (completed_unaborted_body fuel InHandler body
                  (say LExecutingHandler st1)) as H.
    destruct (run_body (pullChain fuel) InHandler body _)
      as [[] s|e s|]; cbn [bind try_catch holds] in H |- *.
    + apply completed_unaborted_tail.
      apply completed_unaborted_say; [discriminate|].
      apply H, completed_unaborted_say; [discriminate|exact HJ].
    + apply completed_unaborted_errorPhase.
      apply H, completed_unaborted_say; [discriminate|exact HJ].
    + exact I.
  - apply completed_unaborted_tail.
    apply completed_unaborted_say; [discriminate|exact HJ].
Qed.

(** A middleware that calls [done] after it has pulled the rest of the
    chain, and one that calls [done] and then throws. *)
Definition cfg_late_done : config :=
  cfg_of [Fn [ACallNext Current; ACallDone Current]; Fn []] None.

Definition late_done_final : state :=
  Eval vm_compute in
    state_of (withMiddleware (Fn []) cfg_late_done 3) (initial cfg_late_done).

Definition cfg_done_then_throw : config :=
  cfg_of [Fn [ACallDone Current; AThrow bad]] (Some [Fn [AStatus 500; AEnd]]).

Definition done_then_throw_final : state :=
  Eval vm_compute in
    state_of (withMiddleware (Fn []) cfg_done_then_throw 2)
             (initial cfg_done_then_throw).

(** C1, as stated, fails.  In the first request the first middleware
    awaits [next()], which runs the second middleware and completes the
    chain, and then calls [done()]: the call is answered with the "already
    finished executing" warning, the run is not aborted, the middleware
    later in the array has been invoked and the terminal handler is
    invoked.  In the second request the only middleware calls [done()],
    which aborts the run, and then throws: the [useOnError] chain is run. *)
Lemma C1_counterexample :
  (withMiddleware (Fn []) cfg_late_done 3 = Ok tt late_done_final /\
   trace late_done_final =
     [LBegin; LSelectingFirstPrimary; LWillCallDoneOnEnd Primary;
      LExecuting Primary 0 JUndefined; LNextManual Primary;
      LExecuting Primary 1 JUndefined; LSelectingNext Primary;
      LNoMore Primary; LDeactivated Primary;
      LWarnDoneFinished Primary;
      LStopped Primary; LRanAtLeastOne Primary true;
      LExecutingHandler; LFinishedHandler;
      LSendingNotImplemented; LSkippedDoneAfterEnd Primary; LDone]) /\
  (withMiddleware (Fn []) cfg_done_then_throw 2 =
     Ok tt done_then_throw_final /\
   trace done_then_throw_final =
     [LBegin; LSelectingFirstPrimary; LWillCallDoneOnEnd Primary;
      LExecuting Primary 0 JUndefined; LDoneAborting Primary;
      LWarnAbortedDueToError Primary; LErrorInPrimary;
      LAttemptingToHandle bad; LSelectingFirstError;
      LWillCallDoneOnEnd ErrorChain;
      LExecuting ErrorChain 0 bad;
      LSkippedDoneAfterEnd Primary; LCallingDoneAfterEnd ErrorChain;
      LDoneAborting ErrorChain; LAbortedManually ErrorChain;
      LStopped ErrorChain; LRanAtLeastOne ErrorChain true;
      LDoneWithErrors]).
Proof. repeat split; vm_compute; reflexivity. Qed.

(** C1, amended.  When a call of [runtime.done] aborts the primary run of a
    request, that is, when it is made (by a middleware, or by the wrapper
    of [res.end] on its behalf) before the primary chain has completed,
    then no middleware of [use] is invoked after that call and the
    terminal handler is not invoked; and if no failure is thrown out of
    the primary chain afterwards, the request ends without a failure and
    the [useOnError] chain is not run.  (With [enough] fuel the request
    does come to its end, so there is a final state to speak of.) *)
Theorem C1_aborting_done_stops_primary_chain_and_handler
    fuel pagesHandler cfg :
  (enough cfg <= fuel -> returns (withMiddleware pagesHandler cfg fuel)) /\
  forall st',
    final_state (withMiddleware pagesHandler cfg fuel) = Some st' ->
    In (LDoneAborting Primary) (trace st') ->
    ~ In LExecutingHandler (trace st') /\
    (forall t1 t2, trace st' = t1 ++ LDoneAborting Primary :: t2 ->
       forall i v, ~ In (LExecuting Primary i v) t2) /\
    (~ In (LWarnAbortedDueToError Primary) (trace st') ->
     withMiddleware pagesHandler cfg fuel = Ok tt st' /\
     ~ In LSelectingFirstError (trace st')).
Proof.
  split; [apply run_total|].
  intros st' Hfinal Hin.
  assert (Horder : forall t1 t2, trace st' = t1 ++ LDoneAborting Primary :: t2 ->
            forall i v, ~ In (LExecuting Primary i v) t2).
  { pose proof (withMiddleware_abort_respected fuel pagesHandler cfg) as H.
    destruct (withMiddleware pagesHandler cfg fuel); simpl in Hfinal, H;
      try discriminate; injection Hfinal as <-; apply H. }
  pose proof (primary_chain_run_emits fuel cfg) as Hchain.
  destruct (primary_chain_run fuel cfg) as [b st1|e st0|] eqn:Hrun;
    simpl in Hchain.
  - destruct b.
    + (* the run was aborted and returned *)
      destruct (handler_skipped_result fuel pagesHandler cfg true st1 Hrun)
        as (st'' & Hres & Hem); [auto|].
      rewrite Hres in Hfinal. injection Hfinal as ->.
      assert (Hnot : forall ev, chain_event ev = false -> ~ skip_event ev ->
                ~ In ev (trace st')).
      { intros ev Hc Hs Hev.
        destruct (emitted_since_In _ _ _ _ Hem Hev) as [H|H]; [|auto].
        destruct (emitted_since_In _ _ _ _ Hchain H) as [[]|H']. congruence. }
      split; [apply Hnot; [reflexivity|exact (fun H => H)]|].
      split; [exact Horder|]. intros _.
      split; [exact Hres|apply Hnot; [reflexivity|exact (fun H => H)]].
    + (* the run returned unaborted: no done has aborted it, and none will *)
      exfalso.
      assert (HJ : completed_unaborted st1).
      { pose proof (primary_chain_run_abort_respected fuel cfg) as Hresp.
        rewrite Hrun in Hresp. destruct Hresp as [Hresp _].
        unfold primary_chain_run in Hrun.
        destruct (startPullingChain_Ok _ _ _ _ _ _ Hrun) as [Hfin Hb].
        split; [|apply Hresp; congruence].
        unfold finished in Hfin. rewrite <- Hb in Hfin. exact Hfin. }
      pose proof (completed_unaborted_request fuel pagesHandler cfg st1
                    Hrun HJ) as H.
      destruct (withMiddleware pagesHandler cfg fuel); simpl in Hfinal, H;
        try discriminate; injection Hfinal as <-; apply H, Hin.
  - (* the primary chain threw *)
    assert (Hfail : primary_failure fuel pagesHandler cfg e
                      (say LErrorInPrimary st0)).
    { left. exists st0. auto. }
    pose proof (primary_failure_phase _ _ _ _ _ Hfail) as Hphase.
    rewrite (withMiddleware_after_failure _ _ _ _ _ Hphase) in Hfinal |- *.
    pose proof (errorPhase_emits fuel cfg e (say LErrorInPrimary st0)) as Hem.
    pose proof (primary_chain_run_Threw_log _ _ _ _ Hrun) as Hlog.
    assert (Hem' : emitted_since (trace (say LErrorInPrimary st0))
                     (fun ev => error_event ev = true) st').
    { destruct (errorPhase fuel cfg e (say LErrorInPrimary st0));
        simpl in Hfinal, Hem; try discriminate;
        injection Hfinal as <-; exact Hem. }
    split; [|split; [exact Horder|]].
    + intros Hev.
      destruct (emitted_since_In _ _ _ _ Hem' Hev) as [H|H];
        [|discriminate H].
      apply In_say in H. destruct H as [H|H]; [|discriminate H].
      destruct (emitted_since_In _ _ _ _ Hchain H) as [[]|H'].
      discriminate H'.
    + intros Hno. exfalso. apply Hno.
      eapply emitted_since_prefix; [exact Hem'|].
      apply In_say. left. exact Hlog.
  - (* no fuel, no final state *)
    unfold withMiddleware, primaryPhase in Hfinal.
    fold (primary_chain_run fuel cfg) in Hfinal.
    rewrite Hrun in Hfinal. discriminate Hfinal.
Qed.

(** The first middleware ends the response, which calls [done]: the second
    middleware and the handler are not invoked, a default response is
    not needed, no error handling chain is run. *)
Definition cfg_responding : config :=
  cfg_of [Fn [AStatus 403; AEnd]; Fn []] (Some [Fn []]).

Definition responding_final : state :=
  Eval vm_compute in
    state_of (withMiddleware (Fn [AStatus 200; AEnd]) cfg_responding 3)
             (initial cfg_responding).

Lemma C1_witness :
  ~ In LExecutingHandler (trace responding_final) /\
  (forall t1 t2,
     trace responding_final = t1 ++ LDoneAborting Primary :: t2 ->
     forall i v, ~ In (LExecuting Primary i v) t2) /\
  (~ In (LWarnAbortedDueToError Primary) (trace responding_final) ->
   withMiddleware (Fn [AStatus 200; AEnd]) cfg_responding 3 =
     Ok tt responding_final /\
   ~ In LSelectingFirstError (trace responding_final)).
Proof.
  apply (proj2 (C1_aborting_done_stops_primary_chain_and_handler 3
                  (Fn [AStatus 200; AEnd]) cfg_responding) responding_final).
  - vm_compute. reflexivity.
  - vm_compute. repeat (try (left; reflexivity); right).
Defined.

(** ** The unit tests of the package, replayed *)

(** "can pull entire chain manually using runtime.next with warning if
    called multiple times": the first primary middleware keeps the [next]
    it was given, awaits it twice and throws; the first error handling
    middleware does the same with its own [next], and the last one ends
    the response.  The four plain middleware run once each, the second
    [next()] of the primary chain gets the "already finished" warning, the
    second one of the error chain the "aborted" warning, and the request
    ends with status 200 and without a failure. *)
Definition cfg_manual_pull : config :=
  cfg_of [Fn [ACallNext (Captured Primary 0); ACallNext (Captured Primary 0);
              AThrow bad];
          Fn []; Fn []]
         (Some [Fn [ACallNext (Captured ErrorChain 0);
                    ACallNext (Captured ErrorChain 0)];
                Fn []; Fn []; Fn [AStatus 200; AEnd]]).

Definition manual_pull_final : state :=
  Eval vm_compute in
    state_of (withMiddleware NotFn cfg_manual_pull 6)
             (initial cfg_manual_pull).

Example test_manual_pull :
  withMiddleware NotFn cfg_manual_pull 6 = Ok tt manual_pull_final /\
  statusCode manual_pull_final = 200 /\
  writableEnded manual_pull_final = true /\
  trace manual_pull_final =
    [LBegin; LSelectingFirstPrimary; LWillCallDoneOnEnd Primary;
     LExecuting Primary 0 JUndefined; LNextManual Primary;
     LExecuting Primary 1 JUndefined; LSelectingNext Primary;
     LExecuting Primary 2 JUndefined; LSelectingNext Primary;
     LNoMore Primary; LDeactivated Primary;
     LWarnNextFinished Primary;
     LWarnAbortedDueToError Primary; LErrorInPrimary;
     LAttemptingToHandle bad; LSelectingFirstError;
     LWillCallDoneOnEnd ErrorChain;
     LExecuting ErrorChain 0 bad; LNextManual ErrorChain;
     LExecuting ErrorChain 1 bad; LSelectingNext ErrorChain;
     LExecuting ErrorChain 2 bad; LSelectingNext ErrorChain;
     LExecuting ErrorChain 3 bad;
     LSkippedDoneAfterEnd Primary; LCallingDoneAfterEnd ErrorChain;
     LDoneAborting ErrorChain; LAbortedManually ErrorChain;
     LWarnNextAborted ErrorChain; LAbortedManually ErrorChain;
     LStopped ErrorChain; LRanAtLeastOne ErrorChain true;
     LDoneWithErrors].
Proof.
  split; [vm_compute; reflexivity|].
  split; [reflexivity|]. split; reflexivity.
Qed.

(** "makes runtime control functions noops if chain completes": with
    [callDoneOnEnd: false], the handler calls the [next] and [done] the
    only primary middleware was given, gets the two "already finished"
    warnings, and throws; the error handling middleware ends the
    response. *)
Definition cfg_noops : config :=
  {| descriptor := Some "/fake";
     use := [Fn []];
     useOnError := Some [Fn [AReadError; AEnd]];
     options := Some {[ "callDoneOnEnd" := JBool false ]} |}.

Definition noops_handler : entry :=
  Fn [ACallNext (Captured Primary 0); ACallDone (Captured Primary 0);
      AThrow (JError "badness")].

Definition noops_final : state :=
  Eval vm_compute in
    state_of (withMiddleware noops_handler cfg_noops 3) (initial cfg_noops).

Example test_noops_after_completion :
  withMiddleware noops_handler cfg_noops 3 = Ok tt noops_final /\
  trace noops_final =
    [LBegin; LSelectingFirstPrimary; LWillNotCallDoneOnEnd Primary;
     LExecuting Primary 0 JUndefined; LSelectingNext Primary;
     LNoMore Primary; LDeactivated Primary;
     LStopped Primary; LRanAtLeastOne Primary true;
     LExecutingHandler;
     LWarnNextFinished Primary; LWarnDoneFinished Primary;
     LAttemptingToHandle (JError "badness"); LSelectingFirstError;
     LWillNotCallDoneOnEnd ErrorChain;
     LExecuting ErrorChain 0 (JError "badness");
     LReadError (InMiddleware ErrorChain 0) (JError "badness");
     LSelectingNext ErrorChain;
     LNoMore ErrorChain; LDeactivated ErrorChain;
     LStopped ErrorChain; LRanAtLeastOne ErrorChain true;
     LDoneWithErrors].
Proof. split; [vm_compute; reflexivity|reflexivity]. Qed.

(** "skips non-function middleware in chain". *)
Definition cfg_non_functions : config :=
  cfg_of [NotFn; NotFn; NotFn; Fn [AStatus 403; AEnd]] None.

Definition non_functions_final : state :=
  Eval vm_compute in
    state_of (withMiddleware NotFn cfg_non_functions 5)
             (initial cfg_non_functions).

Example test_non_function_items :
  withMiddleware NotFn cfg_non_functions 5 = Ok tt non_functions_final /\
  statusCode non_functions_final = 403 /\
  In (LWarnSkippingNonFunction Primary) (trace non_functions_final).
Proof.
  split; [vm_compute; reflexivity|]. split; [reflexivity|].
  vm_compute. repeat (try (left; reflexivity); right).
Qed.

(** "sends 501 if handler is undefined". *)
Definition stub_final : state :=
  Eval vm_compute in
    state_of (withMiddleware NotFn (cfg_of [] None) 1)
             (initial (cfg_of [] None)).

Example test_stub_endpoint :
  withMiddleware NotFn (cfg_of [] None) 1 = Ok tt stub_final /\
  statusCode stub_final = 501 /\ writableEnded stub_final = true.
Proof. split; [vm_compute; reflexivity|split; reflexivity]. Qed.

(** * Further properties of the runtime *)
(** ** Which middleware a run invokes, and in which order *)

(** The positions at which run [r] logged the invocation of a middleware,
    oldest first. *)
Fixpoint executed (r : run_id) (t : list event) : list nat :=
  match t with
  | [] => []
  | LExecuting r' i _ :: t =>
      if decide (r' = r) then i :: executed r t else executed r t
  | _ :: t => executed r t
  end.

(** The positions of the functions among the items [l] of a chain, the
    first of which stands at position [n]. *)
Fixpoint fn_positions (n : nat) (l : list entry) : list nat :=
  match l with
  | [] => []
  | Fn _ :: l => n :: fn_positions (S n) l
  | NotFn :: l => fn_positions (S n) l
  end.

Lemma executed_app r t1 t2 :
  executed r (t1 ++ t2) = executed r t1 ++ executed r t2.
Proof.
  induction t1 as [|ev t1 IH]; [reflexivity|].
  destruct ev; simpl; auto.
  destruct (decide (r0 = r)); simpl; congruence.
Qed.

Lemma fn_positions_app n l1 l2 :
  fn_positions n (l1 ++ l2) =
    fn_positions n l1 ++ fn_positions (n + length l1) l2.
Proof.
  revert n. induction l1 as [|e l1 IH]; intros n; simpl.
  - rewrite Nat.add_0_r. reflexivity.
  - rewrite IH, <- Nat.add_succ_comm. destruct e; reflexivity.
Qed.

Lemma fn_positions_bounds n l :
  Forall (fun i => n <= i < n + length l) (fn_positions n l).
Proof.
  revert n. induction l as [|e l IH]; intros n; simpl; [constructor|].
  assert (H : Forall (fun i => n <= i < n + S (length l)) (fn_positions (S n) l)).
  { eapply List.Forall_impl; [|apply IH]. simpl. intros i Hi. lia. }
  destruct e; [constructor; [lia|]|]; exact H.
Qed.

Lemma fn_positions_sorted n l : StronglySorted lt (fn_positions n l).
Proof.
  revert n. induction l as [|e l IH]; intros n; simpl; [constructor|].
  destruct e; [|apply IH].
  constructor; [apply IH|].
  eapply List.Forall_impl; [|apply fn_positions_bounds]. simpl. intros i Hi. lia.
Qed.

(** Between [st0] and [st] the iterator of run [r] yielded the items
    [consumed], and the run logged the invocation of the functions among
    them, each once and in the order of the chain. *)
Definition pulled (r : run_id) (st0 st : state) : Prop :=
  exists t consumed,
    trace st = trace st0 ++ t /\
    chain (run r st0) = consumed ++ chain (run r st) /\
    yielded (run r st) = yielded (run r st0) + length consumed /\
    executed r t = fn_positions (yielded (run r st0)) consumed.

Lemma pulled_refl r st : pulled r st st.
Proof.
  exists [], []. rewrite app_nil_r, Nat.add_0_r. repeat split.
Qed.

Lemma pulled_trans r st0 st1 st2 :
  pulled r st0 st1 -> pulled r st1 st2 -> pulled r st0 st2.
Proof.
  intros (t1 & c1 & Ht1 & Hc1 & Hy1 & He1) (t2 & c2 & Ht2 & Hc2 & Hy2 & He2).
  exists (t1 ++ t2), (c1 ++ c2). repeat split.
  - rewrite Ht2, Ht1, app_assoc. reflexivity.
  - rewrite Hc1, Hc2, app_assoc. reflexivity.
  - rewrite Hy2, Hy1, length_app. lia.
  - rewrite executed_app, fn_positions_app, He1, He2, Hy1. reflexivity.
Qed.

(** A step that invokes no middleware of run [r] and leaves its iterator
    alone. *)
Lemma pulled_quiet r st st' t' :
  trace st' = trace st ++ t' -> executed r t' = [] ->
  chain (run r st') = chain (run r st) ->
  yielded (run r st') = yielded (run r st) ->
  pulled r st st'.
Proof.
  intros Ht He Hc Hy. exists t', [].
  rewrite Hc, Hy, Nat.add_0_r. repeat split; assumption.
Qed.

Lemma holds_pulled {A : Type} r st0 st1 (m : result A) :
  pulled r st0 st1 -> holds (pulled r st1) m -> holds (pulled r st0) m.
Proof.
  intros H. apply holds_impl. intros st. apply pulled_trans, H.
Qed.

Ltac quiet_goals :=
  [> repeat match goal with r : run_id |- _ => destruct r end;
     cbn; rewrite ?app_nil_r; reflexivity
   | try reflexivity;
     match goal with
     | |- executed _ [?ev] = [] =>
         destruct ev; try discriminate; try reflexivity
     end
   | repeat match goal with r : run_id |- _ => destruct r end; reflexivity
   | repeat match goal with r : run_id |- _ => destruct r end; reflexivity ].

Ltac pulled_quietly t := apply pulled_quiet with (t' := t); quiet_goals.

Ltac pulled_step :=
  intros;
  match goal with
  | H : pulled _ _ ?st |- pulled _ _ _ =>
      eapply pulled_trans; [exact H|]; clear H
  end;
  first [ pulled_quietly (@nil event)
        | match goal with
          | |- pulled _ _ (say ?ev _) => pulled_quietly [ev]
          | |- pulled _ _ (upd_run _ _ (say ?ev _)) => pulled_quietly [ev]
          end ].

Lemma pulled_plain_action r pull w a st :
  is_next a = false -> holds (pulled r st) (do_action pull w a st).
Proof.
  intros Hn.
  apply (atomic_action (pulled r st) any_action);
    try solve [pulled_step]; auto; try exact I.
  apply pulled_refl.
Qed.

Section Pulled.

Variable pull : run_id -> state -> result unit.
Hypothesis pull_pulled : forall r r0 st, holds (pulled r st) (pull r0 st).

Lemma runtime_next_pulled r r0 c st :
  holds (pulled r st) (runtime_next pull r0 c st).
Proof.
  unfold runtime_next.
  destruct (completed r0 st); simpl; [pulled_quietly [LWarnNextFinished r0]|].
  destruct (aborted r0 st); simpl; [pulled_quietly [LWarnNextAborted r0]|].
  eapply holds_pulled; [|apply pull_pulled].
  pulled_quietly [LNextManual r0].
Qed.

Lemma action_pulled r w a st : holds (pulled r st) (do_action pull w a st).
Proof.
  destruct (is_next a) eqn:Hn; [|apply pulled_plain_action, Hn].
  destruct a; try discriminate. simpl. unfold call_next.
  destruct (resolve c (ctx_next st) st); simpl; try apply pulled_refl.
  apply runtime_next_pulled.
Qed.

Lemma run_body_pulled r w body st :
  holds (pulled r st) (run_body pull w body st).
Proof.
  revert st. induction body as [|a rest IH]; intros st; simpl.
  - apply pulled_refl.
  - apply holds_bind; [apply action_pulled|].
    intros _ st1 H1. eapply holds_pulled; [exact H1|apply IH].
Qed.

End Pulled.

(** One pull step, and all the steps it starts. *)
Theorem pullChain_pulled fuel :
  forall r r0 st, holds (pulled r st) (pullChain fuel r0 st).
Proof.
  induction fuel as [|fuel IH]; intros r r0 st; [exact I|].
  rewrite pullChain_S. cbv zeta.
  set (cell := length (chainWasPulled (run r0 st))).
  set (st1 := upd_run r0 _ st).
  assert (S1 : pulled r st st1) by (unfold st1; pulled_quietly (@nil event)).
  assert (Hy1 : yielded (run r0 st1) = yielded (run r0 st))
    by (unfold st1; destruct r0; reflexivity).
  clearbody st1. eapply holds_pulled; [exact S1|]. clear S1.
  unfold chain_next.
  destruct (chain (run r0 st1)) as [|item rest] eqn:Hchain.
  - (* the iterator is exhausted *)
    cbn [holds].
    destruct (negb (completed r0 (say (LNoMore r0) (bind_controls (r0, cell) st1)))).
    + apply pulled_quiet with (t' := [LNoMore r0; LDeactivated r0]);
        destruct r, r0; cbn; rewrite <- ?app_assoc; reflexivity.
    + pulled_quietly [LNoMore r0].
  - (* an item was pulled *)
    set (st2 := bind_controls (r0, cell) (upd_run r0 _ st1)).
    apply holds_bind.
    + destruct item as [body|].
      * set (st3 := say _ st2).
        assert (S3 : pulled r st1 st3).
        { destruct (decide (r0 = r)) as [->|Hne].
          - exists [LExecuting r (yielded (run r st1)) (ctx_error st2)], [Fn body].
            unfold st3, st2. repeat split.
            + destruct r; reflexivity.
            + rewrite run_say, run_bind_controls, run_upd_run_same. exact Hchain.
            + rewrite run_say, run_bind_controls, run_upd_run_same. simpl. lia.
            + simpl. rewrite decide_True by reflexivity. reflexivity.
          - apply pulled_quiet
              with (t' := [LExecuting r0 (yielded (run r0 st1)) (ctx_error st2)]).
            + unfold st3, st2. destruct r0; reflexivity.
            + simpl. rewrite decide_False by exact Hne. reflexivity.
            + unfold st3, st2.
              rewrite run_say, run_bind_controls, run_upd_run_other by congruence.
              reflexivity.
            + unfold st3, st2.
              rewrite run_say, run_bind_controls, run_upd_run_other by congruence.
              reflexivity. }
        clearbody st3. eapply holds_pulled; [exact S3|].
        apply holds_bind; [apply run_body_pulled; exact IH|].
        intros _ st4 H4. cbn [holds].
        eapply pulled_trans; [exact H4|]. pulled_quietly (@nil event).
      * cbn [holds].
        destruct (decide (r0 = r)) as [->|Hne].
        -- exists [LWarnSkippingNonFunction r], [NotFn].
           unfold st2. repeat split.
           ++ destruct r; reflexivity.
           ++ rewrite run_say, run_bind_controls, run_upd_run_same. exact Hchain.
           ++ rewrite run_say, run_bind_controls, run_upd_run_same. simpl. lia.
        -- apply pulled_quiet with (t' := [LWarnSkippingNonFunction r0]).
           ++ unfold st2. destruct r0; reflexivity.
           ++ reflexivity.
           ++ unfold st2.
              rewrite run_say, run_bind_controls, run_upd_run_other by congruence.
              reflexivity.
           ++ unfold st2.
              rewrite run_say, run_bind_controls, run_upd_run_other by congruence.
              reflexivity.
    + intros _ st3 H3.
      eapply holds_pulled; [exact H3|].
      destruct (aborted r0 st3).
      * cbn [holds]. pulled_quietly [LAbortedManually r0].
      * destruct (negb (nth cell (chainWasPulled (run r0 st3)) false)).
        -- eapply holds_pulled; [|apply IH]. pulled_quietly [LSelectingNext r0].
        -- apply pulled_refl.
Qed.

Lemma startPullingChain_pulled fuel r r0 c st :
  holds (pulled r (set_run r0 (fresh_run c) st))
        (startPullingChain fuel r0 c st).
Proof.
  rewrite startPullingChain_unfold.
  assert (S0 : pulled r (set_run r0 (fresh_run c) st) (run_start r0 c st)).
  { unfold run_start.
    destruct (callDoneOnEnd (set_run r0 (fresh_run c) st)).
    - pulled_quietly [LWillCallDoneOnEnd r0].
    - pulled_quietly [LWillNotCallDoneOnEnd r0]. }
  eapply holds_pulled; [exact S0|].
  pose proof (pullChain_pulled fuel r r0 (run_start r0 c st)) as H.
  destruct (pullChain fuel r0 (run_start r0 c st)) as [[] st1|e st1|];
    cbn [bind try_catch holds] in H |- *; [| |exact I].
  - eapply pulled_trans; [exact H|].
    apply pulled_quiet
      with (t' := [LStopped r0;
                   LRanAtLeastOne r0 (ranAtLeastOneMiddleware (run r0 st1))]);
      try (destruct r, r0; reflexivity).
    destruct r0; cbn; rewrite <- ?app_assoc; reflexivity.
  - eapply pulled_trans; [exact H|].
    apply pulled_quiet with (t' := [LWarnAbortedDueToError r0]);
      destruct r, r0; reflexivity.
Qed.

(** The state in which the primary run starts, and the one in which the
    error handling run starts after [e] was caught in [st]. *)
Definition primary_start (cfg : config) : state :=
  set_run Primary (fresh_run (use cfg))
    (say LSelectingFirstPrimary (say LBegin (initial cfg))).

Definition error_start (onError : list entry) (e : jsval) (st : state)
  : state :=
  set_run ErrorChain (fresh_run onError) (say LSelectingFirstError (caught e st)).

Lemma sendNotImplemented_pulled r st :
  holds (pulled r st) (sendNotImplemented st).
Proof.
  apply (atomic_sendNotImplemented (pulled r st)); try solve [pulled_step].
  apply pulled_refl.
Qed.

Lemma primaryPhase_pulled r fuel pagesHandler cfg :
  holds (pulled r (primary_start cfg))
        (primaryPhase fuel pagesHandler cfg (initial cfg)).
Proof.
  unfold primaryPhase. apply holds_bind.
  { pose proof (startPullingChain_pulled fuel r Primary (use cfg)
                  (say LSelectingFirstPrimary (say LBegin (initial cfg)))) as H.
    fold (primary_start cfg) in H.
    destruct (startPullingChain fuel Primary (use cfg) _) as [b s|e s|];
      cbn [try_catch holds] in H |- *; auto.
    eapply pulled_trans; [exact H|]. pulled_quietly [LErrorInPrimary]. }
  intros b st1 H1. apply holds_bind.
  { destruct pagesHandler as [body|]; [destruct b|]; cbn [holds].
    - eapply pulled_trans; [exact H1|]. pulled_quietly [LNotExecutingHandler].
    - apply holds_bind.
      + eapply holds_pulled; [|apply run_body_pulled, pullChain_pulled].
        eapply pulled_trans; [exact H1|]. pulled_quietly [LExecutingHandler].
      + intros _ st2 H2. cbn [holds].
        eapply pulled_trans; [exact H2|]. pulled_quietly [LFinishedHandler].
    - eapply pulled_trans; [exact H1|]. pulled_quietly [LNoHandler]. }
  intros _ st2 H2. apply holds_bind.
  { destruct (negb (writableEnded st2) && negb (headersSent st2));
      cbn [holds]; [|exact H2].
    eapply holds_pulled; [|apply sendNotImplemented_pulled].
    eapply pulled_trans; [exact H2|]. pulled_quietly [LSendingNotImplemented]. }
  intros _ st3 H3. cbn [holds].
  eapply pulled_trans; [exact H3|]. pulled_quietly [LDone].
Qed.

Lemma errorPhase_pulled r fuel cfg e st :
  holds (pulled r (match useOnError cfg with
                   | Some onError => error_start onError e st
                   | None => st
                   end))
        (errorPhase fuel cfg e st).
Proof.
  destruct (useOnError cfg) as [onError|] eqn:Hue.
  - pose proof (startPullingChain_pulled fuel r ErrorChain onError
                  (say LSelectingFirstError (caught e st))) as H.
    fold (error_start onError e st) in H.
    fold (error_chain_run fuel onError e st) in H.
    destruct (error_chain_run fuel onError e st) as [b st'|e' st'|] eqn:Hrun.
    + rewrite (errorPhase_chain_returned _ _ _ _ _ _ _ Hue Hrun).
      cbn [holds] in H.
      destruct (negb (writableEnded st') && negb (headersSent st')); cbn [holds];
        (eapply pulled_trans; [exact H|]).
      * apply pulled_quiet with (t' := [LThrowingUnhandled; LDoneWithErrors]);
          try (destruct r; reflexivity).
        cbn. rewrite <- ?app_assoc. reflexivity.
      * pulled_quietly [LDoneWithErrors].
    + rewrite (errorPhase_chain_threw _ _ _ _ _ _ _ Hue Hrun).
      cbn [holds] in H |- *. eapply pulled_trans; [exact H|].
      apply pulled_quiet
        with (t' := [LErrorInErrorChain e'; LThrowingUnhandled; LDoneWithErrors]);
        try (destruct r; reflexivity).
      cbn. rewrite <- ?app_assoc. reflexivity.
    + rewrite (errorPhase_chain_fuel _ _ _ _ _ Hue Hrun). exact I.
  - rewrite (errorPhase_no_chain _ _ _ _ Hue). cbn [holds].
    apply pulled_quiet
      with (t' := [LAttemptingToHandle e; LNoErrorHandlers; LThrowingUnhandled;
                   LDoneWithErrors]);
      try (destruct r; reflexivity).
    cbn. rewrite <- ?app_assoc. reflexivity.
Qed.

Lemma pulled_from_fresh r c st0 st :
  pulled r st0 st -> chain (run r st0) = c -> yielded (run r st0) = 0 ->
  executed r (trace st0) = [] ->
  executed r (trace st) = fn_positions 0 (take (yielded (run r st)) c).
Proof.
  intros (t & consumed & Ht & Hc & Hy & He) <- Hy0 He0.
  rewrite Ht, executed_app, He0, He, Hy, Hc, Hy0. simpl.
  rewrite take_app_length. reflexivity.
Qed.

Lemma pulled_idle r st0 st :
  pulled r st0 st -> chain (run r st0) = [] ->
  chain (run r st) = [] /\ yielded (run r st) = yielded (run r st0) /\
  executed r (trace st) = executed r (trace st0).
Proof.
  intros (t & consumed & Ht & Hc & Hy & He) H0.
  rewrite H0 in Hc. symmetry in Hc. apply app_eq_nil in Hc.
  destruct Hc as [-> Hc]. simpl in *.
  rewrite Ht, executed_app, He, app_nil_r, Hy, Nat.add_0_r. auto.
Qed.

(** The chain a run iterates over. *)
Definition chain_of (cfg : config) (r : run_id) : list entry :=
  match r with
  | Primary => use cfg
  | ErrorChain => default [] (useOnError cfg)
  end.

(** The invocations run [r] has logged are those of the functions among
    the items its iterator has yielded, each once, in the order of the
    chain. *)
Definition invoked_in_order (cfg : config) (r : run_id) (st : state) : Prop :=
  executed r (trace st) =
    fn_positions 0 (take (yielded (run r st)) (chain_of cfg r)).

Lemma invoked_in_order_sorted cfg r st :
  invoked_in_order cfg r st -> StronglySorted lt (executed r (trace st)).
Proof. intros ->. apply fn_positions_sorted. Qed.

Lemma request_invoked_in_order fuel pagesHandler cfg r :
  holds (invoked_in_order cfg r) (withMiddleware pagesHandler cfg fuel).
Proof.
  unfold withMiddleware.
  pose proof (primaryPhase_pulled r fuel pagesHandler cfg) as H1.
  assert (Hfresh : forall st,
            pulled r (primary_start cfg) st ->
            (r = ErrorChain -> chain (run r st) = []) ->
            invoked_in_order cfg r st).
  { intros st H Hidle. destruct r.
    - apply (pulled_from_fresh Primary (use cfg) _ _ H); reflexivity.
    - destruct (pulled_idle _ _ _ H eq_refl) as (_ & Hy & He).
      unfold invoked_in_order. rewrite He, Hy. reflexivity. }
  assert (Hidle : forall st,
            pulled ErrorChain (primary_start cfg) st ->
            chain (run ErrorChain st) = [] /\ yielded (run ErrorChain st) = 0 /\
            executed ErrorChain (trace st) = []).
  { intros st H. apply (pulled_idle _ _ _ H eq_refl). }
  destruct (primaryPhase fuel pagesHandler cfg (initial cfg))
    as [[] st1|e st1|]; cbn [try_catch holds] in H1 |- *; [| |exact I].
  - apply Hfresh; [exact H1|]. intros ->. apply (Hidle _ H1).
  - pose proof (errorPhase_pulled r fuel cfg e st1) as H2.
    destruct (useOnError cfg) as [onError|] eqn:Hue.
    + eapply holds_impl; [|exact H2]. intros st' H'. destruct r.
      * apply (pulled_from_fresh Primary (use cfg) (primary_start cfg));
          try reflexivity.
        eapply pulled_trans; [exact H1|].
        eapply pulled_trans; [|exact H'].
        apply pulled_quiet
          with (t' := [LAttemptingToHandle e; LSelectingFirstError]);
          try reflexivity.
        cbn. rewrite <- ?app_assoc. reflexivity.
      * unfold invoked_in_order, chain_of. rewrite Hue. simpl.
        apply (pulled_from_fresh ErrorChain onError (error_start onError e st1));
          try reflexivity; [exact H'|].
        destruct (Hidle _ H1) as (_ & _ & He).
        unfold error_start, caught. cbn.
        rewrite <- app_assoc, executed_app, He. reflexivity.
    + eapply holds_impl; [|exact H2]. intros st' H'.
      assert (H0 : pulled r (primary_start cfg) st')
        by (eapply pulled_trans; eassumption).
      apply Hfresh; [exact H0|]. intros ->. apply (Hidle _ H0).
Qed.

(** X1.  In every request, the middleware of [use] that are invoked are
    the functions among the items the iterator of the primary run has
    yielded, a prefix of [use]: each of them is invoked once, in the order
    of the chain, and an item that is no function never is.  The same
    holds of [useOnError] and the error handling run.  In particular the
    positions of the invocations of a run increase strictly along the log.
    (With [enough] fuel the request does come to its end.) *)
Theorem middleware_invoked_once_in_chain_order fuel pagesHandler cfg :
  holds (fun st' =>
           forall r,
             executed r (trace st') =
               fn_positions 0 (take (yielded (run r st')) (chain_of cfg r)) /\
             StronglySorted lt (executed r (trace st')))
        (withMiddleware pagesHandler cfg fuel) /\
  (enough cfg <= fuel -> returns (withMiddleware pagesHandler cfg fuel)).
Proof.
  split; [|apply run_total].
  pose proof (request_invoked_in_order fuel pagesHandler cfg Primary) as HP.
  pose proof (request_invoked_in_order fuel pagesHandler cfg ErrorChain) as HE.
  destruct (withMiddleware pagesHandler cfg fuel) as [[] st'|e st'|];
    cbn [holds] in *; auto;
    intros r; (split; [|apply (invoked_in_order_sorted cfg)]); destruct r;
    assumption.
Qed.

(** *** A run that is not aborted invokes every function of its chain *)

(** [executionCompleted] is only set once the iterator is exhausted. *)
Definition exhausted (r : run_id) (st : state) : Prop :=
  completed r st = true -> chain (run r st) = [].

Ltac exhausted_step :=
  unfold exhausted, completed; intros;
  repeat match goal with r : run_id |- _ => destruct r end;
  simpl in *; solve [auto | congruence].

Lemma startPullingChain_exhausted fuel r c st :
  holds (exhausted r) (startPullingChain fuel r c st).
Proof.
  apply holds_driver_inv with (allowed := any_action).
  apply elem_startPullingChain; try solve [exhausted_step].
  - unfold exhausted, completed. intros r0 e rest s Hchain Hex Hc.
    destruct r, r0; simpl in *; auto;
      rewrite (Hex Hc) in Hchain; discriminate Hchain.
  - apply any_chain.
  - apply any_chains.
Qed.

Lemma unaborted_run_exhausted fuel r c st st' :
  startPullingChain fuel r c st = Ok false st' ->
  completed r st' = true /\ chain (run r st') = [] /\
  pulled r (set_run r (fresh_run c) st) st'.
Proof.
  intros Hrun.
  pose proof (startPullingChain_Ok _ _ _ _ _ _ Hrun) as [Hfin Hb].
  pose proof (startPullingChain_exhausted fuel r c st) as Hex.
  pose proof (startPullingChain_pulled fuel r r c st) as Hp.
  rewrite Hrun in Hex, Hp. cbn [holds] in Hex, Hp.
  assert (Hc : completed r st' = true).
  { unfold finished in Hfin. rewrite <- Hb in Hfin. exact Hfin. }
  auto.
Qed.

(** The log of a primary run that was not aborted. *)
Lemma primary_chain_run_false_log fuel cfg st1 :
  primary_chain_run fuel cfg = Ok false st1 ->
  executed Primary (trace st1) = fn_positions 0 (use cfg).
Proof.
  intros Hrun.
  destruct (unaborted_run_exhausted _ _ _ _ _ Hrun) as (_ & Hch & Hp).
  rewrite (pulled_from_fresh Primary (use cfg) _ _ Hp); try reflexivity.
  destruct Hp as (t & consumed & _ & Hc & Hy & _).
  rewrite Hch, app_nil_r in Hc. simpl in Hc, Hy |- *.
  rewrite Hy, <- Hc, take_ge by lia. reflexivity.
Qed.


(** A chain of three functions and one item that is no function; the third
    function pulls the last one itself. *)
Definition cfg_mixed : config :=
  cfg_of [Fn [AStatus 200]; NotFn; Fn [ACallNext Current]; Fn []] None.

Definition mixed_returned : state :=
  Eval vm_compute in
    state_of (primary_chain_run 6 cfg_mixed) (initial cfg_mixed).


(** *** The terminal handler comes after the whole primary chain *)

(** The messages logged once the terminal handler has been entered. *)
Definition after_handler_event (ev : event) : bool :=
  run_event ev || error_chatter ev ||
  match ev with
  | LFinishedHandler | LSendingNotImplemented | LDone => true
  | _ => false
  end.

Lemma after_handler_log fuel cfg body st :
  holds (emitted_since (trace st) (fun ev => after_handler_event ev = true))
    (try_catch
       (let! _, st :=
          (let! _, st := run_body (pullChain fuel) InHandler body st in
           Ok tt (say LFinishedHandler st)) in
        let! _, st :=
          if negb (writableEnded st) && negb (headersSent st) then
            sendNotImplemented (say LSendingNotImplemented st)
          else Ok tt st in
        Ok tt (say LDone st))
       (errorPhase fuel cfg)).
Proof.
  set (P := fun ev => after_handler_event ev = true).
  assert (Hrun : forall ev, run_event ev = true -> after_handler_event ev = true).
  { intros ev H. unfold after_handler_event. rewrite H. reflexivity. }
  assert (Hsay : forall ev s, after_handler_event ev = true ->
            emitted_since (trace st) P s -> emitted_since (trace st) P (say ev s)).
  { intros ev s H. apply emitted_since_say. exact H. }
  assert (Herr : forall e s, emitted_since (trace st) P s ->
            holds (emitted_since (trace st) P) (errorPhase fuel cfg e s)).
  { intros e s Hs. eapply holds_impl; [|apply errorPhase_emits].
    intros s' Hs'. eapply emitted_since_trans; [exact Hs|].
    revert Hs'. apply emitted_since_weaken. intros ev Hev.
    unfold error_event in Hev. unfold P, after_handler_event.
    apply orb_true_iff in Hev. destruct Hev as [->| ->];
      [reflexivity|rewrite orb_true_r; reflexivity]. }
  pose proof (emits_body (trace st) after_handler_event Hrun fuel InHandler body
                st (emitted_since_refl _ _)) as Hb.
  destruct (run_body (pullChain fuel) InHandler body st) as [[] s1|e s1|];
    cbn [bind try_catch holds] in Hb |- *; [|apply Herr, Hb|exact I].
  assert (H1 : emitted_since (trace st) P (say LFinishedHandler s1))
    by (apply Hsay; [reflexivity|exact Hb]).
  destruct (negb (writableEnded (say LFinishedHandler s1)) &&
            negb (headersSent (say LFinishedHandler s1)));
    cbn [bind try_catch holds].
  - pose proof (emits_send (trace st) after_handler_event Hrun
                  (say LSendingNotImplemented (say LFinishedHandler s1))
                  (Hsay LSendingNotImplemented _ eq_refl H1)) as Hs.
    destruct (sendNotImplemented _) as [[] s2|e s2|];
      cbn [bind try_catch holds] in Hs |- *; [|apply Herr, Hs|exact I].
    apply Hsay; [reflexivity|exact Hs].
  - apply Hsay; [reflexivity|exact H1].
Qed.

Lemma fn_positions_length n l : length (fn_positions n l) <= length l.
Proof.
  revert n. induction l as [|e l IH]; intros n; simpl; [lia|].
  destruct e; simpl; specialize (IH (S n)); lia.
Qed.

Lemma fn_positions_take_length n k l :
  length (fn_positions n (take k l)) <= length (fn_positions n l).
Proof.
  rewrite <- (take_drop k l) at 2. rewrite fn_positions_app, length_app. lia.
Qed.


Definition mixed_final : state :=
  Eval vm_compute in
    state_of (withMiddleware (Fn [AStatus 200; AEnd]) cfg_mixed 6)
             (initial cfg_mixed).


(** ** How a request ends *)

Lemma runtime_done_sent r st :
  writableEnded (runtime_done r st) = writableEnded st /\
  headersSent (runtime_done r st) = headersSent st.
Proof.
  unfold runtime_done.
  destruct (negb (completed r st)); [destruct (negb (aborted r st))|];
    destruct r; split; reflexivity.
Qed.

(** However many wrappers sit around it, a call of [res.end] that returns
    has ended the response. *)
Lemma wrapped_end_ends ws st :
  holds (fun s => writableEnded s = true) (wrapped_end ws st).
Proof.
  revert st. induction ws as [|r send IH]; intros st; simpl; [reflexivity|].
  apply holds_bind; [apply IH|].
  intros _ st1 H1.
  destruct (negb (response_sent st)); simpl; [|exact H1].
  destruct (negb (aborted r st1) && negb (completed r st1)); simpl; [|exact H1].
  unfold call_done.
  destruct (resolve Current (ctx_done (say (LCallingDoneAfterEnd r) st1)) _);
    simpl; try exact H1.
  rewrite (proj1 (runtime_done_sent _ _)). exact H1.
Qed.

Lemma unsent_false st :
  negb (writableEnded st) && negb (headersSent st) = false ->
  response_sent st = true.
Proof.
  unfold response_sent. destruct (writableEnded st), (headersSent st);
    simpl; congruence.
Qed.

(** The [catch] block returns only when the response was sent. *)
Lemma errorPhase_Ok fuel cfg e st st' :
  errorPhase fuel cfg e st = Ok tt st' -> response_sent st' = true.
Proof.
  unfold errorPhase.
  destruct (useOnError cfg) as [onError|]; cbn [bind try_catch finally];
    [|discriminate].
  destruct (startPullingChain fuel ErrorChain onError _)
    as [b s|e' s|]; cbn [bind try_catch finally]; try discriminate.
  destruct (negb (writableEnded s) && negb (headersSent s)) eqn:Hs;
    cbn [finally]; [discriminate|].
  intros [= <-]. apply (unsent_false s Hs).
Qed.

(** X4.  A request that returns without a failure has a response: the
    stream of the response was ended or its headers are out.  (The default
    response is sent when nothing else was; an error handling chain that
    leaves the response untouched makes the request fail instead.) *)
Theorem resolved_request_has_response fuel pagesHandler cfg st' :
  withMiddleware pagesHandler cfg fuel = Ok tt st' ->
  response_sent st' = true.
Proof.
  unfold withMiddleware. rewrite primaryPhase_unfold.
  destruct (chain_and_handler fuel pagesHandler cfg) as [[] st1|e st1|] eqn:H1;
    cbn [bind try_catch]; [|apply errorPhase_Ok|discriminate].
  destruct (negb (writableEnded st1) && negb (headersSent st1)) eqn:Hsent;
    cbn [bind try_catch].
  - pose proof (wrapped_end_ends
                  (res_end (set_status 501 (say LSendingNotImplemented st1)))
                  (set_status 501 (say LSendingNotImplemented st1))) as Hend.
    unfold sendNotImplemented, call_res_end.
    destruct (wrapped_end _ _) as [[] st2|e st2|];
      cbn [bind try_catch holds] in Hend |- *;
      [|apply errorPhase_Ok|discriminate].
    intros [= <-]. unfold response_sent. cbn. rewrite Hend. reflexivity.
  - intros [= <-]. apply (unsent_false st1 Hsent).
Qed.

(** X5.  A failure of the primary chain or of the terminal handler is
    swallowed when the error handling chain returns and has sent a
    response: the request returns without a failure, whether or not the
    error handling chain was aborted. *)
Theorem handled_failure_resolves
    fuel pagesHandler cfg onError e st b st' :
  primary_failure fuel pagesHandler cfg e st ->
  useOnError cfg = Some onError ->
  error_chain_run fuel onError e st = Ok b st' ->
  response_sent st' = true ->
  withMiddleware pagesHandler cfg fuel = Ok tt (say LDoneWithErrors st').
Proof.
  intros Hfail Hue Hrun Hsent.
  rewrite (withMiddleware_after_failure _ _ _ _ _
             (primary_failure_phase _ _ _ _ _ Hfail)).
  rewrite (errorPhase_chain_returned _ _ _ _ _ _ _ Hue Hrun).
  unfold response_sent in Hsent.
  destruct (writableEnded st'), (headersSent st'); try reflexivity.
  discriminate Hsent.
Qed.

Lemma error_chain_run_keeps_log fuel onError e st :
  holds (fun s => In (LAttemptingToHandle e) (trace s))
        (error_chain_run fuel onError e st).
Proof.
  eapply holds_impl;
    [|apply (startPullingChain_pulled fuel Primary ErrorChain onError
               (say LSelectingFirstError (caught e st)))].
  intros s (t & c & Ht & _). rewrite Ht. unfold caught. cbn.
  rewrite !in_app_iff. left. left. right. left. reflexivity.
Qed.

(** X6.  A request fails in one of three ways only.  The failure [e0] of
    the primary chain or of the terminal handler is logged and stored;
    then either there is no [useOnError] and [e0] is thrown, or the error
    handling chain fails and its own failure is thrown, or the error
    handling chain returns with the response still unsent and [e0] is
    thrown. *)
Theorem failed_request_cases fuel pagesHandler cfg e st' :
  withMiddleware pagesHandler cfg fuel = Threw e st' ->
  exists e0,
    In (LAttemptingToHandle e0) (trace st') /\
    ((useOnError cfg = None /\ e = e0 /\ In LNoErrorHandlers (trace st')) \/
     (useOnError cfg <> None /\ In (LErrorInErrorChain e) (trace st')) \/
     (useOnError cfg <> None /\ e = e0 /\ response_sent st' = false)).
Proof.
  unfold withMiddleware.
  destruct (primaryPhase fuel pagesHandler cfg (initial cfg))
    as [[] st1|e0 st1|]; cbn [try_catch]; try discriminate.
  intros Herr. exists e0.
  destruct (useOnError cfg) as [onError|] eqn:Hue.
  - pose proof (error_chain_run_keeps_log fuel onError e0 st1) as Hlog.
    destruct (error_chain_run fuel onError e0 st1) as [b s|e' s|] eqn:Hrun;
      cbn [holds] in Hlog.
    + rewrite (errorPhase_chain_returned _ _ _ _ _ _ _ Hue Hrun) in Herr.
      destruct (negb (writableEnded s) && negb (headersSent s)) eqn:Hs;
        [|discriminate Herr].
      injection Herr as <- <-. split.
      * rewrite !In_say. left. left. exact Hlog.
      * right. right. split; [discriminate|]. split; [reflexivity|].
        unfold response_sent. cbn.
        destruct (writableEnded s), (headersSent s); try discriminate Hs.
        reflexivity.
    + rewrite (errorPhase_chain_threw _ _ _ _ _ _ _ Hue Hrun) in Herr.
      injection Herr as <- <-. split.
      * rewrite !In_say. left. left. left. exact Hlog.
      * right. left. split; [discriminate|].
        rewrite !In_say. left. left. right. reflexivity.
    + rewrite (errorPhase_chain_fuel _ _ _ _ _ Hue Hrun) in Herr.
      discriminate Herr.
  - rewrite (errorPhase_no_chain _ _ _ _ Hue) in Herr.
    injection Herr as <- <-. unfold caught. split.
    + rewrite !In_say. left. left. left.
      change (In (LAttemptingToHandle e0)
                 (trace (say (LAttemptingToHandle e0) st1))).
      rewrite In_say. right. reflexivity.
    + left. split; [reflexivity|]. split; [reflexivity|].
      rewrite !In_say. left. left. right. reflexivity.
Qed.

Lemma resolved_request_witness : response_sent mixed_final = true.
Proof.
  apply (resolved_request_has_response 6 (Fn [AStatus 200; AEnd]) cfg_mixed).
  vm_compute. reflexivity.
Defined.

(** The primary chain throws [bad]; the error handling middleware answers
    with status 500. *)
Definition answering : list entry := [Fn [AStatus 500; AEnd]].

Definition answering_returned : state :=
  Eval vm_compute in
    state_of (error_chain_run 3 answering bad
                (say LErrorInPrimary throwing_thrown))
             throwing_thrown.

Lemma handled_failure_witness :
  withMiddleware NotFn (cfg_of throwing (Some answering)) 3 =
    Ok tt (say LDoneWithErrors answering_returned).
Proof.
  apply (handled_failure_resolves 3 NotFn (cfg_of throwing (Some answering))
           answering bad (say LErrorInPrimary throwing_thrown) true
           answering_returned).
  - left. exists throwing_thrown. split; [vm_compute; reflexivity|reflexivity].
  - reflexivity.
  - vm_compute. reflexivity.
  - reflexivity.
Defined.

Definition unhandled_final : state :=
  Eval vm_compute in
    state_of (withMiddleware NotFn (cfg_of throwing (Some [Fn []])) 3)
             (initial (cfg_of throwing None)).

Lemma failed_request_witness :
  exists e0,
    In (LAttemptingToHandle e0) (trace unhandled_final) /\
    ((useOnError (cfg_of throwing (Some [Fn []])) = None /\ bad = e0 /\
      In LNoErrorHandlers (trace unhandled_final)) \/
     (useOnError (cfg_of throwing (Some [Fn []])) <> None /\
      In (LErrorInErrorChain bad) (trace unhandled_final)) \/
     (useOnError (cfg_of throwing (Some [Fn []])) <> None /\ bad = e0 /\
      response_sent unhandled_final = false)).
Proof.
  apply (failed_request_cases 3 NotFn (cfg_of throwing (Some [Fn []]))).
  vm_compute. reflexivity.
Defined.

(** ** Error handling middleware *)

(** X7.  No middleware of [useOnError] is invoked in a request unless a
    failure of the primary chain or of the terminal handler was caught,
    and none before the failure was caught and stored. *)
Theorem error_middleware_run_only_after_a_failure fuel pagesHandler cfg :
  holds (fun st' =>
           executed ErrorChain (trace st') = [] \/
           exists t1 e0 t2,
             trace st' = t1 ++ LAttemptingToHandle e0 :: t2 /\
             executed ErrorChain t1 = [] /\ useOnError cfg <> None)
        (withMiddleware pagesHandler cfg fuel) /\
  (enough cfg <= fuel -> returns (withMiddleware pagesHandler cfg fuel)).
Proof.
  split; [|apply run_total].
  unfold withMiddleware.
  pose proof (primaryPhase_pulled ErrorChain fuel pagesHandler cfg) as H1.
  destruct (primaryPhase fuel pagesHandler cfg (initial cfg))
    as [[] st1|e st1|]; cbn [try_catch holds] in H1 |- *; [| |exact I].
  - left. apply (pulled_idle _ _ _ H1 eq_refl).
  - destruct (pulled_idle _ _ _ H1 eq_refl) as (Hch & _ & He).
    pose proof (errorPhase_pulled ErrorChain fuel cfg e st1) as H2.
    destruct (useOnError cfg) as [onError|] eqn:Hue;
      (eapply holds_impl; [|exact H2]); intros st' H'.
    + right. destruct H' as (t & _ & Ht & _).
      exists (trace st1), e, (LSelectingFirstError :: t).
      split; [|split; [exact He|discriminate]].
      rewrite Ht. unfold error_start, caught. cbn.
      rewrite <- !app_assoc. reflexivity.
    + left. destruct (pulled_idle _ _ _ H' Hch) as (_ & _ & He').
      rewrite He'. exact He.
Qed.

(** Once the response is sent it stays sent. *)
Lemma startPullingChain_sent fuel r c st :
  response_sent st = true ->
  holds (fun s => response_sent s = true) (startPullingChain fuel r c st).
Proof.
  intros Hs. apply holds_driver_inv with (allowed := any_action).
  apply elem_startPullingChain;
    try apply any_chain; try apply any_chains;
    unfold response_sent; intros;
    repeat match goal with r : run_id |- _ => destruct r end;
    simpl in *; rewrite ?orb_true_r; auto.
Qed.

(** X8.  A failure that is raised after the response was sent does not
    reach the caller when [useOnError] is given, were it an empty array:
    if the error handling chain returns, whatever it did, the request
    returns without a failure. *)
Theorem late_failure_is_swallowed
    fuel pagesHandler cfg onError e st b st' :
  primary_failure fuel pagesHandler cfg e st ->
  response_sent st = true ->
  useOnError cfg = Some onError ->
  error_chain_run fuel onError e st = Ok b st' ->
  withMiddleware pagesHandler cfg fuel = Ok tt (say LDoneWithErrors st').
Proof.
  intros Hfail Hsent Hue Hrun.
  rewrite (withMiddleware_after_failure _ _ _ _ _
             (primary_failure_phase _ _ _ _ _ Hfail)).
  rewrite (errorPhase_chain_returned _ _ _ _ _ _ _ Hue Hrun).
  pose proof (startPullingChain_sent fuel ErrorChain onError
                (say LSelectingFirstError (caught e st)) Hsent) as Hkept.
  fold (error_chain_run fuel onError e st) in Hkept.
  rewrite Hrun in Hkept. cbn [holds] in Hkept.
  unfold response_sent in Hkept.
  destruct (writableEnded st'), (headersSent st'); try reflexivity.
  discriminate Hkept.
Qed.

(** The only middleware answers, then throws; the error handling chain is
    empty, as the factory makes it when none was configured. *)
Definition cfg_late : config :=
  cfg_of [Fn [AStatus 200; AEnd; AThrow bad]] (Some []).

Definition late_thrown : state :=
  Eval vm_compute in
    state_of (primary_chain_run 3 cfg_late) (initial cfg_late).

Definition late_returned : state :=
  Eval vm_compute in
    state_of (error_chain_run 3 [] bad (say LErrorInPrimary late_thrown))
             late_thrown.

Lemma late_failure_witness :
  withMiddleware NotFn cfg_late 3 = Ok tt (say LDoneWithErrors late_returned).
Proof.
  apply (late_failure_is_swallowed 3 NotFn cfg_late [] bad
           (say LErrorInPrimary late_thrown) false late_returned).
  - left. exists late_thrown. split; [vm_compute; reflexivity|reflexivity].
  - reflexivity.
  - reflexivity.
  - vm_compute. reflexivity.
Defined.

(** ** [runtime.error] when the terminal handler fails *)

(** What the log may hold while [runtime.error] is [v]: every invocation
    of a middleware and every read of [runtime.error] finds [v]. *)
Definition finds (v : jsval) (ev : event) : Prop :=
  match ev with
  | LExecuting _ _ v' | LReadError _ v' => v' = v
  | _ => True
  end.

(** [runtime.error] is [v], and has been since the log was [t0]. *)
Definition error_is (t0 : list event) (v : jsval) (st : state) : Prop :=
  ctx_error st = v /\ emitted_since t0 (finds v) st.

Ltac error_is_step :=
  intros;
  match goal with
  | H : error_is _ _ _ |- error_is _ _ _ =>
      let He := fresh "He" in let Hem := fresh "Hem" in
      destruct H as (He & Hem);
      split;
      [ view_frame
      | first
          [ view_same
          | apply emitted_since_say; [view_event|];
            first [assumption | view_same]
          | match goal with
            | |- emitted_since _ _ (upd_run ?r ?f (say ?ev ?st)) =>
                apply (emitted_since_same _ _ (say ev st));
                [destruct r; reflexivity
                |apply emitted_since_say; [view_event|assumption]]
            end ] ]
  end.

Lemma error_is_read t0 v w st :
  error_is t0 v st -> error_is t0 v (say (LReadError w (ctx_error st)) st).
Proof.
  intros (He & Hem). split; [exact He|].
  apply emitted_since_say; [exact He|exact Hem].
Qed.

Lemma error_is_executing t0 v r i st :
  error_is t0 v st -> error_is t0 v (say (LExecuting r i (ctx_error st)) st).
Proof.
  intros (He & Hem). split; [exact He|].
  apply emitted_since_say; [exact He|exact Hem].
Qed.

Lemma primaryPhase_error_is fuel pagesHandler cfg :
  holds (error_is [] JUndefined)
        (primaryPhase fuel pagesHandler cfg (initial cfg)).
Proof.
  apply holds_driver_inv with (allowed := any_action).
  apply elem_primaryPhase; try solve [error_is_step];
    try apply any_chain; try apply any_entry; try apply any_chains.
  - intros w st. apply error_is_read.
  - intros r i st _ _. apply error_is_executing.
  - split; [reflexivity|].
    exists [LBegin; LSelectingFirstPrimary]. split; [reflexivity|].
    repeat constructor.
Qed.

Lemma errorPhase_error_is fuel cfg e st :
  holds (error_is (trace st ++ [LAttemptingToHandle e]) e)
        (errorPhase fuel cfg e st).
Proof.
  apply holds_driver_inv with (allowed := any_action).
  apply elem_errorPhase; try solve [error_is_step];
    try apply any_chains.
  - intros w s. apply error_is_read.
  - intros r i s _ _. apply error_is_executing.
  - intros onError _. apply any_chain.
  - split; [reflexivity|]. exists []. split; [|constructor].
    simpl. rewrite app_nil_r. reflexivity.
Qed.

(** X9.  [runtime.error] is undefined for everything that runs before a
    failure is caught, the terminal handler included, and it is the
    failure caught for everything that runs afterwards: when the primary
    chain or the terminal handler fails with [e], every middleware invoked
    and every read made before finds [undefined], and every middleware
    invoked and every read made after finds [e]. *)
Theorem runtime_error_is_the_failure_caught fuel pagesHandler cfg e st :
  primary_failure fuel pagesHandler cfg e st ->
  Forall (finds JUndefined) (trace st) /\
  holds (fun st' =>
           exists t2,
             trace st' = trace st ++ LAttemptingToHandle e :: t2 /\
             Forall (finds e) t2 /\ ctx_error st' = e)
        (withMiddleware pagesHandler cfg fuel) /\
  (enough cfg <= fuel -> returns (withMiddleware pagesHandler cfg fuel)).
Proof.
  intros Hfail.
  pose proof (primary_failure_phase _ _ _ _ _ Hfail) as Hphase.
  pose proof (primaryPhase_error_is fuel pagesHandler cfg) as H1.
  rewrite Hphase in H1. destruct H1 as (_ & t & Ht & Hall).
  split; [rewrite Ht; exact Hall|]. split; [|apply run_total].
  rewrite (withMiddleware_after_failure _ _ _ _ _ Hphase).
  eapply holds_impl; [|apply errorPhase_error_is].
  intros st' (He & t2 & Ht2 & Hall2). exists t2.
  split; [rewrite Ht2, <- app_assoc; reflexivity|]. auto.
Qed.

(** The chain does nothing and the terminal handler reads
    [runtime.error], then throws; the error handling middleware reads it
    as well and answers. *)
Definition reading_handler : entry := Fn [AReadError; AThrow bad].

Definition cfg_handler_fails : config :=
  cfg_of [Fn []] (Some [Fn [AReadError; AStatus 500; AEnd]]).

Definition handler_ready : state :=
  Eval vm_compute in
    state_of (primary_chain_run 4 cfg_handler_fails)
             (initial cfg_handler_fails).

Definition handler_thrown : state :=
  Eval vm_compute in
    state_of (handler_call 4 [AReadError; AThrow bad] handler_ready)
             handler_ready.

Definition handler_fails_final : state :=
  Eval vm_compute in
    state_of (withMiddleware reading_handler cfg_handler_fails 4)
             (initial cfg_handler_fails).

Lemma runtime_error_witness :
  In (LReadError InHandler JUndefined) (trace handler_thrown) /\
  Forall (finds JUndefined) (trace handler_thrown) /\
  exists t2,
    trace handler_fails_final =
      trace handler_thrown ++ LAttemptingToHandle bad :: t2 /\
    In (LReadError (InMiddleware ErrorChain 0) bad) t2 /\
    Forall (finds bad) t2 /\ ctx_error handler_fails_final = bad.
Proof.
  assert (Hrun : withMiddleware reading_handler cfg_handler_fails 4 =
                 Ok tt handler_fails_final) by (vm_compute; reflexivity).
  destruct (runtime_error_is_the_failure_caught 4 reading_handler
              cfg_handler_fails bad handler_thrown) as (H1 & H2 & _).
  { right. exists handler_ready, [AReadError; AThrow bad].
    split; [vm_compute; reflexivity|]. split; [reflexivity|].
    vm_compute. reflexivity. }
  rewrite Hrun in H2. destruct H2 as (t2 & Ht2 & Hall & He).
  split; [vm_compute; repeat (try (left; reflexivity); right)|].
  split; [exact H1|].
  exists t2. split; [exact Ht2|]. split; [|auto].
  assert (Hin : In (LReadError (InMiddleware ErrorChain 0) bad)
                   (trace handler_fails_final))
    by (vm_compute; repeat (try (left; reflexivity); right)).
  rewrite Ht2 in Hin. apply in_app_or in Hin.
  destruct Hin as [Hin|[Hin|Hin]]; [|discriminate Hin|exact Hin].
  exfalso. rewrite List.Forall_forall in H1.
  specialize (H1 _ Hin). discriminate H1.
Defined.

(** ** Every failure is raised by a callback *)

Section Raised.

(** The values callbacks are known to fail with. *)
Variable origin : jsval -> Prop.

(** An action fails with a known value, if it fails by itself: a [throw],
    or a call through a captured reference, which may hold no function
    yet. *)
Definition may_throw (a : action) : Prop :=
  match a with
  | AThrow e => origin e
  | ACallNext (Captured _ _) | ACallDone (Captured _ _) =>
      origin not_a_function
  | _ => True
  end.

(** The context carries closures of a pull step, not the stubs it was
    created with, and the callbacks still to come fail with known values
    only. *)
Definition ready (st : state) : Prop :=
  ctx_next st <> None /\ ctx_done st <> None /\ chains_allowed may_throw st.

(** A computation that fails, fails with a known value. *)
Definition raised {A : Type} (m : result A) : Prop :=
  match m with
  | Ok _ st => ready st
  | Threw e st => ready st /\ origin e
  | OutOfFuel => True
  end.

Lemma raised_bind {A B : Type} (m : result A) (k : A -> state -> result B) :
  raised m -> (forall a st, ready st -> raised (k a st)) -> raised (bind m k).
Proof. destruct m; simpl; auto. Qed.

Lemma ready_same st st' :
  ctx_next st' = ctx_next st -> ctx_done st' = ctx_done st ->
  (forall r, chain (run r st') = chain (run r st)) ->
  ready st -> ready st'.
Proof.
  intros Hn Hd Hc (H1 & H2 & H3). unfold ready. rewrite Hn, Hd.
  repeat split; auto. eapply chains_allowed_keep; eauto.
Qed.

Ltac ready_step :=
  match goal with
  | H : ready ?st |- ready _ =>
      apply (ready_same st); [..|exact H];
      try (let r' := fresh "r" in intros r');
      repeat match goal with r : run_id |- _ => destruct r end;
      reflexivity
  end.

Lemma runtime_done_ready r st : ready st -> ready (runtime_done r st).
Proof.
  intros H. unfold runtime_done.
  destruct (negb (completed r st)); [destruct (negb (aborted r st))|];
    ready_step.
Qed.

Lemma call_done_raised c st :
  may_throw (ACallDone c) -> ready st -> raised (call_done c st).
Proof.
  intros Hc H. unfold call_done, resolve.
  destruct c as [|r cell].
  - destruct (ctx_done st) as [[r cell]|] eqn:Hd.
    + apply runtime_done_ready, H.
    + destruct H as (_ & H & _). contradiction.
  - destruct (cell <? length (chainWasPulled (run r st))); simpl.
    + apply runtime_done_ready, H.
    + split; [exact H|exact Hc].
Qed.

Lemma wrapped_end_raised ws st : ready st -> raised (wrapped_end ws st).
Proof.
  revert st. induction ws as [|r send IH]; intros st H; simpl.
  - unfold host_end. ready_step.
  - apply raised_bind; [apply IH, H|].
    intros _ st1 H1.
    destruct (negb (response_sent st)); simpl; [|exact H1].
    destruct (negb (aborted r st1) && negb (completed r st1)); simpl.
    + apply call_done_raised; [exact I|]. ready_step.
    + ready_step.
Qed.

Section Calls.

Variable pull : run_id -> state -> result unit.
Hypothesis pull_raised : forall r st, ready st -> raised (pull r st).

Lemma runtime_next_raised r cell st :
  ready st -> raised (runtime_next pull r cell st).
Proof.
  intros H. unfold runtime_next.
  destruct (negb (completed r st)); simpl; [|ready_step].
  destruct (aborted r st); simpl; [ready_step|].
  apply pull_raised. ready_step.
Qed.

Lemma action_raised w a st :
  may_throw a -> ready st -> raised (do_action pull w a st).
Proof.
  intros Ha H. destruct a; simpl; try ready_step.
  - unfold call_next, resolve. destruct c as [|r cell].
    + destruct (ctx_next st) as [[r cell]|] eqn:Hn.
      * apply runtime_next_raised, H.
      * destruct H as (H & _). contradiction.
    + destruct (cell <? length (chainWasPulled (run r st))); simpl.
      * apply runtime_next_raised, H.
      * split; [exact H|exact Ha].
  - apply call_done_raised; assumption.
  - apply wrapped_end_raised, H.
  - split; [exact H|exact Ha].
Qed.

Lemma run_body_raised w body st :
  Forall may_throw body -> ready st -> raised (run_body pull w body st).
Proof.
  intros Hb. revert st.
  induction Hb as [|a rest Ha Hrest IH]; intros st H; simpl; [exact H|].
  apply raised_bind; [apply action_raised; assumption|].
  intros _ st1 H1. apply IH, H1.
Qed.

End Calls.

Lemma pullChain_raised fuel :
  forall r st, chains_allowed may_throw st -> raised (pullChain fuel r st).
Proof.
  induction fuel as [|fuel IH]; intros r st Hc; [exact I|].
  assert (IH' : forall r st, ready st -> raised (pullChain fuel r st)).
  { intros r' st' (_ & _ & H). apply IH, H. }
  rewrite pullChain_S. cbv zeta.
  set (cell := length (chainWasPulled (run r st))).
  set (st1 := upd_run r _ st).
  assert (Hc1 : chains_allowed may_throw st1).
  { eapply chains_allowed_keep; [|exact Hc]. same_chains. }
  clearbody st1. unfold chain_next.
  destruct (chain (run r st1)) as [|item rest] eqn:Hchain.
  - cbn [raised].
    destruct (negb (completed r (say (LNoMore r) (bind_controls (r, cell) st1))));
      (split; [|split]); try (destruct r; discriminate);
      (eapply chains_allowed_keep; [|exact Hc1]);
      intros r'; destruct r', r; reflexivity.
  - set (st2 := bind_controls (r, cell) (upd_run r _ st1)).
    assert (Hitem : entry_allowed may_throw item /\
                    Forall (entry_allowed may_throw) rest).
    { specialize (Hc1 r). rewrite Hchain in Hc1. inversion Hc1; auto. }
    destruct Hitem as [Hitem Hrest].
    assert (H2 : ready st2).
    { repeat split; try discriminate.
      intros r'. unfold st2. rewrite run_bind_controls.
      destruct (decide (r' = r)) as [->|Hne].
      - rewrite run_upd_run_same. exact Hrest.
      - rewrite run_upd_run_other by exact Hne. apply Hc1. }
    clearbody st2.
    apply raised_bind.
    + destruct item as [body|].
      * apply raised_bind.
        -- apply run_body_raised; [exact IH'|exact Hitem|]. ready_step.
        -- intros _ st3 H3. cbn [raised]. ready_step.
      * cbn [raised]. ready_step.
    + intros _ st3 H3.
      destruct (aborted r st3); [cbn [raised]; ready_step|].
      destruct (negb (nth cell (chainWasPulled (run r st3)) false));
        [|exact H3].
      apply IH'. ready_step.
Qed.

Lemma startPullingChain_raised fuel r c st :
  Forall (entry_allowed may_throw) c -> chains_allowed may_throw st ->
  raised (startPullingChain fuel r c st).
Proof.
  intros Hc Hst. rewrite startPullingChain_unfold.
  assert (H0 : chains_allowed may_throw (run_start r c st)).
  { unfold run_start.
    destruct (callDoneOnEnd (set_run r (fresh_run c) st));
      (eapply chains_allowed_keep;
       [|apply (chains_allowed_fresh may_throw r c st Hc Hst)]);
      intros r'; destruct r', r; reflexivity. }
  pose proof (pullChain_raised fuel r (run_start r c st) H0) as H.
  destruct (pullChain fuel r (run_start r c st)) as [[] st1|e st1|];
    cbn [bind try_catch raised] in H |- *; [| |exact I].
  - ready_step.
  - destruct H as [H He]. split; [ready_step|exact He].
Qed.

Lemma errorPhase_raised fuel cfg e st :
  (forall onError, useOnError cfg = Some onError ->
     Forall (entry_allowed may_throw) onError) ->
  origin e -> ready st -> raised (errorPhase fuel cfg e st).
Proof.
  intros Hue He H.
  assert (Hfin : forall m : result unit,
            raised m -> raised (finally m (say LDoneWithErrors))).
  { intros [a s|e' s|]; cbn [finally raised]; intros Hm; exact Hm. }
  unfold errorPhase. apply Hfin.
  assert (H0 : ready (set_error e (say (LAttemptingToHandle e) st)))
    by ready_step.
  apply raised_bind.
  - destruct (useOnError cfg) as [onError|].
    + pose proof (startPullingChain_raised fuel ErrorChain onError
                    (say LSelectingFirstError
                       (set_error e (say (LAttemptingToHandle e) st)))
                    (Hue onError eq_refl)) as Hrun.
      destruct (startPullingChain fuel ErrorChain onError _) as [b s|e' s|];
        cbn [bind try_catch raised] in Hrun |- *; auto.
      * apply Hrun. eapply chains_allowed_keep; [|apply H0]. same_chains.
      * destruct Hrun as [Hs He'].
        { eapply chains_allowed_keep; [|apply H0]. same_chains. }
        split; [ready_step|exact He'].
    + cbn [raised]. split; [ready_step|exact He].
  - intros _ s Hs.
    destruct (negb (writableEnded s) && negb (headersSent s)); cbn [raised];
      [split; [ready_step|exact He]|exact Hs].
Qed.

Lemma withMiddleware_raised fuel pagesHandler cfg :
  Forall (entry_allowed may_throw) (use cfg) ->
  entry_allowed may_throw pagesHandler ->
  (forall onError, useOnError cfg = Some onError ->
     Forall (entry_allowed may_throw) onError) ->
  raised (withMiddleware pagesHandler cfg fuel).
Proof.
  intros Hu Hh Hue. unfold withMiddleware.
  assert (H1 : raised (primaryPhase fuel pagesHandler cfg (initial cfg))).
  { unfold primaryPhase. apply raised_bind.
    { pose proof (startPullingChain_raised fuel Primary (use cfg)
                    (say LSelectingFirstPrimary (say LBegin (initial cfg))) Hu)
        as Hrun.
      destruct (startPullingChain fuel Primary (use cfg) _) as [b s|e s|];
        cbn [try_catch raised] in Hrun |- *; auto.
      - apply Hrun. intros r; destruct r; constructor.
      - destruct Hrun as [Hs He]; [intros r; destruct r; constructor|].
        split; [ready_step|exact He]. }
    intros b st1 H1. apply raised_bind.
    { destruct pagesHandler as [body|]; [destruct b|]; cbn [raised];
        try ready_step.
      apply raised_bind.
      - apply run_body_raised; [|exact Hh|ready_step].
        intros r s (_ & _ & Hs). apply pullChain_raised, Hs.
      - intros _ st2 H2. cbn [raised]. ready_step. }
    intros _ st2 H2. apply raised_bind.
    { destruct (negb (writableEnded st2) && negb (headersSent st2));
        [|exact H2].
      unfold sendNotImplemented, call_res_end.
      apply wrapped_end_raised. ready_step. }
    intros _ st3 H3. cbn [raised]. ready_step. }
  destruct (primaryPhase fuel pagesHandler cfg (initial cfg))
    as [[] st1|e st1|]; cbn [try_catch raised] in H1 |- *; auto.
  destruct H1 as [H1 He]. apply errorPhase_raised; assumption.
Qed.

End Raised.

(** The actions of a callback, and those of all the callbacks of a
    request. *)
Definition body_of (e : entry) : list action :=
  match e with
  | Fn body => body
  | NotFn => []
  end.

Definition callback_actions (pagesHandler : entry) (cfg : config)
  : list action :=
  concat (map body_of (use cfg)) ++ body_of pagesHandler ++
  concat (map body_of (default [] (useOnError cfg))).

Lemma entries_allowed (P : action -> Prop) (l : list entry) :
  (forall a, In a (concat (map body_of l)) -> P a) ->
  Forall (entry_allowed P) l.
Proof.
  induction l as [|e l IH]; intros H; constructor.
  - destruct e as [body|]; simpl; [|exact I].
    apply List.Forall_forall. intros a Ha. apply H. simpl.
    apply in_or_app. left. exact Ha.
  - apply IH. intros a Ha. apply H. simpl. apply in_or_app. right. exact Ha.
Qed.

(** X10.  The runtime raises no failure of its own: a failure that leaves
    the handler is a value some middleware or the terminal handler threw,
    or the [TypeError] of a callback that called what is no function.  In
    particular the stubs the context is created with, which throw
    "runtime.next was called unexpectedly" and "runtime.done was called
    unexpectedly", are never reached: the first pull step replaces them
    before any callback runs, and [res.end] is wrapped no earlier. *)
Theorem failures_are_raised_by_callbacks fuel pagesHandler cfg e st' :
  withMiddleware pagesHandler cfg fuel = Threw e st' ->
  e = not_a_function \/ In (AThrow e) (callback_actions pagesHandler cfg).
Proof.
  intros Hrun.
  set (origin := fun e => e = not_a_function \/
                          In (AThrow e) (callback_actions pagesHandler cfg)).
  assert (Hin : forall a, In a (callback_actions pagesHandler cfg) ->
                          may_throw origin a).
  { intros a Ha. destruct a as [[|r c]|[|r c]| | | | | | |e']; simpl; auto;
      try (left; reflexivity).
    right. exact Ha. }
  assert (H : raised origin (withMiddleware pagesHandler cfg fuel)).
  { apply withMiddleware_raised.
    - apply entries_allowed. intros a Ha. apply Hin.
      unfold callback_actions. rewrite !in_app_iff. auto.
    - destruct pagesHandler as [body|]; simpl; [|exact I].
      apply List.Forall_forall. intros a Ha. apply Hin.
      unfold callback_actions. rewrite !in_app_iff. simpl. auto.
    - intros onError Hue. apply entries_allowed. intros a Ha. apply Hin.
      unfold callback_actions. rewrite Hue, !in_app_iff. simpl. auto. }
  rewrite Hrun in H. apply H.
Qed.

Lemma raised_by_callbacks_witness :
  bad = not_a_function \/
  In (AThrow bad)
     (callback_actions NotFn (cfg_of throwing (Some [Fn []]))).
Proof.
  apply (failures_are_raised_by_callbacks 3 NotFn
           (cfg_of throwing (Some [Fn []])) bad unhandled_final).
  vm_compute. reflexivity.
Defined.

(** ** A chain that runs to its end *)

(** What a middleware may do without stopping the chain: it does not end
    the response, call [done] or throw, and it calls no [next] but the one
    of its own context. *)
Definition quiet (a : action) : Prop :=
  match a with
  | ACallNext Current | AReadError | AStatus _ | AWrite
  | ASetOption _ _ | ADeleteOption _ => True
  | _ => False
  end.

Definition not_aborted (r : run_id) (st : state) : Prop :=
  aborted r st = false.

Lemma not_aborted_action r pull w a st :
  quiet a -> is_next a = false -> not_aborted r st ->
  holds (not_aborted r) (do_action pull w a st).
Proof.
  intros Hq Hn HJ.
  destruct a as [c|c| | | | | | |e]; simpl in *;
    try discriminate; try contradiction; exact HJ.
Qed.

Lemma not_aborted_pull r fuel :
  preserving (not_aborted r) quiet (pullChain fuel).
Proof.
  apply driver_pullChain; try apply not_aborted_action;
    unfold not_aborted, aborted; intros;
    repeat match goal with r : run_id |- _ => destruct r end;
    simpl in *; assumption.
Qed.

Lemma quiet_may_throw a : quiet a -> may_throw (fun _ => False) a.
Proof. destruct a as [[|r c]|[|r c]| | | | | | |e]; simpl; auto. Qed.

Lemma quiet_entries (c : list entry) :
  Forall (entry_allowed quiet) c ->
  Forall (entry_allowed (may_throw (fun _ => False))) c.
Proof.
  apply List.Forall_impl. intros [body|]; simpl; [|auto].
  apply List.Forall_impl. exact quiet_may_throw.
Qed.

Lemma quiet_run_returns_false fuel cfg :
  Forall (entry_allowed quiet) (use cfg) ->
  length (use cfg) + 2 < fuel ->
  exists st1, primary_chain_run fuel cfg = Ok false st1.
Proof.
  intros Hq Hf.
  pose proof (primary_chain_run_returns fuel cfg Hf) as Hret.
  assert (Hc0 : forall allowed,
            chains_allowed allowed
              (say LSelectingFirstPrimary (say LBegin (initial cfg)))).
  { intros allowed r. destruct r; constructor. }
  pose proof (startPullingChain_raised (fun _ => False) fuel Primary (use cfg)
                (say LSelectingFirstPrimary (say LBegin (initial cfg)))
                (quiet_entries _ Hq) (Hc0 _)) as Hraised.
  fold (primary_chain_run fuel cfg) in Hraised.
  unfold primary_chain_run in *. rewrite startPullingChain_unfold in *.
  set (st0 := run_start Primary (use cfg)
                (say LSelectingFirstPrimary (say LBegin (initial cfg)))) in *.
  assert (H0 : driver_inv (not_aborted Primary) quiet st0).
  { split.
    - unfold st0, run_start, not_aborted.
      destruct (callDoneOnEnd _); reflexivity.
    - intros r. unfold st0, run_start.
      destruct (callDoneOnEnd _); destruct r; simpl; auto. }
  pose proof (not_aborted_pull Primary fuel Primary st0 H0 (proj1 H0)) as HJ.
  destruct (pullChain fuel Primary st0) as [[] st1|e st1|];
    cbn [bind try_catch holds raised] in *.
  - eexists. destruct HJ as [HJ _]. unfold not_aborted, aborted in HJ.
    unfold aborted. rewrite !run_say, HJ. reflexivity.
  - destruct Hraised as [_ []].
  - contradiction Hret. reflexivity.
Qed.

(** X11.  A primary chain whose middleware are [quiet] runs to its end:
    it is not aborted and does not fail, every function of [use] is
    invoked, once and in order, and the terminal handler is invoked after
    them, whatever it does then.  ([enough] fuel is what lets the request
    come to its end.) *)
Theorem quiet_chain_reaches_the_handler fuel body cfg :
  Forall (entry_allowed quiet) (use cfg) ->
  enough cfg <= fuel ->
  (exists st1,
     primary_chain_run fuel cfg = Ok false st1 /\
     executed Primary (trace st1) = fn_positions 0 (use cfg)) /\
  (exists st',
     final_state (withMiddleware (Fn body) cfg fuel) = Some st' /\
     In LExecutingHandler (trace st')).
Proof.
  intros Hq Hf.
  assert (Hf' : length (use cfg) + 2 < fuel) by (unfold enough in Hf; lia).
  destruct (quiet_run_returns_false fuel cfg Hq Hf') as [st1 Hrun].
  split.
  - exists st1. split; [exact Hrun|].
    apply (primary_chain_run_false_log _ _ _ Hrun).
  - pose proof (run_total (Fn body) cfg fuel Hf) as Hret.
    pose proof (after_handler_log fuel cfg body (say LExecutingHandler st1))
      as Hlog.
    unfold withMiddleware in Hret |- *.
    rewrite primaryPhase_unfold in Hret |- *.
    unfold chain_and_handler, handler_call in Hret |- *.
    rewrite Hrun in Hret |- *. cbn [bind try_catch] in Hret |- *.
    match goal with
    | |- exists _, final_state ?m = _ /\ _ =>
        match type of Hlog with
        | holds _ ?m' => change m with m' in Hret |- *
        end
    end.
    match type of Hlog with
    | holds _ ?m' => destruct m' as [[] s|e s|]
    end; cbn [holds final_state] in Hlog |- *;
      [| |contradiction Hret; reflexivity];
      (exists s; split; [reflexivity|]);
      (eapply emitted_since_prefix; [exact Hlog|]);
      apply In_say; right; reflexivity.
Qed.

(** Two middleware that set the status and an option and read
    [runtime.error], the first of which pulls the second itself. *)
Definition cfg_quiet : config :=
  cfg_of [Fn [AStatus 202; ACallNext Current];
          Fn [ASetOption "seen" (JBool true); AReadError]] None.

Lemma quiet_chain_witness :
  (exists st1,
     primary_chain_run 6 cfg_quiet = Ok false st1 /\
     executed Primary (trace st1) = [0; 1]) /\
  (exists st',
     final_state (withMiddleware (Fn [AEnd]) cfg_quiet 6) = Some st' /\
     In LExecutingHandler (trace st')).
Proof.
  apply (quiet_chain_reaches_the_handler 6 [AEnd] cfg_quiet).
  - repeat constructor.
  - vm_compute. lia.
Defined.

(** What a middleware may do without stopping a chain that does not watch
    [res.end]: anything but a call of [done], a [throw] and a call of a
    [next] it captured earlier. *)
Definition peaceful (a : action) : Prop :=
  match a with
  | ACallDone _ | AThrow _ | ACallNext (Captured _ _) => False
  | _ => True
  end.

Lemma peaceful_entries (P : action -> Prop) (c : list entry) :
  (forall a, peaceful a -> P a) ->
  Forall (entry_allowed peaceful) c -> Forall (entry_allowed P) c.
Proof.
  intros HP. apply List.Forall_impl. intros [body|]; simpl; [|auto].
  apply List.Forall_impl. exact HP.
Qed.


(** Both middleware end the response, and [callDoneOnEnd] is [false]. *)
Definition cfg_unwatched : config :=
  {| descriptor := Some "/fake";
     use := [Fn [AStatus 200; AEnd]; Fn [AEnd]];
     useOnError := None;
     options := Some {[ "callDoneOnEnd" := JBool false ]} |}.


(** ** No middleware of a run is invoked after [done] aborted the run *)

(** After every message of an aborting [done] of run [r] in [t], the log
    holds no invocation of a middleware of [r]. *)
Definition after_abort (r : run_id) (t : list event) : Prop :=
  forall t1 t2, t = t1 ++ LDoneAborting r :: t2 -> executed r t2 = [].

Lemma after_abort_snoc r t ev :
  after_abort r t ->
  (executed r [ev] <> [] -> ~ In (LDoneAborting r) t) ->
  after_abort r (t ++ [ev]).
Proof.
  intros Ht Hev t1 t2 Heq.
  destruct (exists_last (l := LDoneAborting r :: t2)) as (t2' & x & Hlast);
    [discriminate|].
  rewrite Hlast in Heq. rewrite app_assoc in Heq.
  apply app_inj_tail in Heq. destruct Heq as [Ht1 <-].
  destruct t2' as [|d t2'].
  - simpl in Hlast. injection Hlast as _ ->. reflexivity.
  - simpl in Hlast. injection Hlast as <- ->.
    rewrite executed_app, (Ht t1 t2' Ht1), app_nil_l.
    destruct (executed r [ev]) as [|i l] eqn:He; [reflexivity|].
    exfalso. apply Hev; [discriminate|].
    rewrite Ht1. apply in_or_app. right. left. reflexivity.
Qed.

(** Since the log was [t0]: run [r] is aborted whenever an aborting [done]
    of [r] was logged, and no invocation follows such a message. *)
Definition abort_kept (r : run_id) (t0 : list event) (st : state) : Prop :=
  exists t, trace st = t0 ++ t /\
    (aborted r st = false -> ~ In (LDoneAborting r) t) /\
    after_abort r t.

Lemma abort_kept_same r t0 st st' :
  trace st' = trace st ->
  (aborted r st' = false -> aborted r st = false) ->
  abort_kept r t0 st -> abort_kept r t0 st'.
Proof.
  intros Ht Ha (t & H0 & H1 & H2). exists t. rewrite Ht. auto.
Qed.

Lemma abort_kept_say r t0 ev st :
  ev <> LDoneAborting r ->
  (executed r [ev] <> [] -> aborted r st = false) ->
  abort_kept r t0 st -> abort_kept r t0 (say ev st).
Proof.
  intros Hne Hex (t & H0 & H1 & H2). exists (t ++ [ev]).
  split; [rewrite trace_say, H0, app_assoc; reflexivity|]. split.
  - intros Ha Hin. apply in_app_or in Hin.
    destruct Hin as [Hin|[Hin|[]]]; [|congruence].
    apply (H1 Ha Hin).
  - apply after_abort_snoc; [exact H2|]. intros He. apply H1, Hex, He.
Qed.

Lemma abort_kept_abort r r0 t0 st :
  abort_kept r t0 st ->
  abort_kept r t0 (upd_run r0 (with_aborted true) (say (LDoneAborting r0) st)).
Proof.
  intros (t & H0 & H1 & H2). exists (t ++ [LDoneAborting r0]).
  split; [|split].
  - replace (trace (upd_run r0 (with_aborted true) (say (LDoneAborting r0) st)))
      with (trace st ++ [LDoneAborting r0]) by (destruct r0; reflexivity).
    rewrite H0, app_assoc. reflexivity.
  - intros Ha Hin. apply in_app_or in Hin.
    destruct Hin as [Hin|[Hin|[]]].
    + apply H1; [|exact Hin]. revert Ha. unfold aborted.
      destruct r, r0; simpl; congruence.
    + injection Hin as ->. revert Ha. unfold aborted.
      destruct r; simpl; discriminate.
  - apply after_abort_snoc; [exact H2|]. intros He. contradiction He.
    reflexivity.
Qed.

Lemma abort_kept_executing r r0 i t0 st :
  aborted r0 st = false -> abort_kept r t0 st ->
  abort_kept r t0 (say (LExecuting r0 i (ctx_error st)) st).
Proof.
  intros Ha. apply abort_kept_say; [discriminate|].
  simpl. destruct (decide (r0 = r)) as [->|Hne]; [intros _; exact Ha|].
  intros He. contradiction He. reflexivity.
Qed.

Ltac abort_kept_step :=
  intros;
  match goal with
  | H : abort_kept _ _ _ |- abort_kept _ _ (say ?ev ?st) =>
      apply abort_kept_say;
      [ first [ discriminate
              | match goal with
                | Hc : _ ev = true |- _ =>
                    destruct ev; simpl in Hc; discriminate
                end ]
      | first [ intros He; contradiction He; reflexivity
              | match goal with
                | Hc : _ ev = true |- _ =>
                    destruct ev; simpl in Hc; try discriminate Hc;
                    intros He; contradiction He; reflexivity
                end ]
      | first [ assumption
              | revert H; apply abort_kept_same;
                [ repeat match goal with r : run_id |- _ => destruct r end;
                  reflexivity
                | repeat match goal with r : run_id |- _ => destruct r end;
                  simpl; auto ] ] ]
  | H : abort_kept _ _ _ |- abort_kept _ _ _ =>
      revert H; apply abort_kept_same;
      [ repeat match goal with r : run_id |- _ => destruct r end; reflexivity
      | repeat match goal with r : run_id |- _ => destruct r end;
        simpl; auto; discriminate ]
  end.

Lemma startPullingChain_abort_kept fuel r c st :
  holds (abort_kept r (trace st)) (startPullingChain fuel r c st).
Proof.
  apply holds_driver_inv with (allowed := any_action).
  apply elem_startPullingChain;
    try solve [abort_kept_step]; try apply any_chain; try apply any_chains.
  - intros r0 s _ _. apply abort_kept_abort.
  - intros r0 i s Ha _. apply abort_kept_executing, Ha.
  - exists []. split; [destruct r; simpl; rewrite app_nil_r; reflexivity|].
    split; [intros _ []|].
    intros t1 t2 Heq. destruct t1; discriminate Heq.
Qed.

(** X13.  In a run of a chain, be it the primary or the error handling
    one, no middleware of the chain is invoked after a call of [done]
    has aborted the run. *)
Theorem aborted_run_invokes_nothing_more fuel r c st st' :
  final_state (startPullingChain fuel r c st) = Some st' ->
  exists t,
    trace st' = trace st ++ t /\
    forall t1 t2, t = t1 ++ LDoneAborting r :: t2 -> executed r t2 = [].
Proof.
  intros Hfinal.
  pose proof (startPullingChain_abort_kept fuel r c st) as H.
  destruct (startPullingChain fuel r c st) as [b s|e s|];
    cbn [holds final_state] in *; try discriminate Hfinal;
    injection Hfinal as <-; destruct H as (t & Ht & _ & Ha);
    exists t; split; assumption.
Qed.

(** An error handling chain whose first middleware calls [done]: the
    second one is not invoked. *)
Definition stopping : list entry := [Fn [ACallDone Current; AEnd]; Fn [AEnd]].

Definition stopping_returned : state :=
  Eval vm_compute in
    state_of (error_chain_run 4 stopping bad
                (say LErrorInPrimary throwing_thrown))
             throwing_thrown.

Lemma aborted_run_witness :
  exists t,
    trace stopping_returned =
      trace (say LSelectingFirstError
               (caught bad (say LErrorInPrimary throwing_thrown))) ++ t /\
    forall t1 t2,
      t = t1 ++ LDoneAborting ErrorChain :: t2 -> executed ErrorChain t2 = [].
Proof.
  apply (aborted_run_invokes_nothing_more 4 ErrorChain stopping
           (say LSelectingFirstError
              (caught bad (say LErrorInPrimary throwing_thrown)))
           stopping_returned).
  vm_compute. reflexivity.
Defined.

(** ** A middleware that answers stops the request *)

(** What a middleware does without touching the chain or the response
    stream: it reads [runtime.error], sets the status, writes options. *)
Definition plain (a : action) : Prop :=
  match a with
  | AReadError | AStatus _ | ASetOption _ _ | ADeleteOption _ => True
  | _ => False
  end.

(** What a middleware may do after it has answered: anything but a
    [throw] and a call through a reference it captured earlier. *)
Definition harmless (a : action) : Prop :=
  match a with
  | AThrow _ | ACallNext (Captured _ _) | ACallDone (Captured _ _) => False
  | _ => True
  end.

(** What a plain action leaves as it is. *)
Definition frame (st st' : state) : Prop :=
  writableEnded st' = writableEnded st /\ headersSent st' = headersSent st /\
  res_end st' = res_end st /\ ctx_next st' = ctx_next st /\
  ctx_done st' = ctx_done st /\ primaryRun st' = primaryRun st /\
  errorRun st' = errorRun st.

Lemma frame_refl st : frame st st.
Proof. repeat split. Qed.

Lemma frame_trans st0 st1 st2 : frame st0 st1 -> frame st1 st2 -> frame st0 st2.
Proof.
  unfold frame. intros (A1 & A2 & A3 & A4 & A5 & A6 & A7)
                       (B1 & B2 & B3 & B4 & B5 & B6 & B7).
  repeat split; congruence.
Qed.

Lemma plain_body_frame pull w body st :
  Forall plain body ->
  exists st', run_body pull w body st = Ok tt st' /\ frame st st'.
Proof.
  intros Hb. revert st.
  induction Hb as [|a rest Ha Hrest IH]; intros st; simpl.
  - exists st. split; [reflexivity|apply frame_refl].
  - destruct a; try contradiction; simpl;
      match goal with
      | |- exists st', run_body _ _ _ ?s = _ /\ _ =>
          destruct (IH s) as (st' & Hrun & Hf); exists st';
          split; [exact Hrun|];
          apply (frame_trans st s st'); [repeat split|exact Hf]
      end.
Qed.

(** The primary run is under way, [res.end] is watched by it alone, and
    nothing was sent yet. *)
Definition running (st : state) : Prop :=
  aborted Primary st = false /\ completed Primary st = false /\
  response_sent st = false /\ res_end st = [Primary].

(** The primary run was aborted and the response is sent; the control
    functions of the context are those of the primary run. *)
Definition stopped (st : state) : Prop :=
  aborted Primary st = true /\ response_sent st = true /\
  res_end st = [Primary] /\
  (exists c, ctx_next st = Some (Primary, c)) /\
  (exists c, ctx_done st = Some (Primary, c)).

(** The first [res.end] of a run that is under way. *)
Lemma first_end_stops st c c' :
  running st -> ctx_next st = Some (Primary, c) ->
  ctx_done st = Some (Primary, c') ->
  exists st', call_res_end st = Ok tt st' /\ stopped st' /\
              yielded (primaryRun st') = yielded (primaryRun st).
Proof.
  intros (Ha & Hc & Hs & Hre) Hn Hd.
  unfold call_res_end. rewrite Hre. cbn [wrapped_end bind].
  rewrite Hs. cbn [negb].
  unfold aborted, completed in *. cbn [run] in *. cbn.
  rewrite Ha, Hc. cbn.
  unfold call_done, resolve. cbn. rewrite Hd.
  unfold runtime_done, aborted, completed. cbn. rewrite Ha, Hc. cbn.
  eexists. split; [reflexivity|]. split; [|reflexivity].
  unfold stopped, aborted, response_sent. cbn.
  repeat split; eauto.
Qed.

Lemma stopped_action pull w a st :
  harmless a -> stopped st ->
  exists st', do_action pull w a st = Ok tt st' /\ stopped st' /\
              yielded (primaryRun st') = yielded (primaryRun st).
Proof.
  intros Hh (Ha & Hs & Hre & (c & Hn) & (c' & Hd)).
  assert (Hst : forall st',
            aborted Primary st' = aborted Primary st ->
            (response_sent st = true -> response_sent st' = true) ->
            res_end st' = res_end st -> ctx_next st' = ctx_next st ->
            ctx_done st' = ctx_done st -> stopped st').
  { intros st' E1 E2 E3 E4 E5. unfold stopped.
    rewrite E1, E3, E4, E5. repeat split; eauto. }
  destruct a as [[|r ce]|[|r ce]| | | | | | |e]; try contradiction; simpl.
  - (* next() *)
    unfold call_next, resolve. rewrite Hn. unfold runtime_next.
    rewrite Ha. destruct (negb (completed Primary st)); simpl;
      (eexists; split; [reflexivity|]; split; [|reflexivity]);
      apply Hst; auto.
  - (* done() *)
    unfold call_done, resolve. rewrite Hd. unfold runtime_done.
    rewrite Ha. destruct (negb (completed Primary st)); simpl;
      (eexists; split; [reflexivity|]; split; [|reflexivity]);
      apply Hst; auto.
  - eexists; split; [reflexivity|]; split; [|reflexivity]; apply Hst; auto.
  - eexists; split; [reflexivity|]; split; [|reflexivity]; apply Hst; auto.
  - eexists; split; [reflexivity|]; split; [|reflexivity]; apply Hst; auto.
    unfold response_sent. simpl. intros _. apply orb_true_r.
  - (* a further res.end(): the response was sent already *)
    unfold call_res_end. rewrite Hre. cbn [wrapped_end bind].
    rewrite Hs. cbn [negb].
    eexists; split; [reflexivity|]; split; [|reflexivity]; apply Hst; auto.
  - eexists; split; [reflexivity|]; split; [|reflexivity]; apply Hst; auto.
  - eexists; split; [reflexivity|]; split; [|reflexivity]; apply Hst; auto.
Qed.

Lemma stopped_body pull w body st :
  Forall harmless body -> stopped st ->
  exists st', run_body pull w body st = Ok tt st' /\ stopped st' /\
              yielded (primaryRun st') = yielded (primaryRun st).
Proof.
  intros Hb. revert st.
  induction Hb as [|a rest Ha Hrest IH]; intros st Hst; simpl.
  - exists st. auto.
  - destruct (stopped_action pull w a st Ha Hst) as (st1 & -> & H1 & Hy1).
    simpl. destruct (IH st1 H1) as (st2 & Hrun & H2 & Hy2).
    exists st2. split; [exact Hrun|]. split; [exact H2|congruence].
Qed.

(** Two runs that differ at most in [ranAtLeastOneMiddleware]. *)
Definition same_cursor (rs rs' : run_state) : Prop :=
  executionWasAborted rs' = executionWasAborted rs /\
  executionCompleted rs' = executionCompleted rs /\
  chain rs' = chain rs /\ yielded rs' = yielded rs /\
  chainWasPulled rs' = chainWasPulled rs.

(** A pull step that finds a plain item goes on to the next step. *)
Lemma plain_step fuel item rest st :
  running st -> chain (primaryRun st) = item :: rest ->
  entry_allowed plain item ->
  exists st2,
    pullChain (S fuel) Primary st = pullChain fuel Primary st2 /\
    running st2 /\ chain (primaryRun st2) = rest /\
    yielded (primaryRun st2) = S (yielded (primaryRun st)).
Proof.
  intros (Ha & Hc & Hs & Hre) Hchain Hitem.
  rewrite pullChain_S. cbv zeta.
  set (cell := length (chainWasPulled (run Primary st))).
  set (st1 := upd_run Primary _ st).
  assert (Hchain1 : chain (run Primary st1) = item :: rest) by exact Hchain.
  unfold chain_next. rewrite Hchain1.
  set (st2 := bind_controls (Primary, cell) (upd_run Primary _ st1)).
  assert (Hcell : forall l : list bool, nth (length l) (l ++ [false]) false = false)
    by (intros l; apply nth_snoc_length).
  assert (Hfinal : forall s,
            writableEnded s = writableEnded st ->
            headersSent s = headersSent st -> res_end s = res_end st ->
            same_cursor (primaryRun st2) (primaryRun s) ->
            aborted Primary s = false /\
            nth cell (chainWasPulled (run Primary s)) false = false /\
            running (say (LSelectingNext Primary) s) /\
            chain (primaryRun (say (LSelectingNext Primary) s)) = rest /\
            yielded (primaryRun (say (LSelectingNext Primary) s)) =
              S (yielded (primaryRun st))).
  { intros s E1 E2 E3 (E4 & E5 & E6 & E7 & E8).
    unfold running, aborted, completed, response_sent. simpl.
    rewrite E1, E2, E3, E4, E5, E6, E7, E8. unfold st2, st1. simpl.
    repeat split; try assumption. apply Hcell. }
  destruct item as [body|].
  - set (st3 := say _ st2).
    destruct (plain_body_frame (pullChain fuel)
                (InMiddleware Primary (yielded (run Primary st1))) body st3 Hitem)
      as (st4 & Hrun & F1 & F2 & F3 & F4 & F5 & F6 & F7).
    rewrite Hrun. cbn [bind].
    destruct (Hfinal (upd_run Primary (with_ran true) st4))
      as (Hab & Hn & Hr & Hch & Hy); try assumption.
    { unfold same_cursor. simpl. rewrite F6. repeat split. }
    rewrite Hab, Hn. cbn [negb].
    eexists. split; [reflexivity|]. auto.
  - cbn [bind].
    destruct (Hfinal (say (LWarnSkippingNonFunction Primary) st2))
      as (Hab & Hn & Hr & Hch & Hy); try reflexivity.
    { repeat split. }
    rewrite Hab, Hn. cbn [negb].
    eexists. split; [reflexivity|]. auto.
Qed.

(** The steps through a prefix of plain items. *)
Lemma plain_prefix before : forall fuel rest st,
  running st -> chain (primaryRun st) = before ++ rest ->
  Forall (entry_allowed plain) before ->
  exists st2,
    pullChain (length before + fuel) Primary st = pullChain fuel Primary st2 /\
    running st2 /\ chain (primaryRun st2) = rest /\
    yielded (primaryRun st2) = yielded (primaryRun st) + length before.
Proof.
  induction before as [|item before IH]; intros fuel rest st Hr Hchain Hb.
  - exists st. rewrite Nat.add_0_r. auto.
  - inversion Hb as [|? ? Hitem Hrest]; subst.
    destruct (plain_step (length before + fuel) item (before ++ rest) st
                Hr Hchain Hitem) as (st1 & Hstep & Hr1 & Hc1 & Hy1).
    destruct (IH fuel rest st1 Hr1 Hc1 Hrest) as (st2 & Hrun & Hr2 & Hc2 & Hy2).
    exists st2. split.
    { change (length (item :: before) + fuel)
        with (S (length before + fuel)).
      rewrite Hstep. exact Hrun. }
    split; [exact Hr2|]. split; [exact Hc2|]. simpl. lia.
Qed.

Lemma run_body_app pull w body1 body2 st :
  run_body pull w (body1 ++ body2) st =
    let! _, st1 := run_body pull w body1 st in run_body pull w body2 st1.
Proof.
  revert st. induction body1 as [|a body1 IH]; intros st; [reflexivity|].
  simpl. destruct (do_action pull w a st) as [[] s|e s|]; simpl; auto.
Qed.

(** The pull step that finds the middleware that answers. *)
Lemma answering_step fuel pre post rest st :
  running st -> chain (primaryRun st) = Fn (pre ++ AEnd :: post) :: rest ->
  Forall plain pre -> Forall harmless post ->
  exists st',
    pullChain (S fuel) Primary st = Ok tt st' /\
    aborted Primary st' = true /\ response_sent st' = true /\
    yielded (primaryRun st') = S (yielded (primaryRun st)).
Proof.
  intros (Ha & Hc & Hs & Hre) Hchain Hpre Hpost.
  rewrite pullChain_S. cbv zeta.
  set (cell := length (chainWasPulled (run Primary st))).
  set (st1 := upd_run Primary _ st).
  assert (Hchain1 : chain (run Primary st1) = Fn (pre ++ AEnd :: post) :: rest)
    by exact Hchain.
  unfold chain_next. rewrite Hchain1.
  set (st2 := bind_controls (Primary, cell) (upd_run Primary _ st1)).
  set (st3 := say _ st2).
  rewrite run_body_app.
  destruct (plain_body_frame (pullChain fuel)
              (InMiddleware Primary (yielded (run Primary st1))) pre st3 Hpre)
    as (st4 & Hrun & F1 & F2 & F3 & F4 & F5 & F6 & F7).
  rewrite Hrun. cbn [bind run_body do_action].
  assert (Hr4 : running st4).
  { unfold running, aborted, completed, response_sent. cbn [run].
    rewrite F1, F2, F3, F6. unfold st3, st2, st1. cbn.
    repeat split; assumption. }
  destruct (first_end_stops st4 cell cell Hr4) as (st5 & Hend & Hst5 & Hy5).
  { rewrite F4. reflexivity. }
  { rewrite F5. reflexivity. }
  rewrite Hend. cbn [bind].
  destruct (stopped_body (pullChain fuel)
              (InMiddleware Primary (yielded (run Primary st1))) post st5
              Hpost Hst5) as (st6 & Hrun6 & Hst6 & Hy6).
  rewrite Hrun6. cbn [bind]. destruct Hst6 as (Ha6 & Hs6 & _).
  assert (Hab : aborted Primary (upd_run Primary (with_ran true) st6) = true)
    by exact Ha6.
  rewrite Hab.
  eexists. split; [reflexivity|].
  split; [exact Ha6|]. split; [exact Hs6|].
  cbn. rewrite Hy6, Hy5, F6. reflexivity.
Qed.

Lemma answering_run fuel cfg before pre post after :
  callDoneOnEnd (initial cfg) = true ->
  use cfg = before ++ Fn (pre ++ AEnd :: post) :: after ->
  Forall (entry_allowed plain) before ->
  Forall plain pre -> Forall harmless post ->
  length before < fuel ->
  exists st1,
    primary_chain_run fuel cfg = Ok true st1 /\
    response_sent st1 = true /\
    yielded (primaryRun st1) = S (length before).
Proof.
  intros Hopt Huse Hbefore Hpre Hpost Hfuel.
  unfold primary_chain_run. rewrite startPullingChain_unfold.
  set (st0 := run_start Primary (use cfg)
                (say LSelectingFirstPrimary (say LBegin (initial cfg)))).
  assert (Hstart : running st0 /\ chain (primaryRun st0) = use cfg /\
                   yielded (primaryRun st0) = 0).
  { unfold st0, run_start. rewrite callDoneOnEnd_set_run.
    change (callDoneOnEnd (say LSelectingFirstPrimary (say LBegin (initial cfg))))
      with (callDoneOnEnd (initial cfg)).
    rewrite Hopt. repeat split. }
  destruct Hstart as (Hr0 & Hc0 & Hy0). clearbody st0.
  replace fuel with (length before + S (fuel - S (length before))) by lia.
  rewrite Huse in Hc0.
  destruct (plain_prefix before (S (fuel - S (length before))) _ st0
              Hr0 Hc0 Hbefore) as (st2 & Hrun2 & Hr2 & Hc2 & Hy2).
  rewrite Hrun2.
  destruct (answering_step (fuel - S (length before)) pre post after st2
              Hr2 Hc2 Hpre Hpost) as (st3 & Hrun3 & Ha3 & Hs3 & Hy3).
  rewrite Hrun3. cbn [bind try_catch].
  eexists. split.
  - f_equal. unfold aborted. rewrite !run_say. exact Ha3.
  - split; [exact Hs3|]. cbn. rewrite Hy3, Hy2, Hy0. reflexivity.
Qed.


(** A middleware that sets a header-like option, then one that refuses the
    request with status 403; a third middleware and the handler would
    answer with status 200. *)
Definition cfg_refusing : config :=
  cfg_of [Fn [ASetOption "seen" (JBool true)];
          Fn [AStatus 403; AEnd; ACallNext Current];
          Fn [AStatus 200; AEnd]] None.


(** ** The nesting of pull steps *)

(** X14.  However the callbacks call [next], however often and through
    whatever closure, the calls of [pullChain] never nest deeper than the
    number of items of the two chains plus four: with that much fuel the
    request ends, returning or throwing, and more fuel does not change
    what it ends with. *)
Theorem request_ends_within_chain_lengths pagesHandler cfg fuel :
  enough cfg <= fuel ->
  returns (withMiddleware pagesHandler cfg fuel) /\
  withMiddleware pagesHandler cfg fuel =
    withMiddleware pagesHandler cfg (enough cfg).
Proof.
  intros Hf. split; [apply run_total, Hf|].
  replace fuel with (enough cfg + (fuel - enough cfg)) by lia.
  apply withMiddleware_enough.
Qed.


Lemma request_ends_witness :
  returns (withMiddleware (Fn [AStatus 200; AEnd]) cfg_mixed 9) /\
  withMiddleware (Fn [AStatus 200; AEnd]) cfg_mixed 9 =
    withMiddleware (Fn [AStatus 200; AEnd]) cfg_mixed (enough cfg_mixed).
Proof.
  apply (request_ends_within_chain_lengths (Fn [AStatus 200; AEnd]) cfg_mixed 9).
  vm_compute. lia.
Defined.
(** ** More about the factory *)

(** X15.  The options a handler built by the factory starts with: a key
    passed to the handler wins over the same key of the preset, and both
    win over the default [callDoneOnEnd: true]; a key that neither of them
    holds is absent, but for [callDoneOnEnd]. *)
Theorem factory_option_precedence d p k :
  ctx_options (initial (factory_config d p)) !! k =
    match spread (passedOptions p) !! k with
    | Some v => Some v
    | None =>
        match spread (defaultOptions d) !! k with
        | Some v => Some v
        | None =>
            if decide (k = "callDoneOnEnd") then Some (JBool true) else None
        end
    end.
Proof.
  change (ctx_options (initial (factory_config d p)))
    with (spread (passedOptions p) ∪ spread (defaultOptions d)
          ∪ ({[ "callDoneOnEnd" := JBool true ]} : gmap string jsval)).
  rewrite !lookup_union, lookup_singleton.
  destruct (spread (passedOptions p) !! k) as [v|];
    destruct (spread (defaultOptions d) !! k) as [v'|];
    destruct (decide (k = "callDoneOnEnd")) as [->|Hne];
    rewrite ?decide_True, ?decide_False by congruence;
    reflexivity.
Qed.

(** What a request reads of its configuration. *)
Lemma withMiddleware_ext pagesHandler cfg cfg' fuel :
  initial cfg' = initial cfg -> use cfg' = use cfg ->
  useOnError cfg' = useOnError cfg ->
  withMiddleware pagesHandler cfg' fuel = withMiddleware pagesHandler cfg fuel.
Proof.
  intros Hi Hu Hue. unfold withMiddleware, primaryPhase, errorPhase.
  rewrite Hi, Hu, Hue. reflexivity.
Qed.

(** The parameters that name the endpoint and nothing else. *)
Definition only_descriptor (ds : option string) : params :=
  {| p_descriptor := ds; prependUse := None; appendUse := None;
     prependUseOnError := None; appendUseOnError := None;
     passedOptions := None |}.


(** ** The checks [withMiddleware] makes on its arguments *)

(** An argument as JavaScript passes it, before [config] gives it a type:
    an array of items, or some other value. *)
Inductive argument : Type :=
| Array (items : list entry)
| NotArray (v : jsval).

(** [Array.isArray(a)] *)
Definition isArray (a : argument) : bool :=
  match a with
  | Array _ => true
  | NotArray _ => false
  end.

(** Truthiness of an argument: an array is an object, hence truthy. *)
Definition given (a : argument) : bool :=
  match a with
  | Array _ => true
  | NotArray v => truthy v
  end.

Record arguments : Type := {
  arg_descriptor : option string;
  arg_use : argument;
  arg_useOnError : argument;      (* left out: [NotArray JUndefined] *)
  arg_options : option (gmap string jsval)
}.

Definition use_must_be_an_array : jsval :=
  JError "TypeError: withMiddleware `use` parameter must be an array".

Definition useOnError_must_be_an_array : jsval :=
  JError "withMiddleware `useOnError` parameter must be an array".

(** The configuration the returned handler works with.  Its
    [if (useOnError)] takes any falsy value for a chain that was left
    out. *)
Definition checked_config (a : arguments) (u : list entry) : config :=
  {| descriptor := arg_descriptor a;
     use := u;
     useOnError :=
       match arg_useOnError a with
       | Array onError => Some onError
       | NotArray _ => None
       end;
     options := arg_options a |}.

(** [withMiddleware] from its call to the handler it returns: the value
    thrown by a check, or the handler. *)
Definition withMiddleware_checked (pagesHandler : entry) (a : arguments)
  : jsval + (nat -> result unit) :=
  match arg_use a with
  | NotArray _ => inl use_must_be_an_array
  | Array u =>
      if given (arg_useOnError a) && negb (isArray (arg_useOnError a)) then
        inl useOnError_must_be_an_array
      else inr (withMiddleware pagesHandler (checked_config a u))
  end.

(** X17.  [withMiddleware] throws before it returns a handler exactly
    when [use] is no array, or [useOnError] is truthy and no array; the
    check of [use] comes first.  A [useOnError] that is falsy (left out,
    [false], the empty string) passes although it is no array, and the
    handler then treats a failure as it does without error handling
    chain: it throws it to its caller. *)
Theorem withMiddleware_checks_its_arguments pagesHandler a :
  (isArray (arg_use a) = false ->
   withMiddleware_checked pagesHandler a = inl use_must_be_an_array) /\
  (isArray (arg_use a) = true ->
   given (arg_useOnError a) = true -> isArray (arg_useOnError a) = false ->
   withMiddleware_checked pagesHandler a = inl useOnError_must_be_an_array) /\
  (forall u, arg_use a = Array u ->
   given (arg_useOnError a) = false ->
   withMiddleware_checked pagesHandler a =
     inr (withMiddleware pagesHandler (checked_config a u)) /\
   forall fuel e st,
     primary_failure fuel pagesHandler (checked_config a u) e st ->
     withMiddleware pagesHandler (checked_config a u) fuel =
       Threw e (say LDoneWithErrors
                  (say LThrowingUnhandled
                     (say LNoErrorHandlers (caught e st))))) /\
  (forall u onError, arg_use a = Array u -> arg_useOnError a = Array onError ->
   withMiddleware_checked pagesHandler a =
     inr (withMiddleware pagesHandler
            {| descriptor := arg_descriptor a; use := u;
               useOnError := Some onError; options := arg_options a |})).
Proof.
  unfold withMiddleware_checked. split; [|split; [|split]].
  - destruct (arg_use a); [discriminate|reflexivity].
  - destruct (arg_use a); [|discriminate].
    intros _ -> ->. reflexivity.
  - intros u Hu Hg. rewrite Hu, Hg. split; [reflexivity|].
    intros fuel e st Hfail.
    rewrite (withMiddleware_after_failure _ _ _ _ _
               (primary_failure_phase _ _ _ _ _ Hfail)).
    apply errorPhase_no_chain. unfold checked_config. simpl.
    destruct (arg_useOnError a); [discriminate Hg|reflexivity].
  - intros u onError -> Hue. unfold checked_config. rewrite Hue. reflexivity.
Qed.

(** * Two middleware of next-adhesive

    A middleware of the package is a function of the request, the response
    and the context.  What it does is a sequence of calls on what it
    imports (the environment, the rate limiter, the header checks, the
    helpers that send a response) and on the response.  Each middleware
    is modelled by the calls it makes, in order, and by the value it
    rejects with, if any; what the imported functions answer is an
    argument of the model. *)

(** ** [limit-request] *)

Module LimitRequest.

(** [getEnv()], as far as the middleware reads it: whether each of the two
    settings is truthy. *)
Record environment : Type := {
  LOCKOUT_ALL_CLIENTS : bool;
  IGNORE_RATE_LIMITS : bool
}.

(** What [isclientRateLimited] resolves to.  The time to wait is a number
    of milliseconds, taken here to be an integer. *)
Record verdict : Type := {
  isLimited : bool;
  retryAfter : Z
}.

Inductive message : Type :=
| EnteredRuntime
| AllClientsLockedOut
| SkippedCheck
| ClientIsRateLimited
| ClientNotRateLimited.

Inductive call : Type :=
| Debug (m : message)
| SendHttpUnauthorized (error : string)
| IsClientRateLimited
| SetHeader (name : string) (value : Z)
| SendHttpRateLimited (retryAfter : Z).

(** [Math.ceil(n / 1000)] *)
Definition ceil_thousandth (n : Z) : Z := (- ((- n) / 1000))%Z.

(** The middleware.  [limiter] is what [await isclientRateLimited(req)]
    yields: the value the promise rejects with, or the verdict. *)
Definition limitRequest (env : environment) (limiter : jsval + verdict)
  : list call * option jsval :=
  if LOCKOUT_ALL_CLIENTS env then
    ([Debug EnteredRuntime; Debug AllClientsLockedOut;
      SendHttpUnauthorized "backend has temporarily locked out all clients"],
     None)
  else if IGNORE_RATE_LIMITS env then
    ([Debug EnteredRuntime; Debug SkippedCheck], None)
  else
    match limiter with
    | inl e => ([Debug EnteredRuntime; IsClientRateLimited], Some e)
    | inr v =>
        if isLimited v then
          ([Debug EnteredRuntime; IsClientRateLimited;
            Debug ClientIsRateLimited;
            SetHeader "Retry-After" (ceil_thousandth (retryAfter v));
            SendHttpRateLimited (retryAfter v)],
           None)
        else
          ([Debug EnteredRuntime; IsClientRateLimited;
            Debug ClientNotRateLimited],
           None)
    end.

(** The calls that send a response. *)
Definition is_response (c : call) : bool :=
  match c with
  | SendHttpUnauthorized _ | SendHttpRateLimited _ => true
  | _ => false
  end.

Definition responses (calls : list call) : list call :=
  List.filter is_response calls.

(** X18.  The middleware sends at most one response, and it asks the
    rate limiter exactly when neither setting is given.  When all clients
    are locked out the request is answered as unauthorized, whatever
    [IGNORE_RATE_LIMITS] says and without a word from the limiter; and
    when the limiter is asked and does not report the client as limited,
    or is not asked because limits are ignored, no response is sent. *)
Theorem limit_request_answers_at_most_once env limiter :
  let calls := fst (limitRequest env limiter) in
  length (responses calls) <= 1 /\
  (In IsClientRateLimited calls <->
   LOCKOUT_ALL_CLIENTS env = false /\ IGNORE_RATE_LIMITS env = false) /\
  (LOCKOUT_ALL_CLIENTS env = true ->
   exists error, responses calls = [SendHttpUnauthorized error]) /\
  (LOCKOUT_ALL_CLIENTS env = false ->
   (responses calls <> [] <->
    IGNORE_RATE_LIMITS env = false /\
    exists v, limiter = inr v /\ isLimited v = true)).
Proof.
  destruct env as [lockout ignore]. unfold limitRequest.
  cbn [LOCKOUT_ALL_CLIENTS IGNORE_RATE_LIMITS].
  destruct lockout.
  { cbn. split; [lia|]. split; [|split].
    - split; [intros [H|[H|[H|[]]]]; discriminate H|].
      intros [H _]. discriminate H.
    - intros _. eexists. reflexivity.
    - discriminate. }
  destruct ignore.
  { cbn. split; [lia|]. split; [|split].
    - split; [intros [H|[H|[]]]; discriminate H|].
      intros [_ H]. discriminate H.
    - discriminate.
    - intros _. split; [intros H; contradiction H; reflexivity|].
      intros [H _]. discriminate H. }
  destruct limiter as [e|[limited after]]; [|destruct limited]; cbn;
    (split; [lia|]);
    (split; [split; [auto|intros _; right; left; reflexivity]|]);
    (split; [discriminate|]); intros _.
  - split; [intros H; contradiction H; reflexivity|].
    intros (_ & v & H & _). discriminate H.
  - split; [|discriminate]. intros _. split; [reflexivity|].
    eexists. split; reflexivity.
  - split; [intros H; contradiction H; reflexivity|].
    intros (_ & v & H & Hl). injection H as <-. discriminate Hl.
Qed.

(** X19.  A [Retry-After] header is set only for a client the limiter
    reports as limited.  It is set before the response is sent, and its
    value is the time to wait in whole seconds, rounded up: the least
    number of seconds that is no less than the [retryAfter] milliseconds
    sent in the body. *)
Theorem retry_after_is_rounded_up env limiter name seconds :
  In (SetHeader name seconds) (fst (limitRequest env limiter)) ->
  name = "Retry-After" /\
  exists v,
    limiter = inr v /\ isLimited v = true /\
    (1000 * (seconds - 1) < retryAfter v <= 1000 * seconds)%Z /\
    exists before,
      fst (limitRequest env limiter) =
        before ++ [SetHeader name seconds; SendHttpRateLimited (retryAfter v)] /\
      responses before = [] /\
      snd (limitRequest env limiter) = None.
Proof.
  unfold limitRequest.
  destruct (LOCKOUT_ALL_CLIENTS env);
    [cbn; intros [H|[H|[H|[]]]]; discriminate H|].
  destruct (IGNORE_RATE_LIMITS env);
    [cbn; intros [H|[H|[]]]; discriminate H|].
  destruct limiter as [e|v];
    [cbn; intros [H|[H|[]]]; discriminate H|].
  destruct (isLimited v) eqn:Hl;
    [|cbn; intros [H|[H|[H|[]]]]; discriminate H].
  cbn. intros [H|[H|[H|[H|[H|[]]]]]]; try discriminate H.
  injection H as <- <-. split; [reflexivity|].
  exists v. split; [reflexivity|]. split; [exact Hl|]. split.
  - unfold ceil_thousandth.
    pose proof (Z.div_mod (- retryAfter v) 1000 ltac:(lia)) as Hd.
    pose proof (Z.mod_pos_bound (- retryAfter v) 1000 ltac:(lia)) as Hm.
    lia.
  - exists [Debug EnteredRuntime; IsClientRateLimited; Debug ClientIsRateLimited].
    repeat split.
Qed.

(** The case of the unit tests: the client has to wait 12 344 ms. *)
Definition no_settings : environment :=
  {| LOCKOUT_ALL_CLIENTS := false; IGNORE_RATE_LIMITS := false |}.

Definition limited_client : jsval + verdict :=
  inr {| isLimited := true; retryAfter := 12344 |}.

Lemma retry_after_witness :
  "Retry-After" = "Retry-After" /\
  exists v,
    limited_client = inr v /\ isLimited v = true /\
    (1000 * (13 - 1) < retryAfter v <= 1000 * 13)%Z /\
    exists before,
      fst (limitRequest no_settings limited_client) =
        before ++ [SetHeader "Retry-After" 13;
                   SendHttpRateLimited (retryAfter v)] /\
      responses before = [] /\
      snd (limitRequest no_settings limited_client) = None.
Proof.
  apply (retry_after_is_rounded_up no_settings limited_client
           "Retry-After" 13).
  vm_compute. auto 10.
Defined.

End LimitRequest.

(** ** [auth-request] *)

Module AuthRequest.

(** A field of the object [requiresAuth] can be: left out, one name, or
    an array of names. *)
Inductive field : Type :=
| Absent
| One (name : string)
| Many (names : list string).

(** Truthiness of a field: the empty string is falsy, an array is not. *)
Definition given (f : field) : bool :=
  match f with
  | Absent => false
  | One name => negb (String.eqb name "")
  | Many _ => true
  end.

(** [context.options.requiresAuth], as far as the middleware tells values
    apart. *)
Inductive setting : Type :=
| Undefined
| Null
| Boolean (b : bool)
| Object (allowedSchemes constraints : field)
| Other (is_truthy : bool).        (* a number, a string, a function, ... *)

(** [typeof v === 'boolean'] and [typeof v === 'object'] *)
Definition is_boolean (v : setting) : bool :=
  match v with Boolean _ => true | _ => false end.

Definition is_object (v : setting) : bool :=
  match v with Null | Object _ _ => true | _ => false end.

Definition is_truthy (v : setting) : bool :=
  match v with
  | Undefined | Null => false
  | Boolean b => b
  | Object _ _ => true
  | Other t => t
  end.

(** [v !== true ? v?.allowedSchemes : undefined], and the same for
    [constraints]: a value that is no object has neither property. *)
Definition allowedSchemes_of (v : setting) : field :=
  match v with
  | Object schemes _ => schemes
  | _ => Absent
  end.

Definition constraints_of (v : setting) : field :=
  match v with
  | Object _ constraints => constraints
  | _ => Absent
  end.

Inductive message : Type :=
| EnteredRuntime
| AuthenticationFailed (reason : jsval)
| AuthenticationSucceeded
| AuthorizationRequired (constraints : field)
| AuthorizationFailed (reason : jsval)
| AuthorizationSucceeded
| SkippedAuthorization
| SkippedAllChecks.

Inductive call : Type :=
| Debug (m : message)
| AuthenticateHeader (header : option string) (allowedSchemes : field)
| SendHttpUnauthenticated
| AuthorizeHeader (header : option string) (constraints : field)
| SendHttpUnauthorized.

(** What the middleware rejects with. *)
Inductive failure : Type :=
| InvalidAppConfigurationError
| Rejection (e : jsval).           (* of a promise the middleware awaits *)

(** The reason a failed check is logged with: [error || 'bad Authorization
    header']. *)
Definition reason (error : jsval) : jsval :=
  if truthy error then error else JStr "bad Authorization header".

Section Checks.

(** The two checks of [universe-auth]: each resolves to a flag and an
    error, or rejects. *)
Variable authenticateHeader :
  option string -> field -> jsval + (bool * jsval).
Variable authorizeHeader :
  option string -> field -> jsval + (bool * jsval).

(** The authorization part, entered once the client is authenticated. *)
Definition authorize (header : option string) (requiresAuth : setting)
  : list call * option failure :=
  let constraints := constraints_of requiresAuth in
  if given constraints then
    match authorizeHeader header constraints with
    | inl e =>
        ([Debug (AuthorizationRequired constraints);
          AuthorizeHeader header constraints],
         Some (Rejection e))
    | inr (authorized, authorizationError) =>
        ([Debug (AuthorizationRequired constraints);
          AuthorizeHeader header constraints]
         ++ (if negb authorized || truthy authorizationError then
               [Debug (AuthorizationFailed (reason authorizationError));
                SendHttpUnauthorized]
             else [])
         ++ [Debug AuthorizationSucceeded],
         None)
    end
  else ([Debug SkippedAuthorization], None).

(** The middleware; [header] is [req.headers.authorization]. *)
Definition authRequest (header : option string) (requiresAuth : setting)
  : list call * option failure :=
  if negb (is_boolean requiresAuth) &&
     (negb (is_truthy requiresAuth) || negb (is_object requiresAuth))
  then ([Debug EnteredRuntime], Some InvalidAppConfigurationError)
  else if is_truthy requiresAuth then
    let allowedSchemes := allowedSchemes_of requiresAuth in
    match authenticateHeader header allowedSchemes with
    | inl e =>
        ([Debug EnteredRuntime; AuthenticateHeader header allowedSchemes],
         Some (Rejection e))
    | inr (authenticated, authenticationError) =>
        if negb authenticated || truthy authenticationError then
          ([Debug EnteredRuntime; AuthenticateHeader header allowedSchemes;
            Debug (AuthenticationFailed (reason authenticationError));
            SendHttpUnauthenticated],
           None)
        else
          let (calls, rejected) := authorize header requiresAuth in
          ([Debug EnteredRuntime; AuthenticateHeader header allowedSchemes;
            Debug AuthenticationSucceeded] ++ calls,
           rejected)
    end
  else ([Debug EnteredRuntime; Debug SkippedAllChecks], None).

(** The calls that send a response, and those that consult a check. *)
Definition is_response (c : call) : bool :=
  match c with
  | SendHttpUnauthenticated | SendHttpUnauthorized => true
  | _ => false
  end.

Definition is_check (c : call) : bool :=
  match c with
  | AuthenticateHeader _ _ | AuthorizeHeader _ _ => true
  | _ => false
  end.

(** The client passed the authentication check. *)
Definition authenticated_by (header : option string) (v : setting) : Prop :=
  exists error,
    authenticateHeader header (allowedSchemes_of v) = inr (true, error) /\
    truthy error = false.


(** X21.  The middleware sends at most one response.  It answers
    "unauthenticated" only after the authentication check failed, and
    "unauthorized" only for a client that passed the authentication check
    and failed the authorization check; the authorization check is
    consulted for authenticated clients only, and only when constraints
    are given. *)
Theorem auth_request_answers_in_order header v :
  let calls := fst (authRequest header v) in
  length (List.filter is_response calls) <= 1 /\
  (In SendHttpUnauthenticated calls ->
   exists authenticated error,
     authenticateHeader header (allowedSchemes_of v) =
       inr (authenticated, error) /\
     (authenticated = false \/ truthy error = true)) /\
  (forall h c, In (AuthorizeHeader h c) calls ->
     h = header /\ c = constraints_of v /\ given c = true /\
     authenticated_by header v) /\
  (In SendHttpUnauthorized calls ->
   authenticated_by header v /\
   exists authorized error,
     authorizeHeader header (constraints_of v) = inr (authorized, error) /\
     (authorized = false \/ truthy error = true)).
Proof.
  unfold authRequest, authorize.
  destruct (negb (is_boolean v) &&
            (negb (is_truthy v) || negb (is_object v))).
  { cbn. split; [lia|]. split; [intros [H|[]]; discriminate H|].
    split; [intros h c [H|[]]; discriminate H|].
    intros [H|[]]; discriminate H. }
  destruct (is_truthy v).
  2:{ cbn. split; [lia|]. split; [intros [H|[H|[]]]; discriminate H|].
      split; [intros h c [H|[H|[]]]; discriminate H|].
      intros [H|[H|[]]]; discriminate H. }
  destruct (authenticateHeader header (allowedSchemes_of v))
    as [e|[authenticated error]] eqn:Hauth.
  { cbn. split; [lia|]. split; [intros [H|[H|[]]]; discriminate H|].
    split; [intros h c [H|[H|[]]]; discriminate H|].
    intros [H|[H|[]]]; discriminate H. }
  destruct (negb authenticated || truthy error) eqn:Hfail.
  { cbn. split; [lia|]. split; [|split].
    - intros _. exists authenticated, error. split; [reflexivity|].
      apply orb_true_iff in Hfail. destruct Hfail as [H|H]; [left|right; exact H].
      destruct authenticated; [discriminate H|reflexivity].
    - intros h c [H|[H|[H|[H|[]]]]]; discriminate H.
    - intros [H|[H|[H|[H|[]]]]]; discriminate H. }
  apply orb_false_iff in Hfail. destruct Hfail as [Ha He].
  destruct authenticated; [|discriminate Ha].
  assert (Hby : authenticated_by header v) by (exists error; auto).
  destruct (given (constraints_of v)) eqn:Hgiven.
  2:{ cbn. split; [lia|].
      split; [intros [H|[H|[H|[H|[]]]]]; discriminate H|].
      split; [intros h c [H|[H|[H|[H|[]]]]]; discriminate H|].
      intros [H|[H|[H|[H|[]]]]]; discriminate H. }
  destruct (authorizeHeader header (constraints_of v))
    as [e|[authorized error']] eqn:Hauthz.
  { cbn. split; [lia|].
    split; [intros [H|[H|[H|[H|[H|[]]]]]]; discriminate H|]. split.
    - intros h c [H|[H|[H|[H|[H|[]]]]]]; try discriminate H.
      injection H as <- <-. auto.
    - intros [H|[H|[H|[H|[H|[]]]]]]; discriminate H. }
  destruct (negb authorized || truthy error') eqn:Hfail'; cbn.
  - split; [lia|].
    split; [intros [H|[H|[H|[H|[H|[H|[H|[H|[]]]]]]]]]; discriminate H|].
    split.
    + intros h c [H|[H|[H|[H|[H|[H|[H|[H|[]]]]]]]]]; try discriminate H.
      injection H as <- <-. auto.
    + intros _. split; [exact Hby|].
      exists authorized, error'. split; [reflexivity|].
      apply orb_true_iff in Hfail'.
      destruct Hfail' as [H|H]; [left|right; exact H].
      destruct authorized; [discriminate H|reflexivity].
  - split; [lia|].
    split; [intros [H|[H|[H|[H|[H|[H|[]]]]]]]; discriminate H|].
    split.
    + intros h c [H|[H|[H|[H|[H|[H|[]]]]]]]; try discriminate H.
      injection H as <- <-. auto.
    + intros [H|[H|[H|[H|[H|[H|[]]]]]]]; discriminate H.
Qed.

(** X22.  When the authorization check fails, the middleware answers
    "unauthorized" and then goes on to log that the authorization check
    succeeded: the message is logged after every authorization check that
    resolved, whatever it resolved to. *)
Theorem authorization_success_is_logged_regardless header v authorized error :
  snd (authRequest header v) = None ->
  In (AuthorizeHeader header (constraints_of v)) (fst (authRequest header v)) ->
  authorizeHeader header (constraints_of v) = inr (authorized, error) ->
  exists before,
    fst (authRequest header v) = before ++ [Debug AuthorizationSucceeded] /\
    (authorized = false \/ truthy error = true ->
     exists before',
       before = before' ++ [Debug (AuthorizationFailed (reason error));
                            SendHttpUnauthorized]).
Proof.
  unfold authRequest, authorize.
  destruct (negb (is_boolean v) &&
            (negb (is_truthy v) || negb (is_object v)));
    [discriminate|].
  destruct (is_truthy v); [|intros _ [H|[H|[]]]; discriminate H].
  destruct (authenticateHeader header (allowedSchemes_of v))
    as [e|[authenticated error0]]; [discriminate|].
  destruct (negb authenticated || truthy error0);
    [intros _ [H|[H|[H|[H|[]]]]]; discriminate H|].
  destruct (given (constraints_of v));
    [|intros _ [H|[H|[H|[H|[]]]]]; discriminate H].
  intros Hres _ Hauthz. rewrite Hauthz in Hres |- *. cbn [fst snd].
  set (checked := [Debug EnteredRuntime;
                   AuthenticateHeader header (allowedSchemes_of v);
                   Debug AuthenticationSucceeded;
                   Debug (AuthorizationRequired (constraints_of v));
                   AuthorizeHeader header (constraints_of v)]).
  destruct (negb authorized || truthy error) eqn:Hfail.
  - exists (checked ++ [Debug (AuthorizationFailed (reason error));
                        SendHttpUnauthorized]).
    split; [reflexivity|]. intros _. exists checked. reflexivity.
  - exists checked. split; [reflexivity|].
    intros [->|H]; [discriminate Hfail|].
    rewrite H, orb_true_r in Hfail. discriminate Hfail.
Qed.

End Checks.

(** A client that is authenticated, and lacks what the endpoint asks
    for. *)
Definition authenticates (header : option string) (schemes : field)
  : jsval + (bool * jsval) :=
  inr (true, JUndefined).

Definition refuses (header : option string) (constraints : field)
  : jsval + (bool * jsval) :=
  inr (false, JStr "missing constraint").

Definition admins_only : setting := Object Absent (One "admin").

Lemma authorization_log_witness :
  exists before,
    fst (authRequest authenticates refuses (Some "bearer abc") admins_only) =
      before ++ [Debug AuthorizationSucceeded] /\
    (false = false \/ truthy (JStr "missing constraint") = true ->
     exists before',
       before =
         before' ++ [Debug (AuthorizationFailed
                              (reason (JStr "missing constraint")));
                     SendHttpUnauthorized]).
Proof.
  apply (authorization_success_is_logged_regardless authenticates refuses
           (Some "bearer abc") admins_only false (JStr "missing constraint")).
  - reflexivity.
  - vm_compute. auto 10.
  - reflexivity.
Defined.

End AuthRequest.
